(** * Freight-quotation sheet parser: route extraction, table assembly and
      deduplication

    A shallow embedding of the route-recognition core of the quotation
    parser (scripts/data/location_whitelist.py,
    scripts/modules/route_extractor.py,
    scripts/modules/horizontal_table_parser.py and the runner in
    scripts/dryrun_horizontal_parser.py), followed by the properties of the
    specification that were checked against it.

    Python strings are sequences of Unicode code points; they are modelled
    as [list N].  The set used for same-sheet deduplication is a [gset] and
    the runner's key table a [gmap]. *)

From stdpp Require Import base list gmap strings.
From Stdlib Require Import NArith Lia Ascii.

Local Open Scope N_scope.
Local Open Scope nat_scope.

(* ===================================================================== *)
(** ** Python strings *)
(* ===================================================================== *)

Module PyStr.

Abbreviation str := (list N).

(** Decoding of the UTF-8 bytes of a literal into code points, so that the
    literals of the source can be written as they are. *)
Fixpoint utf8_go (s : string) (need : nat) (acc : N) : str :=
  match s with
  | EmptyString => []
  | String a s' =>
      let b := N_of_ascii a in
      match need with
      | O =>
          if (b <? 128)%N then b :: utf8_go s' 0 0%N
          else if (b <? 224)%N then utf8_go s' 1 (b - 192)%N
          else if (b <? 240)%N then utf8_go s' 2 (b - 224)%N
          else utf8_go s' 3 (b - 240)%N
      | S k =>
          let acc' := (acc * 64 + (b - 128))%N in
          match k with
          | O => acc' :: utf8_go s' 0 0%N
          | S _ => utf8_go s' k acc'
          end
      end
  end.

Definition u (s : string) : str := utf8_go s 0 0%N.

(** [str.isspace] for one character (the characters [strip()] removes and
    the pattern [\s] matches). *)
Definition is_space (c : N) : bool :=
  ((9 <=? c) && (c <=? 13) || (28 <=? c) && (c <=? 32)
   || (c =? 133) || (c =? 160) || (c =? 5760)
   || (8192 <=? c) && (c <=? 8202)
   || (c =? 8232) || (c =? 8233) || (c =? 8239) || (c =? 8287)
   || (c =? 12288))%N.

Definition char_in (cs : str) (c : N) : bool := existsb (N.eqb c) cs.

Fixpoint lstrip_by (p : N -> bool) (s : str) : str :=
  match s with
  | [] => []
  | c :: s' => if p c then lstrip_by p s' else s
  end.

Fixpoint rstrip_by (p : N -> bool) (s : str) : str :=
  match s with
  | [] => []
  | c :: s' =>
      match rstrip_by p s' with
      | [] => if p c then [] else [c]
      | r => c :: r
      end
  end.

Definition strip_by (p : N -> bool) (s : str) : str :=
  rstrip_by p (lstrip_by p s).

(** [s.strip()], [s.strip(chars)], [s.rstrip(chars)]. *)
Definition strip (s : str) : str := strip_by is_space s.
Definition strip_chars (s chars : str) : str := strip_by (char_in chars) s.
Definition rstrip_chars (s chars : str) : str := rstrip_by (char_in chars) s.

(** [s.startswith(p)], [s.endswith(p)]. *)
Fixpoint startswith (s p : str) : bool :=
  match p, s with
  | [], _ => true
  | _ :: _, [] => false
  | a :: p', b :: s' => (a =? b)%N && startswith s' p'
  end.

Definition endswith (s p : str) : bool := startswith (rev s) (rev p).

(** [sub in s]. *)
Fixpoint str_in (sub s : str) : bool :=
  startswith s sub ||
  match s with
  | [] => false
  | _ :: s' => str_in sub s'
  end.

Definition str_eqb (a b : str) : bool := bool_decide (a = b).

(** [s.split(sep)] for a non-empty separator: [skip] counts the characters
    of a separator occurrence still to be passed over, [cur] is the current
    piece, reversed. *)
Fixpoint split_go (sep : str) (skip : nat) (s : str) (cur : str) : list str :=
  match s with
  | [] => [rev cur]
  | c :: s' =>
      match skip with
      | S k => split_go sep k s' cur
      | O =>
          if startswith s sep
          then rev cur :: split_go sep (length sep - 1) s' []
          else split_go sep 0 s' (c :: cur)
      end
  end.

Definition split (s sep : str) : list str := split_go sep 0 s [].

(** [s.replace(old, new)] for a non-empty [old]: leftmost, non-overlapping
    occurrences. *)
Fixpoint replace_go (old new : str) (skip : nat) (s : str) : str :=
  match s with
  | [] => []
  | c :: s' =>
      match skip with
      | S k => replace_go old new k s'
      | O =>
          if startswith s old
          then new ++ replace_go old new (length old - 1) s'
          else c :: replace_go old new 0 s'
      end
  end.

Definition replace (s old new : str) : str := replace_go old new 0 s.

(** [s.lower()].  The source lowers a cell only before looking for Chinese
    keywords or comparing with the tokens "/", "-", "nan", "none"; the
    letters A-Z are mapped, other characters are left as they are. *)
Definition lower_char (c : N) : N :=
  if ((65 <=? c) && (c <=? 90))%N then (c + 32)%N else c.

Definition lower (s : str) : str := map lower_char s.

(** [s[:n]]. *)
Definition prefix_n (n : nat) (s : str) : str := take n s.

(** Truth value of a string. *)
Definition truthy (s : str) : bool :=
  match s with [] => false | _ => true end.

(** Rendering of an optional string inside an f-string. *)
Definition NoneText : str := Eval vm_compute in u "None".

Definition fmt (o : option str) : str :=
  match o with Some s => s | None => NoneText end.

Definition opt_truthy (o : option str) : bool :=
  match o with Some s => truthy s | None => false end.

End PyStr.
Import PyStr.

(* ===================================================================== *)
(** ** Regular expressions of the source *)
(* ===================================================================== *)

(** The patterns of the source only repeat character classes and make one
    group optional; the matcher below is the backtracking matcher of [re]
    for that fragment: greedy repetition, ordered alternatives, leftmost
    match for [search]. *)
Module Re.

Inductive regex : Type :=
| RLit (s : str)
| RRep (p : N -> bool) (lo : nat) (hi : option nat)
| RSeq (r1 r2 : regex)
| RAlt (r1 r2 : regex)
| ROpt (r : regex)
| RGroup (i : nat) (r : regex)
| RBol.

Definition caps := list (nat * str).

Fixpoint group (c : caps) (i : nat) : option str :=
  match c with
  | [] => None
  | (j, s) :: c' => if Nat.eqb i j then Some s else group c' i
  end.

Section Matcher.
Context {A : Type}.

(** Greedy [p{lo,hi}]: take as many characters as allowed, give back one
      at a time while the rest of the pattern fails. *)
Fixpoint rrep (p : N -> bool) (lo : nat) (hi : option nat) (n : nat)
      (pos : nat) (s : str) (k : nat -> str -> option A) : option A :=
    let stop := if Nat.leb lo n then k pos s else None in
    let more := match hi with Some h => Nat.ltb n h | None => true end in
    match s with
    | c :: s' =>
        if more && p c then
          match rrep p lo hi (S n) (S pos) s' k with
          | Some r => Some r
          | None => stop
          end
        else stop
    | [] => stop
    end.

Fixpoint rmatch (r : regex) (pos : nat) (s : str) (c : caps)
      (k : nat -> str -> caps -> option A) : option A :=
    match r with
    | RLit l =>
        if startswith s l then k (pos + length l) (drop (length l) s) c
        else None
    | RRep p lo hi => rrep p lo hi 0 pos s (fun pos' s' => k pos' s' c)
    | RSeq r1 r2 =>
        rmatch r1 pos s c (fun pos' s' c' => rmatch r2 pos' s' c' k)
    | RAlt r1 r2 =>
        match rmatch r1 pos s c k with
        | Some x => Some x
        | None => rmatch r2 pos s c k
        end
    | ROpt r1 =>
        match rmatch r1 pos s c k with
        | Some x => Some x
        | None => k pos s c
        end
    | RGroup i r1 =>
        rmatch r1 pos s c
          (fun pos' s' c' => k pos' s' ((i, take (pos' - pos) s) :: c'))
    | RBol => if Nat.eqb pos 0 then k pos s c else None
    end.
End Matcher.

(** A match: start, end and captured groups. *)
Record rmatch_result := MatchResult {
  m_start : nat;
  m_end : nat;
  m_caps : caps
}.

Definition match_at (r : regex) (pos : nat) (s : str) : option rmatch_result :=
  rmatch r pos s [] (fun e _ c => Some (MatchResult pos e c)).

(** [pattern.match(s)]. *)
Definition re_match (r : regex) (s : str) : option rmatch_result :=
  match_at r 0 s.

(** [pattern.search(s)]. *)
Fixpoint search_from (r : regex) (pos : nat) (s : str) : option rmatch_result :=
  match match_at r pos s with
  | Some m => Some m
  | None =>
      match s with
      | [] => None
      | _ :: s' => search_from r (S pos) s'
      end
  end.

Definition re_search (r : regex) (s : str) : option rmatch_result :=
  search_from r 0 s.

Definition m_group (m : rmatch_result) (i : nat) : option str :=
  group (m_caps m) i.

(** [re.sub(pattern, '', s)] for a pattern that matches no empty string. *)
Fixpoint sub_empty (r : regex) (fuel : nat) (s : str) : str :=
  match fuel with
  | O => s
  | S fuel' =>
      match re_search r s with
      | None => s
      | Some m =>
          take (m_start m) s ++ sub_empty r fuel' (drop (m_end m) s)
      end
  end.

(** Character classes and small combinators. *)
Definition one (p : N -> bool) : regex := RRep p 1 (Some 1).
Definition star (p : N -> bool) : regex := RRep p 0 None.
Definition plus (p : N -> bool) : regex := RRep p 1 None.
Definition chr (c : N) : regex := one (N.eqb c).
Definition cls_space : N -> bool := is_space.
(** [\d], taken as the ASCII digits. *)
Definition cls_digit (c : N) : bool := ((48 <=? c) && (c <=? 57))%N.
(** [[一-龥a-zA-Z]]. *)
Definition cls_loc (c : N) : bool :=
  ((19968 <=? c) && (c <=? 40869) || (97 <=? c) && (c <=? 122)
   || (65 <=? c) && (c <=? 90))%N.

Fixpoint seqs (rs : list regex) : regex :=
  match rs with
  | [] => RLit []
  | [r] => r
  | r :: rs' => RSeq r (seqs rs')
  end.

Fixpoint alts (rs : list regex) : regex :=
  match rs with
  | [] => RRep (fun _ => false) 1 (Some 1)
  | [r] => r
  | r :: rs' => RAlt r (alts rs')
  end.

(** A literal under IGNORECASE: each letter matches both its cases, and
    also the characters whose lower case it is (the Kelvin sign for k, the
    long s for s). *)
Definition ci_char (c : N) (x : N) : bool :=
  ((lower_char x =? lower_char c)
   || (lower_char c =? 107) && (x =? 8490)
   || (lower_char c =? 115) && (x =? 383))%N.

Definition ci_lit (s : str) : regex :=
  seqs (map (fun c => one (ci_char c)) s).

End Re.
Import Re.

(* ===================================================================== *)
(** ** scripts/data/location_whitelist.py *)
(* ===================================================================== *)

Module Whitelist.

Definition LOCATION_WHITELIST : list str := Eval vm_compute in map u [
  "深圳"; "广州"; "上海"; "北京"; "天津"; "重庆"; "成都";
  "西安"; "武汉"; "杭州"; "南京"; "苏州"; "宁波"; "青岛";
  "大连"; "厦门"; "东莞"; "佛山"; "中山"; "珠海"; "惠州";
  "江门"; "肇庆"; "汕头"; "福州"; "泉州"; "温州"; "台州";
  "义乌"; "郑州"; "长沙"; "合肥"; "南昌"; "沈阳"; "哈尔滨";
  "长春"; "呼和浩特"; "乌鲁木齐"; "兰州"; "银川"; "西宁";
  "昆明"; "贵阳"; "南宁"; "海口"; "三亚"; "拉萨"; "石家庄";
  "太原"; "济南"; "烟台"; "威海"; "淄博"; "潍坊"; "临沂";
  "国内"; "中国"; "内地"; "大陆"; "广东"; "浙江"; "江苏";
  "山东"; "河北"; "河南"; "湖北"; "湖南"; "四川"; "陕西";
  "福建"; "安徽"; "香港"; "澳门"; "台湾"; "台北"; "高雄";
  "台中"; "HK"; "HongKong"; "日本"; "东京"; "大阪"; "名古屋";
  "横滨"; "神户"; "福冈"; "札幌"; "韩国"; "首尔"; "釜山";
  "仁川"; "Seoul"; "Busan"; "朝鲜"; "平壤"; "蒙古"; "乌兰巴托";
  "新加坡"; "Singapore"; "SG"; "狮城"; "马来西亚"; "马来";
  "吉隆坡"; "槟城"; "柔佛"; "新山"; "巴生港"; "Malaysia";
  "泰国"; "曼谷"; "Bangkok"; "清迈"; "普吉"; "越南"; "河内";
  "胡志明"; "Vietnam"; "西贡"; "菲律宾"; "马尼拉"; "Manila";
  "宿务"; "印度尼西亚"; "印尼"; "雅加达"; "Jakarta";
  "巴厘岛"; "缅甸"; "仰光"; "Myanmar"; "柬埔寨"; "金边";
  "Cambodia"; "老挝"; "万象"; "文莱"; "斯里巴加湾"; "东帝汶";
  "印度"; "新德里"; "孟买"; "班加罗尔"; "金奈";
  "加尔各答"; "India"; "Delhi"; "巴基斯坦"; "伊斯兰堡";
  "卡拉奇"; "Pakistan"; "孟加拉"; "达卡"; "Bangladesh";
  "斯里兰卡"; "科伦坡"; "SriLanka"; "尼泊尔"; "加德满都";
  "不丹"; "廷布"; "马尔代夫"; "马累"; "沙特";
  "沙特阿拉伯"; "利雅得"; "吉达"; "Saudi"; "Riyadh"; "阿联酋";
  "迪拜"; "阿布扎比"; "Dubai"; "UAE"; "AbuDhabi"; "卡塔尔";
  "多哈"; "Qatar"; "Doha"; "科威特"; "Kuwait"; "巴林"; "Bahrain";
  "阿曼"; "马斯喀特"; "Oman"; "伊朗"; "德黑兰"; "Iran";
  "伊拉克"; "巴格达"; "Iraq"; "叙利亚"; "大马士革"; "约旦";
  "安曼"; "Jordan"; "以色列"; "特拉维夫"; "耶路撒冷";
  "Israel"; "黎巴嫩"; "贝鲁特"; "也门"; "萨那"; "土耳其";
  "伊斯坦布尔"; "安卡拉"; "Turkey"; "Istanbul"; "英国"; "伦敦";
  "曼彻斯特"; "伯明翰"; "UK"; "London"; "England"; "法国";
  "巴黎"; "马赛"; "里昂"; "France"; "Paris"; "德国"; "柏林";
  "汉堡"; "慕尼黑"; "法兰克福"; "Germany"; "Frankfurt"; "Berlin";
  "荷兰"; "阿姆斯特丹"; "鹿特丹"; "Netherlands"; "Amsterdam";
  "比利时"; "布鲁塞尔"; "安特卫普"; "Belgium"; "Brussels";
  "卢森堡"; "Luxembourg"; "瑞士"; "苏黎世"; "日内瓦";
  "Switzerland"; "Zurich"; "奥地利"; "维也纳"; "Austria"; "Vienna";
  "西班牙"; "马德里"; "巴塞罗那"; "Spain"; "Madrid"; "Barcelona";
  "葡萄牙"; "里斯本"; "Portugal"; "Lisbon"; "意大利"; "罗马";
  "米兰"; "威尼斯"; "Italy"; "Rome"; "Milan"; "希腊"; "雅典";
  "Greece"; "Athens"; "马耳他"; "Malta"; "瑞典"; "斯德哥尔摩";
  "Sweden"; "Stockholm"; "挪威"; "奥斯陆"; "Norway"; "Oslo"; "芬兰";
  "赫尔辛基"; "Finland"; "Helsinki"; "丹麦"; "哥本哈根";
  "Denmark"; "Copenhagen"; "冰岛"; "雷克雅未克"; "Iceland";
  "俄罗斯"; "莫斯科"; "圣彼得堡"; "Russia"; "Moscow"; "波兰";
  "华沙"; "Poland"; "Warsaw"; "捷克"; "布拉格"; "Czech"; "Prague";
  "匈牙利"; "布达佩斯"; "Hungary"; "Budapest"; "罗马尼亚";
  "布加勒斯特"; "Romania"; "保加利亚"; "索非亚"; "Bulgaria";
  "乌克兰"; "基辅"; "Ukraine"; "Kiev"; "爱尔兰"; "美国"; "USA";
  "US"; "America"; "美"; "纽约"; "洛杉矶"; "芝加哥"; "休斯顿";
  "凤凰城"; "费城"; "圣安东尼奥"; "圣地亚哥"; "达拉斯";
  "旧金山"; "西雅图"; "波士顿"; "迈阿密"; "亚特兰大";
  "NewYork"; "LosAngeles"; "Chicago"; "Houston"; "Dallas"; "Seattle";
  "加拿大"; "多伦多"; "温哥华"; "蒙特利尔"; "Canada";
  "Toronto"; "Vancouver"; "墨西哥"; "墨西哥城"; "Mexico"; "巴西";
  "圣保罗"; "里约热内卢"; "Brazil"; "SaoPaulo"; "阿根廷";
  "布宜诺斯艾利斯"; "Argentina"; "BuenosAires"; "智利";
  "圣地亚哥"; "Chile"; "Santiago"; "秘鲁"; "利马"; "Peru"; "Lima";
  "哥伦比亚"; "波哥大"; "Colombia"; "Bogota"; "委内瑞拉";
  "加拉加斯"; "Venezuela"; "厄瓜多尔"; "基多"; "Ecuador";
  "玻利维亚"; "拉巴斯"; "Bolivia"; "澳大利亚"; "澳洲";
  "悉尼"; "墨尔本"; "布里斯班"; "珀斯"; "Australia"; "Sydney";
  "Melbourne"; "新西兰"; "奥克兰"; "惠灵顿"; "NewZealand";
  "Auckland"; "斐济"; "Fiji"; "巴布亚新几内亚"; "PNG"; "南非";
  "约翰内斯堡"; "开普敦"; "SouthAfrica"; "Johannesburg"; "埃及";
  "开罗"; "Egypt"; "Cairo"; "尼日利亚"; "拉各斯"; "Nigeria";
  "Lagos"; "肯尼亚"; "内罗毕"; "Kenya"; "Nairobi"; "埃塞俄比亚";
  "亚的斯亚贝巴"; "Ethiopia"; "摩洛哥"; "卡萨布兰卡";
  "Morocco"; "阿尔及利亚"; "阿尔及尔"; "Algeria"; "坦桑尼亚";
  "达累斯萨拉姆"; "Tanzania"; "加纳"; "阿克拉"; "Ghana";
  "欧洲"; "Europe"; "亚洲"; "Asia"; "美洲"; "Americas";
  "鹿特丹港"; "安特卫普港"; "汉堡港"; "不来梅港";
  "洛杉矶港"; "长滩港"; "纽约港"; "休斯顿港"; "新加坡港";
  "香港港"; "上海港"; "深圳港"; "宁波港"; "盐田"; "蛇口";
  "赤湾"; "南沙"; "黄埔"; "海外"; "境外"; "国际"; "全球";
  "世界"
]%string.

(** [is_valid_location].  The set is only tested for membership and
    scanned with an existential test, so its order plays no role. *)
Definition is_valid_location (location : str) : bool :=
  if negb (truthy location) then false
  else
    let location := strip location in
    if existsb (str_eqb location) LOCATION_WHITELIST then true
    else existsb (fun valid_loc =>
                    str_in valid_loc location || str_in location valid_loc)
                 LOCATION_WHITELIST.

Definition prefixes : list str := Eval vm_compute in map u [
  "货交"; "从"; "自"; "按"
]%string.

Definition business_words : list str := Eval vm_compute in map u [
  "专线"; "一般贸易"; "海运"; "空运"; "快递"; "方案";
  "贸易"; "代理"; "贸代"; "过港"; "快件"; "正清"; "双清";
  "宣传册"; "伴手礼"; "货物"; "客户"; "提供"; "重量"; "KGS";
  "KG"
]%string.

(** The characters of the class [[：:,，]]. *)
Definition cut_chars : str := Eval vm_compute in u "：:,，".

(** [re.split(r'[：:,，]', text)[0]]: the text before the first of them. *)
Fixpoint before_first (p : N -> bool) (s : str) : str :=
  match s with
  | [] => []
  | c :: s' => if p c then [] else c :: before_first p s'
  end.

Fixpoint strip_prefixes (ps : list str) (text : str) : str :=
  match ps with
  | [] => text
  | prefix :: ps' =>
      strip_prefixes ps'
        (if startswith text prefix then drop (length prefix) text else text)
  end.

(** The loop over [business_words]: cut at the first word found. *)
Fixpoint cut_business_word (ws : list str) (text : str) : str :=
  match ws with
  | [] => text
  | word :: ws' =>
      if str_in word text
      then strip (default [] (split text word !! 0))
      else cut_business_word ws' text
  end.

Definition clean_location_text (text : str) : str :=
  if negb (truthy text) then []
  else
    let text := strip_prefixes prefixes text in
    let text := before_first (char_in cut_chars) text in
    let text := cut_business_word business_words text in
    strip text.

End Whitelist.
Import Whitelist.

(* ===================================================================== *)
(** ** scripts/modules/route_extractor.py *)
(* ===================================================================== *)

Module RouteExtractor.

Definition route_separators : list str := Eval vm_compute in map u [
  "→"; "->"; "--"; "—"; "－"; "-"; "~"; "至"; "到"
]%string.

Definition U (s : string) : regex := RLit (u s).

(** [(\d+(?:\.\d+)?)], group 1 of the three numeric patterns. *)
Definition number : regex :=
  RSeq (plus cls_digit) (ROpt (RSeq (chr 46) (plus cls_digit))).

Definition weight_pattern : regex := Eval vm_compute in
  seqs [RGroup 1 number; star cls_space;
        alts [RSeq (ci_lit (u "kg")) (ROpt (ci_lit (u "s")));
              RSeq (ci_lit (u "KG")) (ROpt (ci_lit (u "S")));
              ci_lit (u "千克"); ci_lit (u "公斤")]].

Definition volume_pattern : regex := Eval vm_compute in
  seqs [RGroup 1 number; star cls_space;
        alts [ci_lit (u "cbm"); ci_lit (u "CBM");
              ci_lit (u "立方"); ci_lit (u "方")]].

Definition value_pattern : regex := Eval vm_compute in
  seqs [RGroup 1 number; star cls_space;
        alts [ci_lit (u "元"); ci_lit (u "rmb"); ci_lit (u "RMB");
              ci_lit (u "¥"); ci_lit (u "usd"); ci_lit (u "USD");
              ci_lit (u "$")]].

(** [(→|->|--?|—|~|至|到)]. *)
Definition separator : regex := Eval vm_compute in
  alts [U "→"; U "->"; RSeq (U "-") (ROpt (U "-")); U "—"; U "~";
        U "至"; U "到"].

Definition place : regex := RRep cls_loc 2 (Some 20).

Definition route_pattern : regex :=
  seqs [RGroup 1 place; star cls_space; RGroup 2 separator; star cls_space;
        RGroup 3 place;
        ROpt (seqs [star cls_space; RGroup 4 separator; star cls_space;
                    RGroup 5 place])].

(** The pattern removed from the text that follows a route:
    [\d+(?:\.\d+)?\s*(?:kg|KG|cbm|CBM|元|¥)]. *)
Definition quantity_pattern : regex := Eval vm_compute in
  seqs [number; star cls_space;
        alts [U "kg"; U "KG"; U "cbm"; U "CBM"; U "元"; U "¥"]].

Definition business_keywords : list str := Eval vm_compute in map u [
  "海运"; "空运"; "快递"; "铁路"; "陆运"; "卡车"; "快件";
  "航空"; "海派"; "空派"; "铁运"; "专线"; "正清"; "双清";
  "包税"; "到门"; "到港"; "预估"; "DDP"; "DAP"; "DDU"; "FOB";
  "CIF"; "一般贸易"; "贸代"; "贸易"; "成本"; "询价"; "方案";
  "代理"; "过港"; "报价"; "明细"; "费用"; "汇总"; "预算";
  "核算"; "结算"; "货交"; "货到"; "宣传册"; "伴手礼";
  "货物"; "样品"; "设备"; "产品"; "客户"; "提供"; "重量";
  "数量"
]%string.

Definition core_locations : list str := Eval vm_compute in map u [
  "深圳"; "上海"; "北京"; "广州"; "香港"; "澳门"; "新加坡";
  "印度"; "泰国"; "越南"; "马来西亚"; "马来"; "菲律宾";
  "印尼"; "雅加达"; "胡志明"; "柬埔寨"; "沙特"; "迪拜";
  "巴基斯坦"; "英国"; "法国"; "德国"; "法兰克福"; "荷兰";
  "西班牙"; "意大利"; "达拉斯"; "迈阿密"; "圣何塞";
  "巴西"; "巴拿马"; "墨西哥"; "澳洲"; "澳大利亚";
  "新西兰"; "首尔"; "日本"; "韩国"; "柔佛"; "国内"; "中国"
]%string.

(** One pass over [business_keywords]: cut at the first keyword that leaves
    a non-empty piece before it, or else after it. *)
Fixpoint keyword_pass (kws : list str) (cleaned : str) : str :=
  match kws with
  | [] => cleaned
  | keyword :: kws' =>
      if str_in keyword cleaned then
        let parts := split cleaned keyword in
        let p0 := strip (default [] (parts !! 0)) in
        let p1 := strip (default [] (parts !! 1)) in
        if truthy p0 then p0
        else if Nat.ltb 1 (length parts) && truthy p1 then p1
        else keyword_pass kws' cleaned
      else keyword_pass kws' cleaned
  end.

(** [for _ in range(n): prev = cleaned; ...; if cleaned == prev: break]. *)
Fixpoint until_stable (n : nat) (step : str -> str) (cleaned : str) : str :=
  match n with
  | O => cleaned
  | S n' =>
      let next := step cleaned in
      if str_eqb next cleaned then next else until_stable n' step next
  end.

Definition edge_chars : str := Eval vm_compute in
  u "：:,，。.、 " ++ [9%N; 10%N] ++ u "[]【】()".

(** Rounds 1 to 3 of [_deep_clean_location]. *)
Definition deep_clean_rounds (location : str) : str :=
  let cleaned := clean_location_text location in
  let cleaned := until_stable 3 (keyword_pass business_keywords) cleaned in
  strip_chars cleaned edge_chars.

(** Round 4: the first core place name found in the original text. *)
Definition core_location (location : str) : option str :=
  find (fun wl_location => str_in wl_location location) core_locations.

Definition _deep_clean_location (location : str) : str :=
  if negb (truthy location) then []
  else
    let cleaned := deep_clean_rounds location in
    if negb (truthy cleaned) || Nat.ltb (length cleaned) 2 then
      match core_location location with
      | Some wl_location => wl_location
      | None => cleaned
      end
    else cleaned.

(** The dictionary returned by [_extract_route_parts] and
    [_manual_split_route]. *)
Record route_parts := RouteParts {
  rp_origin : str;
  rp_destination : str;
  rp_via : option str;
  rp_trade_remark : option str
}.

Definition first_some {A B} (f : A -> option B) : list A -> option B :=
  fix go l :=
    match l with
    | [] => None
    | x :: l' => match f x with Some y => Some y | None => go l' end
    end.

(** [valid_parts] of [_manual_split_route] for one separator. *)
Definition valid_parts (text sep : str) : list str :=
  let parts := map strip (split text sep) in
  let cleaned_parts :=
    map _deep_clean_location (filter (fun p => truthy p = true) parts) in
  filter (fun p => (truthy p && is_valid_location p) = true) cleaned_parts.

Definition split_on (text sep : str) : option route_parts :=
  if str_in sep text then
    if Nat.leb 2 (length (split text sep)) then
      match valid_parts text sep with
      | o :: d :: rest => Some (RouteParts o d (head rest) None)
      | _ => None
      end
    else None
  else None.

Definition _manual_split_route (text : str) : option route_parts :=
  first_some (split_on text) route_separators.

Definition trade_remark_after (text : str) (m : rmatch_result) : option str :=
  if Nat.ltb (m_end m) (length text) then
    let remaining := strip (drop (m_end m) text) in
    if truthy remaining then
      let remaining :=
        strip (sub_empty quantity_pattern (length remaining) remaining) in
      if truthy remaining then Some (prefix_n 100 remaining) else None
    else None
  else None.

Definition _extract_route_parts (text : str) : option route_parts :=
  match re_search route_pattern text with
  | Some m =>
      let origin_raw := default [] (m_group m 1) in
      let second_loc := default [] (m_group m 3) in
      let third_loc := m_group m 5 in
      let via_raw := match third_loc with Some _ => Some second_loc | None => None end in
      let destination_raw := match third_loc with Some t => t | None => second_loc end in
      let origin := _deep_clean_location origin_raw in
      let destination := _deep_clean_location destination_raw in
      let via := option_map _deep_clean_location via_raw in
      let origin_ok := is_valid_location origin in
      let destination_ok := is_valid_location destination in
      let via :=
        match via with
        | Some v => if truthy v && negb (is_valid_location v) then None else Some v
        | None => None
        end in
      let trade_remark := trade_remark_after text m in
      if origin_ok && truthy origin && destination_ok && truthy destination
      then Some (RouteParts origin destination via trade_remark)
      else _manual_split_route text
  | None => _manual_split_route text
  end.

(** A number matched by one of the numeric patterns, kept as the matched
    numeral: [float] is a function of it. *)
Definition extract_number (pat : regex) (text : str) : option str :=
  match re_search pat text with
  | Some m => m_group m 1
  | None => None
  end.

Definition _extract_weight := extract_number weight_pattern.
Definition _extract_volume := extract_number volume_pattern.
Definition _extract_value := extract_number value_pattern.

(** The dictionary returned by [extract_route]. *)
Record route_info := RouteInfo {
  origin : option str;
  destination : option str;
  via : option str;
  trade_remark : option str;
  weight : option str;
  volume : option str;
  value : option str;
  _raw : str
}.

Definition extract_route (text : str) (fallback_start : option str) : route_info :=
  if negb (truthy text) then
    RouteInfo None None None None None None None text
  else
    let route_parts := _extract_route_parts text in
    let o := option_map rp_origin route_parts in
    let d := option_map rp_destination route_parts in
    let v := route_parts ≫= rp_via in
    let t := route_parts ≫= rp_trade_remark in
    let o :=
      if negb (opt_truthy o) && opt_truthy fallback_start then
        let cleaned_start := _deep_clean_location (default [] fallback_start) in
        if is_valid_location cleaned_start then Some cleaned_start else o
      else o in
    RouteInfo o d v t (_extract_weight text) (_extract_volume text)
              (_extract_value text) text.

End RouteExtractor.

Import RouteExtractor.

(* ===================================================================== *)
(** ** scripts/modules/horizontal_table_parser.py: the data classes *)
(* ===================================================================== *)

(** [Route].  The fields are, in the order of the source: 起始地, 目的地,
    途径地, 贸易备注, 交易开始日期, 交易结束日期, 实际重量, 计费重量,
    总体积, 货值, [_raw], [_sheet_name].  A number is kept as the numeral it
    was read from. *)
Record Route := mkRoute {
  r_origin : option str;
  r_destination : option str;
  r_via : option str;
  r_trade_remark : option str;
  r_start_date : option str;
  r_end_date : option str;
  r_actual_weight : option str;
  r_charge_weight : option str;
  r_volume : option str;
  r_value : option str;
  r_raw : option str;
  r_sheet_name : option str
}.

(** [Agent]: 代理商, 运输方式, 贸易类型, 代理备注, 不含, 时效, 是否赔付,
    赔付内容. *)
Record Agent := mkAgent {
  a_name : option str;
  a_transport : option str;
  a_trade_type : option str;
  a_remark : option str;
  a_excluded : option str;
  a_lead_time : option str;
  a_compensated : str;
  a_compensation : option str
}.

(** [QuoteBlock].  The parser always leaves [fee_items], [fee_total] and
    [summary] at their empty defaults; they are not carried here. *)
Record QuoteBlock := mkQuote {
  route : Route;
  agent : Agent
}.

#[global] Instance Route_eq_dec : EqDecision Route.
Proof. solve_decision. Defined.
#[global] Instance Agent_eq_dec : EqDecision Agent.
Proof. solve_decision. Defined.
#[global] Instance QuoteBlock_eq_dec : EqDecision QuoteBlock.
Proof. solve_decision. Defined.

Module RouteKeys.

Definition location_normalization_map : list (str * str) :=
  Eval vm_compute in map (fun p => (u (fst p), u (snd p))) [
  ("奥地利维也纳", "维也纳");
  ("德国法兰克福", "法兰克福");
  ("荷兰阿姆斯特丹", "阿姆斯特丹");
  ("英国伦敦", "伦敦");
  ("法国巴黎", "巴黎");
  ("马来西亚", "马来");
  ("印度尼西亚", "印尼");
  ("中国香港", "香港");
  ("中国深圳", "深圳");
  ("中国广州", "广州");
  ("中国北京", "北京");
  ("中国上海", "上海");
  ("美国达拉斯", "达拉斯");
  ("美国迈阿密", "迈阿密");
  ("美国圣何塞", "圣何塞");
  ("新加坡共和国", "新加坡");
  ("越南河内", "河内");
  ("泰国曼谷", "曼谷");
  ("菲律宾马尼拉", "马尼拉");
  ("印尼雅加达", "雅加达");
  ("马来柔佛", "柔佛")
]%string.

(** The loop of [normalize_location] over the table, in its order. *)
Fixpoint apply_rules (rules : list (str * str)) (location : str) : str :=
  match rules with
  | [] => location
  | (full_name, standard_name) :: rules' =>
      apply_rules rules'
        (if str_in full_name location
         then replace location full_name standard_name
         else location)
  end.

(** [Route.normalize_location] on a string. *)
Definition normalize_location (location : str) : str :=
  if negb (truthy location) then location
  else apply_rules location_normalization_map (strip location).

(** [Route.normalize_location] on an optional string. *)
Definition normalize_opt (location : option str) : option str :=
  option_map normalize_location location.

Definition bar : str := Eval vm_compute in u "|".

(** [Route.get_unique_key]. *)
Definition get_unique_key (r : Route) : str :=
  fmt (r_origin r) ++ bar ++ fmt (r_destination r) ++ bar ++
  fmt (r_via r) ++ bar ++ fmt (r_sheet_name r).

(** [Route.get_route_signature]. *)
Definition get_route_signature (r : Route) : str :=
  let origin_std := normalize_opt (r_origin r) in
  let destination_std := normalize_opt (r_destination r) in
  let via_std :=
    if opt_truthy (r_via r) then normalize_opt (r_via r) else None in
  fmt origin_std ++ bar ++ fmt destination_std ++ bar ++ fmt via_std.

End RouteKeys.
Import RouteKeys.

(* ===================================================================== *)
(** ** scripts/modules/horizontal_table_parser.py: the parser *)
(* ===================================================================== *)

Module HorizontalTableParser.

Abbreviation row := (list str).
Abbreviation sheet := (list row).

(** [[-—→>至到]+] and [[-—→>]+]. *)
Definition route_link_chars : str := Eval vm_compute in u "-—→>至到".
Definition header_link_chars : str := Eval vm_compute in u "-—→>".
Definition route_link : N -> bool := char_in route_link_chars.
Definition header_link : N -> bool := char_in header_link_chars.

Definition route_pattern : regex :=
  seqs [RGroup 1 (RRep cls_loc 2 (Some 20)); star cls_space; plus route_link;
        star cls_space; RGroup 2 (RRep cls_loc 2 (Some 20));
        ROpt (seqs [star cls_space; plus route_link; star cls_space;
                    RGroup 3 (RRep cls_loc 2 (Some 20))])].

Definition handover : str := Eval vm_compute in u "货交".

Definition table_header_pattern : regex :=
  seqs [RBol; ROpt (RLit handover); RGroup 1 (RRep cls_loc 2 (Some 15));
        star cls_space; plus header_link; star cls_space;
        RGroup 2 (RRep cls_loc 2 (Some 15))].

Definition agent_keywords : list str := Eval vm_compute in map u [
  "代理"; "货代"; "公司"
]%string.

Definition business_suffixes : list str := Eval vm_compute in map u [
  "小货的"; "快递"; "价格"; "成本"; "方案"; "询价"; "预估";
  "贸易代理"; "贸代"; "专线"; "海运"; "空运"; "正清";
  "双清"; "包税"; "到门"; "到港"; "的"; "之"; "啊"; "吧"; "呢"
]%string.

Definition colon : str := Eval vm_compute in u ":".
Definition wide_colon : str := Eval vm_compute in u "：".
Definition colons : str := Eval vm_compute in u "：:".
Definition marks : list str := Eval vm_compute in map u ["/"; "-"; ""]%string.
Definition blanks : list str := Eval vm_compute in map u ["nan"; "none"; ""]%string.

Definition has_colon (s : str) : bool := str_in colon s || str_in wide_colon s.

Definition has_agent_keyword (s : str) : bool :=
  existsb (fun kw => str_in kw s) agent_keywords.

Definition is_mark (s : str) : bool := existsb (str_eqb s) marks.

(** Groups 1 and 2 of a match are both valid locations. *)
Definition ends_valid (m : option rmatch_result) : bool :=
  match m with
  | Some m =>
      is_valid_location (default [] (m_group m 1)) &&
      is_valid_location (default [] (m_group m 2))
  | None => false
  end.

(** The test made on the row after a colon header. *)
Definition next_row_is_agent (sheet_data : sheet) (row_idx : nat) : bool :=
  match sheet_data !! (row_idx + 1) with
  | Some (c :: _) =>
      if truthy c then
        let next_cell := lower (strip c) in
        has_agent_keyword next_cell || is_mark next_cell
      else false
  | _ => false
  end.

Definition rule1_applies (first_cell : str) : bool :=
  startswith first_cell handover && has_colon first_cell.

(** The part of a colon header that is tested by the second rule. *)
Definition colon_route_part (first_cell : str) : str :=
  strip (rstrip_chars first_cell colons).

Definition rule2_route (first_cell : str) : bool :=
  let route_part := colon_route_part first_cell in
  Nat.ltb (length route_part) 30 &&
  ends_valid (re_search route_pattern route_part).

(** The value of [is_valid_title] for a row. *)
Definition is_valid_title (sheet_data : sheet) (row_idx : nat)
    (first_cell : str) : bool :=
  if rule1_applies first_cell then
    ends_valid (re_search table_header_pattern first_cell)
  else if has_colon first_cell then
    rule2_route first_cell && next_row_is_agent sheet_data row_idx
  else if negb (endswith first_cell wide_colon) &&
          negb (endswith first_cell colon) then
    ends_valid (re_match table_header_pattern first_cell)
  else false.

(** A table span: first row, last row, header text. *)
Definition span : Type := nat * nat * str.

Record scan_state := ScanState {
  boundaries : list span;
  current : option (nat * str)
}.

(** The text of a row that the scan looks at, if it looks at the row. *)
Definition scanned_cell (r : row) : option str :=
  match r with
  | c :: _ =>
      if truthy c then
        let first_cell := strip c in
        if Nat.ltb 80 (length first_cell) then None else Some first_cell
      else None
  | [] => None
  end.

Definition scan_row (sheet_data : sheet) (st : scan_state) (row_idx : nat)
    (r : row) : scan_state :=
  match scanned_cell r with
  | Some first_cell =>
      if is_valid_title sheet_data row_idx first_cell then
        ScanState
          (match current st with
           | Some (current_start, current_route_text) =>
               boundaries st ++ [(current_start, row_idx - 1, current_route_text)]
           | None => boundaries st
           end)
          (Some (row_idx, first_cell))
      else st
  | None => st
  end.

Fixpoint scan_rows (sheet_data : sheet) (st : scan_state) (row_idx : nat)
    (rows : list row) : scan_state :=
  match rows with
  | [] => st
  | r :: rows' =>
      scan_rows sheet_data (scan_row sheet_data st row_idx r) (S row_idx) rows'
  end.

(** The spans found by the scan of the rows, the last one closed at the
    last row. *)
Definition scan_boundaries (sheet_data : sheet) : list span :=
  let st := scan_rows sheet_data (ScanState [] None) 0 sheet_data in
  match current st with
  | Some (current_start, current_route_text) =>
      boundaries st ++ [(current_start, length sheet_data - 1, current_route_text)]
  | None => boundaries st
  end.

(** The text before the first "|", trimmed, when there is one. *)
Definition before_bar (text : str) : str :=
  if str_in bar text then strip (default [] (split text bar !! 0)) else text.

(** The second strategy: the first row as header of the whole sheet. *)
Definition first_row_boundary (sheet_data : sheet) : list span :=
  match sheet_data with
  | (c :: _) :: _ =>
      let first_cell := strip c in
      let route_part := before_bar first_cell in
      if truthy route_part && Nat.ltb (length route_part) 100 then
        match re_search route_pattern route_part with
        | Some _ => [(0, length sheet_data - 1, first_cell)]
        | None => []
        end
      else []
  | _ => []
  end.

Definition _find_table_boundaries (sheet_data : sheet) : list span :=
  match scan_boundaries sheet_data with
  | [] => first_row_boundary sheet_data
  | bs => bs
  end.

(** One round of [_clean_location_suffix]: the first suffix the text ends
    with is removed. *)
Fixpoint drop_suffix (suffixes : list str) (cleaned : str) : str :=
  match suffixes with
  | [] => cleaned
  | suffix :: suffixes' =>
      if endswith cleaned suffix
      then strip (take (length cleaned - length suffix) cleaned)
      else drop_suffix suffixes' cleaned
  end.

(** The text after the rounds of [_clean_location_suffix]. *)
Definition suffix_rounds (location : str) : str :=
  until_stable 3 (drop_suffix business_suffixes) location.

Definition _clean_location_suffix (location : str) : str :=
  if negb (truthy location) then location
  else
    let cleaned := suffix_rounds location in
    if Nat.ltb (length cleaned) 2 then location else cleaned.

(** Truth value of a number read from a numeral: it is not zero. *)
Definition number_truthy (o : option str) : bool :=
  match o with
  | Some n => existsb (fun c => (49 <=? c) && (c <=? 57))%N n
  | None => false
  end.

(** [_extract_route_from_text], with the route extractor present. *)
Definition _extract_route_from_text (text : str) (sheet_name : option str)
    : Route :=
  let raw := if truthy text then Some (prefix_n 100 text) else None in
  if negb (truthy text) then
    mkRoute None None None None None None None None None None raw sheet_name
  else
    let route_part := before_bar text in
    let route_part := strip (rstrip_chars route_part colons) in
    let route_info := extract_route route_part sheet_name in
    let w := weight route_info in
    let charge := if number_truthy w then w else None in
    let dest :=
      if opt_truthy (destination route_info)
      then option_map _clean_location_suffix (destination route_info)
      else destination route_info in
    mkRoute (origin route_info) dest (via route_info)
            (trade_remark route_info) None None w charge
            (volume route_info) (value route_info) raw sheet_name.

(** [_get_cell]. *)
Definition _get_cell (table_data : sheet) (row_idx col_idx : nat)
    : option str :=
  match table_data !! row_idx with
  | None => None
  | Some r =>
      match r !! col_idx with
      | None => None
      | Some cell =>
          if existsb (str_eqb (lower (strip cell))) blanks then None
          else Some (strip cell)
      end
  end.

(** The dictionary of [_identify_structure]; [fee_row] and [total_row] are
    never set. *)
Record structure := Structure {
  num_cols : nat;
  agent_row : option nat
}.

(** A cell with more than one character among columns 1 to 4 of the row. *)
Definition has_content (table_data : sheet) (row_idx : nat) (r : row) : bool :=
  existsb (fun col_idx =>
             match _get_cell table_data row_idx col_idx with
             | Some cell => truthy cell && Nat.ltb 1 (length cell)
             | None => false
             end)
          (seq 1 (Nat.min (length r) 5 - 1)).

Definition is_agent_row (table_data : sheet) (row_idx : nat) (r : row) : bool :=
  match r with
  | [] => false
  | c :: _ =>
      let first_cell := if truthy c then lower (strip c) else [] in
      if has_agent_keyword first_cell then true
      else is_mark first_cell && Nat.ltb 1 (length r) &&
           has_content table_data row_idx r
  end.

Fixpoint find_agent_row (table_data : sheet) (row_idx : nat) (rows : list row)
    : option nat :=
  match rows with
  | [] => None
  | r :: rows' =>
      if is_agent_row table_data row_idx r then Some row_idx
      else find_agent_row table_data (S row_idx) rows'
  end.

(** [_identify_structure].  The source takes [max] over the non-empty rows,
    which raises when there is none; a span found by
    [_find_table_boundaries] starts with a non-empty row. *)
Definition _identify_structure (table_data : sheet) : option structure :=
  match table_data with
  | [] => None
  | _ =>
      Some (Structure (foldr Nat.max 0 (map length table_data))
                      (find_agent_row table_data 0 table_data))
  end.

Definition not_compensated : str := Eval vm_compute in u "0".

(** [Agent()] with the name set. *)
Definition named_agent (name : option str) : Agent :=
  mkAgent name None None None None None not_compensated None.

(** The copy of the route of the span made for a column. *)
Definition column_route (base_route : Route) (sheet_name : option str)
    : Route :=
  mkRoute (r_origin base_route) (r_destination base_route)
          (r_via base_route) (r_trade_remark base_route) None None
          (r_actual_weight base_route) (r_charge_weight base_route)
          (r_volume base_route) (r_value base_route) (r_raw base_route)
          sheet_name.

(** [_extract_column_quote]. *)
Definition _extract_column_quote (table_data : sheet) (col_idx : nat)
    (st : structure) (base_route : Route) (sheet_name : option str)
    : option QuoteBlock :=
  let route := column_route base_route sheet_name in
  let name :=
    match agent_row st with
    | Some ar =>
        match _get_cell table_data ar col_idx with
        | Some agent_cell =>
            if truthy agent_cell then Some (strip agent_cell) else None
        | None => None
        end
    | None => None
    end in
  if negb (opt_truthy name) then None
  else Some (mkQuote route (named_agent name)).

Definition single_suffix : str := Eval vm_compute in u "-单列报价".
Definition unnamed_agent : str := Eval vm_compute in u "未标注代理商".
Definition sheet_suffix : str := Eval vm_compute in u "-sheet名提取".

(** The route of a span: the header, or the sheet name when the header is
    incomplete; [None] when the span is given up. *)
Definition resolve_base_route (route_text : str) (sheet_name : option str)
    : option Route :=
  let base_route := _extract_route_from_text route_text sheet_name in
  let incomplete :=
    negb (opt_truthy (r_origin base_route)) ||
    negb (opt_truthy (r_destination base_route)) in
  let neither :=
    negb (opt_truthy (r_origin base_route)) &&
    negb (opt_truthy (r_destination base_route)) in
  if incomplete && opt_truthy sheet_name then
    let sheet_route :=
      _extract_route_from_text (default [] sheet_name) sheet_name in
    if opt_truthy (r_origin sheet_route) &&
       opt_truthy (r_destination sheet_route)
    then Some sheet_route
    else if neither then None else Some base_route
  else if neither then None else Some base_route.

Definition has_multi_agents (table_data : sheet) (ar : nat) : bool :=
  let agent_row_data := default [] (table_data !! ar) in
  Nat.ltb 1 (length agent_row_data) && existsb truthy (drop 1 agent_row_data).

Definition is_single_column (table_data : sheet) (st : structure) : bool :=
  Nat.leb (num_cols st) 2 ||
  match agent_row st with
  | Some ar => negb (has_multi_agents table_data ar)
  | None => true
  end.

Definition single_agent (table_data : sheet) (st : structure)
    (sheet_name : option str) : Agent :=
  let name :=
    match agent_row st with
    | Some ar =>
        let agent_row_data := default [] (table_data !! ar) in
        let agent_cell :=
          if Nat.leb 2 (length agent_row_data) &&
             has_agent_keyword (default [] (agent_row_data !! 0))
          then _get_cell table_data ar 1
          else _get_cell table_data ar 0 in
        match agent_cell with
        | Some c => if truthy c then Some (strip c) else None
        | None => None
        end
    | None => None
    end in
  if opt_truthy name then named_agent name
  else
    match sheet_name with
    | Some n => if truthy n then named_agent (Some (n ++ single_suffix))
                else named_agent (Some unnamed_agent)
    | None => named_agent (Some unnamed_agent)
    end.

Definition _parse_single_table (table_data : sheet) (route_text : str)
    (sheet_name : option str) : list QuoteBlock :=
  if Nat.ltb (length table_data) 2 then []
  else
    match resolve_base_route route_text sheet_name with
    | None => []
    | Some base_route =>
        match _identify_structure table_data with
        | None => []
        | Some st =>
            if is_single_column table_data st then
              let agent := single_agent table_data st sheet_name in
              if opt_truthy (r_origin base_route) &&
                 opt_truthy (r_destination base_route)
              then [mkQuote base_route agent]
              else []
            else
              omap (fun col_idx =>
                      _extract_column_quote table_data col_idx st base_route
                        sheet_name)
                   (seq 1 (num_cols st - 1))
        end
    end.

(** The state of the loop of [parse_sheet]. *)
Record sheet_state := SheetState {
  all_quotes : list QuoteBlock;
  seen_routes : gset str;
  has_content_route : bool
}.

(** The body of the deduplication loop for one quote. *)
Definition add_quote (sheet_name : option str) (st : sheet_state)
    (quote : QuoteBlock) : sheet_state :=
  let route_signature := get_route_signature (route quote) in
  let content :=
    has_content_route st ||
    (opt_truthy (r_raw (route quote)) &&
     negb (bool_decide (r_raw (route quote) = sheet_name))) in
  if bool_decide (route_signature ∈ seen_routes st) then
    SheetState (all_quotes st) (seen_routes st) content
  else
    SheetState (all_quotes st ++ [quote])
               ({[route_signature]} ∪ seen_routes st) content.

(** The rows of a span, [sheet_data[start_row:end_row+1]]. *)
Definition span_rows (sheet_data : sheet) (b : span) : sheet :=
  let '(start_row, end_row, _) := b in
  take (end_row + 1 - start_row) (drop start_row sheet_data).

Definition span_quotes (sheet_data : sheet) (sheet_name : option str)
    (b : span) : list QuoteBlock :=
  _parse_single_table (span_rows sheet_data b) (snd b) sheet_name.

(** The quotes of all the spans of a sheet, in the order in which the loop
    of [parse_sheet] meets them. *)
Definition table_quotes (sheet_data : sheet) (sheet_name : option str)
    : list QuoteBlock :=
  concat (map (span_quotes sheet_data sheet_name)
              (_find_table_boundaries sheet_data)).

Definition process_span (sheet_data : sheet) (sheet_name : option str)
    (st : sheet_state) (b : span) : sheet_state :=
  foldl (add_quote sheet_name) st (span_quotes sheet_data sheet_name b).

(** The quote made from the sheet name when the content gave none. *)
Definition sheet_name_quote (sheet_name : option str) (st : sheet_state)
    : list QuoteBlock :=
  match sheet_name with
  | Some n =>
      if bool_decide (all_quotes st = []) && negb (has_content_route st) &&
         truthy n then
        let sheet_route := _extract_route_from_text n sheet_name in
        if opt_truthy (r_origin sheet_route) &&
           opt_truthy (r_destination sheet_route)
        then [mkQuote sheet_route (named_agent (Some (n ++ sheet_suffix)))]
        else []
      else []
  | None => []
  end.

(** The dates written on every kept quote.  [dates] is what the date
    collaborator returned for the file name, if there is a file name and a
    collaborator. *)
Definition stamp (dates : option (str * str)) (q : QuoteBlock) : QuoteBlock :=
  match dates with
  | Some (start_date, end_date) =>
      if truthy start_date && truthy end_date then
        let r := route q in
        mkQuote
          (mkRoute (r_origin r) (r_destination r) (r_via r)
                   (r_trade_remark r) (Some start_date) (Some end_date)
                   (r_actual_weight r) (r_charge_weight r) (r_volume r)
                   (r_value r) (r_raw r) (r_sheet_name r))
          (agent q)
      else q
  | None => q
  end.

Definition parse_sheet (sheet_data : sheet) (sheet_name : option str)
    (dates : option (str * str)) : list QuoteBlock :=
  match sheet_data with
  | [] => []
  | _ =>
      let st :=
        foldl (process_span sheet_data sheet_name)
              (SheetState [] ∅ false) (_find_table_boundaries sheet_data) in
      map (stamp dates) (all_quotes st ++ sheet_name_quote sheet_name st)
  end.

End HorizontalTableParser.
Import HorizontalTableParser.

(* ===================================================================== *)
(** ** scripts/dryrun_horizontal_parser.py: routes and agents of a run *)
(* ===================================================================== *)

Module Runner.

(** A record of the [routes] list: 路线ID, 起始地, 目的地, 途径地,
    交易开始日期, 交易结束日期, 实际重量(/kg), 计费重量(/kg), 总体积(/cbm),
    货值. *)
Record route_record := RouteRecord {
  rr_id : nat;
  rr_origin : option str;
  rr_destination : option str;
  rr_via : option str;
  rr_start_date : option str;
  rr_end_date : option str;
  rr_actual_weight : option str;
  rr_charge_weight : option str;
  rr_volume : option str;
  rr_value : option str
}.

(** A record of the [route_agents] list: 代理路线ID, 路线ID and the fields
    of the agent. *)
Record agent_record := AgentRecord {
  ar_id : nat;
  ar_route_id : nat;
  ar_agent : Agent
}.

(** What the sheet scanner found for a sheet: 实际重量, 计费重量, 总体积,
    货值. *)
Record goods_info := GoodsInfo {
  g_actual_weight : option str;
  g_charge_weight : option str;
  g_volume : option str;
  g_value : option str
}.

(** The runner, as far as routes and agents go: the lists of goods, fees
    and summaries only receive the identifiers computed here. *)
Record runner := mkRunner {
  routes : list route_record;
  route_agents : list agent_record;
  route_id : nat;
  agent_route_id : nat;
  route_key_to_id : gmap str nat
}.

Definition init : runner := mkRunner [] [] 1 1 ∅.

(** [route_dict[k]] filled from the scan when it is missing. *)
Definition fill (own scanned : option str) : option str :=
  match own with
  | Some _ => own
  | None => scanned
  end.

(** [route_dict] after the values of the sheet scan were added. *)
Definition route_dict (r : Route) (info : option goods_info) : Route :=
  match info with
  | Some g =>
      mkRoute (r_origin r) (r_destination r) (r_via r) (r_trade_remark r)
              (r_start_date r) (r_end_date r)
              (fill (r_actual_weight r) (g_actual_weight g))
              (fill (r_charge_weight r) (g_charge_weight g))
              (fill (r_volume r) (g_volume g))
              (fill (r_value r) (g_value g))
              (r_raw r) (r_sheet_name r)
  | None => r
  end.

Definition record_of (id : nat) (d : Route) : route_record :=
  RouteRecord id (r_origin d) (r_destination d) (r_via d) (r_start_date d)
              (r_end_date d) (r_actual_weight d) (r_charge_weight d)
              (r_volume d) (r_value d).

(** [_add_route]: the new state and the identifier returned. *)
Definition _add_route (st : runner) (d : Route) : runner * nat :=
  (mkRunner (routes st ++ [record_of (route_id st) d]) (route_agents st)
            (S (route_id st)) (agent_route_id st) (route_key_to_id st),
   route_id st).

(** [_add_route_agent]. *)
Definition _add_route_agent (st : runner) (a : Agent) (rid : nat)
    : runner * nat :=
  (mkRunner (routes st)
            (route_agents st ++ [AgentRecord (agent_route_id st) rid a])
            (route_id st) (S (agent_route_id st)) (route_key_to_id st),
   agent_route_id st).

Definition remember (st : runner) (route_key : str) (rid : nat) : runner :=
  mkRunner (routes st) (route_agents st) (route_id st) (agent_route_id st)
           (<[route_key := rid]> (route_key_to_id st)).

(** [_process_quote_block].  Between the two steps below the source fills
    the goods lists, which are not carried here; the steps themselves catch
    their own exceptions. *)
Definition _process_quote_block (info : option goods_info) (st : runner)
    (quote_block : QuoteBlock) : runner :=
  let d := route_dict (route quote_block) info in
  let route_key := get_unique_key (route quote_block) in
  match route_key_to_id st !! route_key with
  | Some current_route_id =>
      fst (_add_route_agent st (agent quote_block) current_route_id)
  | None =>
      let '(st1, current_route_id) := _add_route st d in
      if Nat.eqb current_route_id 0 then st1
      else
        fst (_add_route_agent (remember st1 route_key current_route_id)
                              (agent quote_block) current_route_id)
  end.

(** A sheet as the runner receives it, with what the sheet scanner
    returned for it.  A sheet whose scan raises is skipped by the runner as
    a whole; such a sheet is not in the list of its file. *)
Record sheet_input := SheetInput {
  si_name : str;
  si_rows : sheet;
  si_goods : option goods_info
}.

(** A file: the dates read from its name and its sheets in order. *)
Record file_input := FileInput {
  fi_dates : option (str * str);
  fi_sheets : list sheet_input
}.

Definition _process_sheet (dates : option (str * str)) (st : runner)
    (s : sheet_input) : runner :=
  foldl (_process_quote_block (si_goods s)) st
        (parse_sheet (si_rows s) (Some (si_name s)) dates).

Definition start_file (st : runner) : runner :=
  mkRunner (routes st) (route_agents st) (route_id st) (agent_route_id st) ∅.

Definition _process_file (st : runner) (f : file_input) : runner :=
  foldl (_process_sheet (fi_dates f)) (start_file st) (fi_sheets f).

Definition run (files : list file_input) : runner :=
  foldl _process_file init files.

End Runner.

Import Runner.

(* ===================================================================== *)
(** ** Inputs used in the examples *)
(* ===================================================================== *)

Module Inputs.

Definition shenzhen : str := Eval vm_compute in u "深圳".
Definition hongkong : str := Eval vm_compute in u "香港".
Definition singapore : str := Eval vm_compute in u "新加坡".
Definition order1 : str := Eval vm_compute in u "订单1".

(** A header with the full-width hyphen, which is in [route_separators]
    and not in [route_pattern]. *)
Definition wide_hyphen_header : str :=
  Eval vm_compute in u "深圳－香港－新加坡".

(** One table, one route header, three agents in columns 1, 2 and 3. *)
Definition three_agents_sheet : sheet := Eval vm_compute in map (map u) [
  ["深圳-香港"];
  ["代理商"; "甲公司"; "乙公司"; "丙公司"];
  ["运费"; "10/kg"; "11/kg"; "12/kg"]
]%string.

Definition three_agents_span : span :=
  Eval vm_compute in (0, 2, u "深圳-香港").

Definition agents_abc : list (option str) := Eval vm_compute in
  map (fun s => Some (u s)) ["甲公司"; "乙公司"; "丙公司"]%string.

(** A table between two places that are not in the reference set, in a
    sheet named after a place. *)
Definition unknown_places_sheet : sheet := Eval vm_compute in map (map u) [
  ["喀什-比什凯克"];
  ["代理商"; "甲公司"; "乙公司"]
]%string.

(** A handover header followed by a row that lists no agent. *)
Definition handover_sheet : sheet := Eval vm_compute in map (map u) [
  ["货交深圳-香港："];
  ["运费"]
]%string.

(** A colon header followed by an agent row. *)
Definition colon_sheet : sheet := Eval vm_compute in map (map u) [
  ["深圳-泰国："];
  ["代理商"; "甲公司"]
]%string.

(** Two tables whose destinations are two spellings of one place. *)
Definition two_spellings_sheet : sheet := Eval vm_compute in map (map u) [
  ["深圳-马来西亚"];
  ["代理商"; "甲公司"];
  ["深圳-马来"];
  ["代理商"; "乙公司"]
]%string.

Definition route_of (o d : str) (sheet_name : option str) : Route :=
  mkRoute (Some o) (Some d) None None None None None None None None None
          sheet_name.

Definition agent_names (qs : list QuoteBlock) : list (option str) :=
  map (fun q => a_name (agent q)) qs.

Definition route_ends (qs : list QuoteBlock) : list (option str * option str) :=
  map (fun q => (r_origin (route q), r_destination (route q))) qs.

End Inputs.
Import Inputs.

(* ===================================================================== *)
(** ** Notions used in the statements *)
(* ===================================================================== *)

Module Notions.

(** A text with no blank at its start, and with none at its end. *)
Definition starts_clean (s : str) : bool :=
  match s with
  | [] => true
  | c :: _ => negb (is_space c)
  end.

Definition ends_clean (s : str) : bool :=
  match last s with
  | Some c => negb (is_space c)
  | None => true
  end.


(** What has to hold of a replacement rule for the length argument: the
    standard name is shorter than the full name, not empty, and has no
    blank at either end. *)
Definition rule_ok (rule : str * str) : bool :=
  Nat.ltb (length (snd rule)) (length (fst rule)) &&
  truthy (snd rule) && starts_clean (snd rule) && ends_clean (snd rule).

(** Position [i] holds the first occurrence of its key. *)
Definition is_first (keys : list str) (i : nat) : bool :=
  match keys !! i with
  | Some k => negb (bool_decide (k ∈ take i keys))
  | None => false
  end.

(** The positions of the first occurrences, in increasing order. *)
Definition first_positions (keys : list str) : list nat :=
  filter (fun i => is_first keys i = true) (seq 0 (length keys)).

(** The elements at the given positions. *)
Definition at_positions {A} (l : list A) (ps : list nat) : list A :=
  omap (fun i => l !! i) ps.

(** The first occurrences of a list under a key, in order. *)
Definition first_occurrences {A} (key : A -> str) (l : list A) : list A :=
  at_positions l (first_positions (key <$> l)).

(** The merge signature of a quote and the canonical forms it is made
    of. *)
Definition signature (q : QuoteBlock) : str :=
  get_route_signature (route q).

Definition canonical_via (r : Route) : option str :=
  if opt_truthy (r_via r) then normalize_opt (r_via r) else None.

Definition same_canonical (r1 r2 : Route) : Prop :=
  normalize_opt (r_origin r1) = normalize_opt (r_origin r2) ∧
  normalize_opt (r_destination r1) = normalize_opt (r_destination r2) ∧
  canonical_via r1 = canonical_via r2.

(** The raw key of a quote of a file, and the quotes of a file in the
    order in which the runner meets them, each with the scan of its
    sheet. *)
Definition raw_key (gq : option goods_info * QuoteBlock) : str :=
  get_unique_key (route (snd gq)).

Definition sheet_stream (dates : option (str * str)) (s : sheet_input)
    : list (option goods_info * QuoteBlock) :=
  (fun q => (si_goods s, q)) <$>
    parse_sheet (si_rows s) (Some (si_name s)) dates.

Definition file_stream (f : file_input)
    : list (option goods_info * QuoteBlock) :=
  concat (sheet_stream (fi_dates f) <$> fi_sheets f).

Definition step (st : runner) (gq : option goods_info * QuoteBlock) : runner :=
  _process_quote_block (fst gq) st (snd gq).

(** The route record made for a quote that brings a new raw key. *)
Definition new_record (first_id : nat) (i : nat)
    (gq : option goods_info * QuoteBlock) : route_record :=
  record_of (first_id + i) (route_dict (route (snd gq)) (fst gq)).

(** The first rows of a list of spans. *)
Definition span_starts (bs : list span) : list nat :=
  (fun b => fst (fst b)) <$> bs.

(** The first rows of the spans of a scan in progress, the open one
    included. *)
Definition state_starts (st : scan_state) : list nat :=
  span_starts (boundaries st) ++
  match current st with
  | Some (current_start, _) => [current_start]
  | None => []
  end.

(** The scan takes the row as the header of a new table. *)
Definition row_opens (sheet_data : sheet) (row_idx : nat) (r : row) : bool :=
  match scanned_cell r with
  | Some first_cell => is_valid_title sheet_data row_idx first_cell
  | None => false
  end.

Fixpoint opening_rows (sheet_data : sheet) (row_idx : nat) (rows : list row)
    : list nat :=
  match rows with
  | [] => []
  | r :: rows' =>
      (if row_opens sheet_data row_idx r then [row_idx] else []) ++
      opening_rows sheet_data (S row_idx) rows'
  end.

(** The state of the runner is consistent: the identifiers of the routes
    are 1, 2, ... in order, the counter is the next one, and the agents and
    the key table only mention identifiers of routes of the list. *)
Definition consistent (st : runner) : Prop :=
  rr_id <$> routes st = seq 1 (length (routes st)) ∧
  route_id st = S (length (routes st)) ∧
  (∀ a, a ∈ route_agents st →
        1 ≤ ar_route_id a ∧ ar_route_id a ≤ length (routes st)) ∧
  (∀ k id, route_key_to_id st !! k = Some id →
           1 ≤ id ∧ id ≤ length (routes st)).

End Notions.
Import Notions.

(* ===================================================================== *)
(** ** Shapes of texts and of span lists *)
(* ===================================================================== *)

Module Shapes.

(** No character of the class at the start, at the end, anywhere. *)
Definition starts_off (p : N -> bool) (s : str) : bool :=
  match s with
  | [] => true
  | c :: _ => negb (p c)
  end.

Definition ends_off (p : N -> bool) (s : str) : bool :=
  match last s with
  | Some c => negb (p c)
  | None => true
  end.

Definition free_of (p : N -> bool) (s : str) : bool :=
  forallb (fun c => negb (p c)) s.

(** What the closed tables of place names satisfy: no edge character at
    either end and no cut character anywhere. *)
Definition tidy (s : str) : bool :=
  starts_off (char_in edge_chars) s && ends_off (char_in edge_chars) s &&
  free_of (char_in cut_chars) s.

(** None of the first three renderings of the raw key of a route contains
    the bar that separates them. *)
Definition bar_free (r : Route) : bool :=
  free_of (char_in bar) (fmt (r_origin r)) &&
  free_of (char_in bar) (fmt (r_destination r)) &&
  free_of (char_in bar) (fmt (r_via r)).

(** The spans of a scan in progress when it is closed before row
    [row_idx]: the open span ends on the row before. *)
Definition closed_at (st : scan_state) (row_idx : nat) : list span :=
  match current st with
  | Some (current_start, current_route_text) =>
      boundaries st ++ [(current_start, row_idx - 1, current_route_text)]
  | None => boundaries st
  end.

(** The spans follow one another up to row [n]: none is empty, each one
    ends on the row before the start of the next, and the last one ends on
    row [n - 1]. *)
Fixpoint tiles (bs : list span) (n : nat) : Prop :=
  match bs with
  | [] => True
  | b :: rest =>
      fst (fst b) ≤ snd (fst b) ∧
      S (snd (fst b)) = match rest with
                        | [] => n
                        | b' :: _ => fst (fst b')
                        end ∧
      tiles rest n
  end.

(** The span starts on a row whose first cell is not empty, and its text
    is that cell, trimmed. *)
Definition headed (sheet_data : sheet) (b : span) : Prop :=
  ∃ c rest, sheet_data !! fst (fst b) = Some (c :: rest) ∧ c ≠ [] ∧
            snd b = strip c.

(** What holds of a scan in progress once the rows before [row_idx] have
    been scanned. *)
Definition scan_inv (sheet_data : sheet) (st : scan_state) (row_idx : nat)
    : Prop :=
  tiles (closed_at st row_idx) row_idx ∧
  (∀ cs t, current st = Some (cs, t) → cs < row_idx) ∧
  (current st = None → boundaries st = []) ∧
  (∀ b, b ∈ closed_at st row_idx → headed sheet_data b).

(** The position, among the first occurrences of the raw keys of a stream,
    of the quote that brought the key. *)
Definition key_index (l : list (option goods_info * QuoteBlock)) (k : str)
    : nat :=
  default 0 (fst <$> list_find (fun gq => raw_key gq = k)
                               (first_occurrences raw_key l)).

(** The agent record made for the quote at position [i] of the stream
    [l]: its route is the one made for the first quote of the stream with
    the same raw key. *)
Definition new_agent_record (first_id first_route_id : nat)
    (l : list (option goods_info * QuoteBlock)) (i : nat)
    (gq : option goods_info * QuoteBlock) : agent_record :=
  AgentRecord (first_id + i) (first_route_id + key_index l (raw_key gq))
              (agent (snd gq)).

End Shapes.
Import Shapes.

(* ===================================================================== *)
(** ** Route extraction: order of the three places *)
(* ===================================================================== *)

(** On the pattern path the second place is the via and the third the
    destination. *)
Lemma _extract_route_parts_three (text : str) (m : rmatch_result) (a b c : str) :
  re_search RouteExtractor.route_pattern text = Some m →
  m_group m 1 = Some a → m_group m 3 = Some b → m_group m 5 = Some c →
  is_valid_location (_deep_clean_location a) = true →
  is_valid_location (_deep_clean_location c) = true →
  ∃ rp, _extract_route_parts text = Some rp ∧
        rp_origin rp = _deep_clean_location a ∧
        rp_destination rp = _deep_clean_location c ∧
        (rp_via rp = Some (_deep_clean_location b) ∨ rp_via rp = None).
Proof.
  intros Hm H1 H3 H5 Ha Hc. unfold _extract_route_parts.
  rewrite Hm, H1, H3, H5. simpl. rewrite Ha, Hc. simpl.
  assert (Ht : ∀ s, is_valid_location s = true → truthy s = true).
  { intros s. unfold is_valid_location. by destruct (truthy s). }
  rewrite (Ht _ Ha), (Ht _ Hc). simpl.
  eexists. split; [reflexivity|]. simpl. repeat split.
  destruct (truthy (_deep_clean_location b) &&
            negb (is_valid_location (_deep_clean_location b))); auto.
Qed.

(** On the separator path the second valid part is the destination and the
    third the via, whatever the text. *)
Lemma split_on_order (text sep : str) (rp : route_parts) :
  split_on text sep = Some rp →
  ∃ rest, valid_parts text sep = rp_origin rp :: rp_destination rp :: rest ∧
          rp_via rp = head rest.
Proof.
  unfold split_on. intros H.
  destruct (str_in sep text); [|done].
  destruct (Nat.leb 2 (length (split text sep))); [|done].
  destruct (valid_parts text sep) as [|o [|d rest]]; try done.
  injection H as <-. by exists rest.
Qed.

(** The two headers of the specification's first scenarios, on the
    pattern path. *)
Example extract_route_two_places :
  origin (extract_route (u "深圳-香港") None) = Some shenzhen ∧
  destination (extract_route (u "深圳-香港") None) = Some hongkong ∧
  via (extract_route (u "深圳-香港") None) = None.
Proof. vm_compute. done. Qed.

Example extract_route_three_places :
  origin (extract_route (u "国内-新加坡-英国 空运") None) = Some (u "国内") ∧
  via (extract_route (u "国内-新加坡-英国 空运") None) = Some singapore ∧
  destination (extract_route (u "国内-新加坡-英国 空运") None)
  = Some (u "英国").
Proof. vm_compute. done. Qed.

(** C1 (defect of the code).  The header 深圳－香港－新加坡 has the form
    A-sep-B-sep-C with three valid places; the pattern does not match it,
    the separator split handles it and returns origin 深圳, destination
    香港 (the middle place) and via 新加坡 (the last place), where the
    specification and the pattern path have via 香港 and destination
    新加坡. *)
Theorem C1_manual_split_middle_is_destination :
  is_valid_location shenzhen = true ∧ is_valid_location hongkong = true ∧
  is_valid_location singapore = true ∧
  re_search RouteExtractor.route_pattern wide_hyphen_header = None ∧
  origin (extract_route wide_hyphen_header None) = Some shenzhen ∧
  destination (extract_route wide_hyphen_header None) = Some hongkong ∧
  via (extract_route wide_hyphen_header None) = Some singapore.
Proof. vm_compute. done. Qed.

(* ===================================================================== *)
(** ** The reference set *)
(* ===================================================================== *)

Lemma str_in_empty (s : str) : str_in [] s = true.
Proof. by destruct s. Qed.

(** A text that is not empty but blank is accepted: the emptiness test
    comes before the trimming, and the empty text is inside every entry. *)
Lemma is_valid_location_blank (s : str) :
  s ≠ [] → strip s = [] → is_valid_location s = true.
Proof.
  intros Hs Hb. unfold is_valid_location.
  destruct s as [|c s]; [done|]. simpl negb. cbv iota.
  rewrite Hb. destruct (existsb (str_eqb []) LOCATION_WHITELIST); [done|].
  apply existsb_exists. exists shenzhen. split.
  - by left.
  - by rewrite (str_in_empty shenzhen), orb_true_r.
Qed.

(** For every text, what [is_valid_location] computes: the text is not
    empty and its trimmed form equals, contains or is contained in an
    entry.  The trimmed form itself may be empty. *)
Lemma is_valid_location_iff (s : str) :
  is_valid_location s = true ↔
  s ≠ [] ∧
  ∃ e, In e LOCATION_WHITELIST ∧
       (strip s = e ∨ str_in e (strip s) = true ∨ str_in (strip s) e = true).
Proof.
  unfold is_valid_location. destruct s as [|c s].
  { split; [done|]. by intros [? _]. }
  cbn [truthy negb]. cbv zeta. set (t := strip (c :: s)). split.
  - intros H. split; [done|].
    destruct (existsb (str_eqb t) LOCATION_WHITELIST) eqn:He.
    + apply existsb_exists in He as (e & Hin & Heq).
      apply bool_decide_eq_true in Heq. eauto.
    + apply existsb_exists in H as (e & Hin & Hor).
      apply orb_true_iff in Hor. exists e. tauto.
  - intros (_ & e & Hin & Hcase).
    destruct (existsb (str_eqb t) LOCATION_WHITELIST) eqn:He; [done|].
    apply existsb_exists.
    destruct Hcase as [Heq | Hsub].
    + exfalso. assert (existsb (str_eqb t) LOCATION_WHITELIST = true);
        [|congruence].
      apply existsb_exists. exists e. split; [done|].
      by apply bool_decide_eq_true.
    + exists e. split; [done|]. apply orb_true_iff. tauto.
Qed.

(** C8 (defect of the code).  A single space is empty after trimming, and
    [is_valid_location] returns true for it, where the specification has
    false for every text that is empty after trimming. *)
Theorem C8_blank_text_is_accepted :
  strip [32%N] = [] ∧ is_valid_location [32%N] = true.
Proof. vm_compute. done. Qed.

(* ===================================================================== *)
(** ** Partial routes *)
(* ===================================================================== *)

(** The single-quote path gives up a route with only one end. *)
Lemma single_quote_path_drops_partial (table_data : sheet) (route_text : str)
    (sheet_name : option str) (base_route : Route) (st : structure) :
  resolve_base_route route_text sheet_name = Some base_route →
  _identify_structure table_data = Some st →
  is_single_column table_data st = true →
  opt_truthy (r_origin base_route) && opt_truthy (r_destination base_route)
    = false →
  _parse_single_table table_data route_text sheet_name = [].
Proof.
  intros Hb Hs Hc Hp. unfold _parse_single_table.
  destruct (Nat.ltb (length table_data) 2); [done|].
  by rewrite Hb, Hs, Hc, Hp.
Qed.

(** C3 (defect of the code).  For the span of [unknown_places_sheet] in a
    sheet named 深圳 only the origin is resolved (from the sheet name); the
    table has two agent columns, and a quote with no destination is emitted
    for each of them, one of which [parse_sheet] returns, where the
    specification has no quote for a route with one end only. *)
Theorem C3_partial_route_kept_on_column_path :
  _find_table_boundaries unknown_places_sheet
    = [(0, 1, default [] (head (default [] (head unknown_places_sheet))))] ∧
  route_ends (table_quotes unknown_places_sheet (Some shenzhen))
    = [(Some shenzhen, None); (Some shenzhen, None)] ∧
  route_ends (parse_sheet unknown_places_sheet (Some shenzhen) None)
    = [(Some shenzhen, None)].
Proof. vm_compute. done. Qed.

(* ===================================================================== *)
(** ** Raw keys *)
(* ===================================================================== *)





(* ===================================================================== *)
(** ** Results that are too short *)
(* ===================================================================== *)

(** C7 (counterexample).  The rounds of the deep cleaning leave nothing of
    海运深圳, and the function does not return the original text: it
    returns the place name 深圳 found in it. *)
Lemma C7_deep_clean_returns_core_place :
  deep_clean_rounds (u "海运深圳") = [] ∧
  _deep_clean_location (u "海运深圳") = shenzhen ∧
  _deep_clean_location (u "海运深圳") ≠ u "海运深圳".
Proof. vm_compute. repeat split. discriminate. Qed.

Lemma ltb_of_lt (a b : nat) : a < b → Nat.ltb a b = true.
Proof. apply Nat.ltb_lt. Qed.

Lemma truthy_ne (s : str) : s ≠ [] → truthy s = true.
Proof. by destruct s. Qed.

(** C7 (amended).  When the suffix cleaning leaves fewer than 2 characters,
    [_clean_location_suffix] returns the original text unchanged.  When the
    rounds of [_deep_clean_location] leave fewer than 2 characters of a
    non-empty text, it returns the first core place name that occurs in the
    original text, and the short result itself when there is none. *)
Theorem C7_short_results (location : str) :
  (length (suffix_rounds location) < 2 →
   _clean_location_suffix location = location) ∧
  (location ≠ [] → length (deep_clean_rounds location) < 2 →
   _deep_clean_location location
   = default (deep_clean_rounds location) (core_location location)).
Proof.
  split.
  - intros Hlen. unfold _clean_location_suffix. cbv zeta.
    rewrite (ltb_of_lt _ _ Hlen).
    destruct (negb (truthy location)); exact eq_refl.
  - intros Hne Hlen. unfold _deep_clean_location. cbv zeta.
    rewrite (ltb_of_lt _ _ Hlen), orb_true_r, (truthy_ne _ Hne).
    destruct (core_location location); cbn [negb default from_option id];
      exact eq_refl.
Qed.

Lemma C7_short_results_witness :
  _clean_location_suffix (u "的") = u "的" ∧
  _deep_clean_location (u "海运深圳") = shenzhen.
Proof.
  split.
  - apply (proj1 (C7_short_results (u "的"))). vm_compute. lia.
  - refine (proj2 (C7_short_results (u "海运深圳")) _ _).
    + vm_compute. discriminate.
    + vm_compute. lia.
Defined.

(* ===================================================================== *)
(** ** Facts about the string operations *)
(* ===================================================================== *)

Lemma startswith_length (s p : str) :
  startswith s p = true → length p ≤ length s.
Proof.
  revert s. induction p as [|a p IH]; intros [|b s] H; cbn in *;
    try lia; try discriminate.
  apply andb_true_iff in H as [_ H]. apply IH in H. lia.
Qed.

Lemma str_in_cons (sub : str) (c : N) (s : str) :
  str_in sub (c :: s) = startswith (c :: s) sub || str_in sub s.
Proof. reflexivity. Qed.

Lemma str_in_nil (sub : str) : sub ≠ [] → str_in sub [] = false.
Proof. by destruct sub. Qed.

Lemma replace_go_cons0 (old new : str) (c : N) (s : str) :
  replace_go old new 0 (c :: s)
  = if startswith (c :: s) old
    then new ++ replace_go old new (length old - 1) s
    else c :: replace_go old new 0 s.
Proof. reflexivity. Qed.

Lemma replace_go_consS (old new : str) (k : nat) (c : N) (s : str) :
  replace_go old new (S k) (c :: s) = replace_go old new k s.
Proof. reflexivity. Qed.

(** Replacing by a text that is not longer does not lengthen. *)
Lemma replace_go_le (old new : str) :
  length new ≤ length old →
  ∀ s k, k ≤ length s → length (replace_go old new k s) + k ≤ length s.
Proof.
  intros Hn. induction s as [|c s IH]; intros k Hk.
  - cbn in *. lia.
  - destruct k as [|k].
    + rewrite replace_go_cons0.
      destruct (startswith (c :: s) old) eqn:Hs.
      * apply startswith_length in Hs. cbn [length] in *.
        rewrite length_app. specialize (IH (length old - 1)). lia.
      * cbn [length]. specialize (IH 0). lia.
    + rewrite replace_go_consS. cbn [length] in *. specialize (IH k). lia.
Qed.

(** Replacing by a shorter text shortens as soon as there is an
    occurrence. *)
Lemma replace_go_lt (old new : str) :
  length new < length old →
  ∀ s k, k ≤ length s → str_in old (drop k s) = true →
         length (replace_go old new k s) + k < length s.
Proof.
  intros Hn. induction s as [|c s IH]; intros k Hk Hin.
  - rewrite drop_nil, str_in_nil in Hin; [discriminate|].
    intros ->. cbn in Hn. lia.
  - destruct k as [|k].
    + rewrite replace_go_cons0. rewrite drop_0, str_in_cons in Hin.
      destruct (startswith (c :: s) old) eqn:Hs.
      * apply startswith_length in Hs. cbn [length] in *.
        rewrite length_app.
        pose proof (replace_go_le old new ltac:(lia) s (length old - 1)
                      ltac:(lia)). lia.
      * cbn [orb] in Hin. cbn [length]. specialize (IH 0). 
        rewrite drop_0 in IH. specialize (IH ltac:(lia) Hin). lia.
    + rewrite replace_go_consS. cbn [length drop] in *.
      specialize (IH k ltac:(lia) Hin). lia.
Qed.

Lemma replace_le (s old new : str) :
  length new ≤ length old → length (replace s old new) ≤ length s.
Proof.
  intros Hn. pose proof (replace_go_le old new Hn s 0 ltac:(lia)).
  unfold replace. lia.
Qed.

Lemma replace_lt (s old new : str) :
  length new < length old → str_in old s = true →
  length (replace s old new) < length s.
Proof.
  intros Hn Hin.
  pose proof (replace_go_lt old new Hn s 0 ltac:(lia)) as H.
  rewrite drop_0 in H. specialize (H Hin). unfold replace. lia.
Qed.

(** *** Blanks at the ends *)

Lemma ends_clean_cons (c : N) (s : str) :
  s ≠ [] → ends_clean (c :: s) = ends_clean s.
Proof. destruct s; [done|]. intros _. unfold ends_clean. by rewrite last_cons_cons. Qed.

Lemma lstrip_by_fixed (s : str) : starts_clean s = true → lstrip_by is_space s = s.
Proof.
  destruct s as [|c s]; [done|]. cbn. by destruct (is_space c).
Qed.

Lemma rstrip_by_fixed (s : str) : ends_clean s = true → rstrip_by is_space s = s.
Proof.
  induction s as [|c s IH]; [done|]. intros H.
  destruct s as [|c' s].
  - unfold ends_clean in H. cbn in H. cbn. by destruct (is_space c).
  - rewrite ends_clean_cons in H by done.
    cbn [rstrip_by] in *. by rewrite (IH H).
Qed.

Lemma strip_fixed (s : str) :
  starts_clean s = true → ends_clean s = true → strip s = s.
Proof.
  intros H1 H2. unfold strip, strip_by.
  by rewrite lstrip_by_fixed, rstrip_by_fixed.
Qed.

Lemma lstrip_by_starts_clean (s : str) : starts_clean (lstrip_by is_space s) = true.
Proof.
  induction s as [|c s IH]; [done|]. cbn [lstrip_by].
  destruct (is_space c) eqn:Hc; [done|]. cbn. by rewrite Hc.
Qed.

Lemma rstrip_by_ends_clean (s : str) : ends_clean (rstrip_by is_space s) = true.
Proof.
  induction s as [|c s IH]; [done|]. cbn [rstrip_by].
  destruct (rstrip_by is_space s) as [|c' r] eqn:Hr.
  - destruct (is_space c) eqn:Hc; [done|]. unfold ends_clean. cbn. by rewrite Hc.
  - by rewrite ends_clean_cons.
Qed.

Lemma rstrip_by_starts_clean (s : str) :
  starts_clean s = true → starts_clean (rstrip_by is_space s) = true.
Proof.
  destruct s as [|c s]; [done|]. cbn [rstrip_by]. intros H.
  destruct (rstrip_by is_space s); [by destruct (is_space c)|done].
Qed.

Lemma strip_clean (s : str) :
  starts_clean (strip s) = true ∧ ends_clean (strip s) = true.
Proof.
  unfold strip, strip_by. split.
  - apply rstrip_by_starts_clean, lstrip_by_starts_clean.
  - apply rstrip_by_ends_clean.
Qed.

Lemma replace_go_nonempty (old new s : str) :
  new ≠ [] → s ≠ [] → replace_go old new 0 s ≠ [].
Proof.
  intros Hn Hs. destruct s as [|c s]; [done|]. rewrite replace_go_cons0.
  destruct (startswith (c :: s) old); [|done]. by destruct new.
Qed.

Lemma replace_starts_clean (s old new : str) :
  new ≠ [] → starts_clean new = true → starts_clean s = true →
  starts_clean (replace s old new) = true.
Proof.
  intros Hn Hc Hs. unfold replace. destruct s as [|c s]; [done|].
  rewrite replace_go_cons0. destruct (startswith (c :: s) old); [|done].
  by destruct new.
Qed.

Lemma ends_clean_app (a b : str) :
  ends_clean a = true → ends_clean b = true → ends_clean (a ++ b) = true.
Proof.
  intros Ha Hb. unfold ends_clean in *. rewrite last_app.
  by destruct (last b).
Qed.

Lemma replace_go_ends_clean (old new : str) :
  new ≠ [] → ends_clean new = true →
  ∀ s k, ends_clean s = true → ends_clean (replace_go old new k s) = true.
Proof.
  intros Hn Hc. induction s as [|c s IH]; intros k Hs; [done|].
  assert (Htail : ∀ k', ends_clean (replace_go old new k' s) = true).
  { intros k'. destruct s as [|c' s']; [done|].
    apply IH. by rewrite ends_clean_cons in Hs. }
  destruct k as [|k].
  - rewrite replace_go_cons0. destruct (startswith (c :: s) old).
    + by apply ends_clean_app.
    + destruct s as [|c' s']; [done|].
      rewrite ends_clean_cons; [apply Htail|].
      by apply replace_go_nonempty.
  - rewrite replace_go_consS. apply Htail.
Qed.

(* ===================================================================== *)
(** ** Normalization of place names *)
(* ===================================================================== *)

Lemma location_normalization_map_ok :
  forallb rule_ok location_normalization_map = true.
Proof. vm_compute. reflexivity. Qed.

Lemma rule_ok_elim (rule : str * str) :
  rule_ok rule = true →
  length (snd rule) < length (fst rule) ∧ snd rule ≠ [] ∧
  starts_clean (snd rule) = true ∧ ends_clean (snd rule) = true.
Proof.
  unfold rule_ok. rewrite !andb_true_iff, Nat.ltb_lt.
  intros [[[H1 H2] H3] H4]. repeat split; try done.
  intros E. by rewrite E in H2.
Qed.

Lemma apply_rules_cons (full_name standard_name : str)
    (rules : list (str * str)) (location : str) :
  apply_rules ((full_name, standard_name) :: rules) location
  = apply_rules rules
      (if str_in full_name location
       then replace location full_name standard_name else location).
Proof. reflexivity. Qed.

Lemma apply_rules_le (rules : list (str * str)) :
  forallb rule_ok rules = true →
  ∀ y, length (apply_rules rules y) ≤ length y.
Proof.
  induction rules as [|[full std] rules IH]; intros Hok y; [done|].
  cbn [forallb] in Hok. apply andb_true_iff in Hok as [Hr Hok].
  apply rule_ok_elim in Hr as (Hlt & _). cbn [fst snd] in Hlt.
  rewrite apply_rules_cons. etrans; [apply IH, Hok|].
  destruct (str_in full y); [|done]. apply replace_le. lia.
Qed.

(** A pass that does not shorten the text found no long name in it and left
    it as it was. *)
Lemma apply_rules_same_length (rules : list (str * str)) :
  forallb rule_ok rules = true →
  ∀ y, length y ≤ length (apply_rules rules y) →
       apply_rules rules y = y ∧
       forallb (fun rule => negb (str_in (fst rule) y)) rules = true.
Proof.
  induction rules as [|[full std] rules IH]; intros Hok y Hlen; [done|].
  cbn [forallb] in Hok. apply andb_true_iff in Hok as [Hr Hok].
  apply rule_ok_elim in Hr as (Hlt & _). cbn [fst snd] in Hlt.
  rewrite apply_rules_cons in *. cbn [forallb fst].
  destruct (str_in full y) eqn:Hin.
  - exfalso.
    pose proof (replace_lt y full std Hlt Hin).
    pose proof (apply_rules_le rules Hok (replace y full std)). lia.
  - destruct (IH Hok y Hlen) as [-> ->]. done.
Qed.


Lemma apply_rules_clean (rules : list (str * str)) :
  forallb rule_ok rules = true →
  ∀ y, starts_clean y = true → ends_clean y = true →
       starts_clean (apply_rules rules y) = true ∧
       ends_clean (apply_rules rules y) = true.
Proof.
  induction rules as [|[full std] rules IH]; intros Hok y H1 H2; [done|].
  cbn [forallb] in Hok. apply andb_true_iff in Hok as [Hr Hok].
  apply rule_ok_elim in Hr as (_ & Hne & Hs & He). cbn [fst snd] in *.
  rewrite apply_rules_cons. destruct (str_in full y); [|by apply IH].
  apply IH; [done| |].
  - by apply replace_starts_clean.
  - unfold replace. by apply replace_go_ends_clean.
Qed.

(** The result of [normalize_location] has no blank at its ends. *)
Lemma normalize_location_clean (x : str) :
  x ≠ [] →
  starts_clean (normalize_location x) = true ∧
  ends_clean (normalize_location x) = true.
Proof.
  intros Hx. unfold normalize_location. rewrite (truthy_ne _ Hx).
  cbn [negb]. apply apply_rules_clean.
  - apply location_normalization_map_ok.
  - apply strip_clean.
  - apply strip_clean.
Qed.

(** A second pass over a result gives the rules applied to that result. *)
Lemma normalize_location_twice (x : str) :
  normalize_location (normalize_location x)
  = apply_rules location_normalization_map (normalize_location x).
Proof.
  destruct (decide (x = [])) as [->|Hx].
  { reflexivity. }
  destruct (normalize_location_clean x Hx) as [H1 H2].
  destruct (normalize_location x) as [|c y] eqn:Hy.
  { reflexivity. }
  unfold normalize_location at 1. cbn [truthy negb].
  by rewrite strip_fixed.
Qed.




(* ===================================================================== *)
(** ** First occurrences *)
(* ===================================================================== *)

Lemma filter_ext_elem {B} (P1 P2 : B → Prop)
    `{!∀ x, Decision (P1 x), !∀ x, Decision (P2 x)} (l : list B) :
  (∀ x, x ∈ l → P1 x ↔ P2 x) → filter P1 l = filter P2 l.
Proof.
  induction l as [|a l IH]; intros Hl; [done|].
  rewrite !filter_cons.
  assert (Ha : P1 a ↔ P2 a) by (apply Hl; left).
  rewrite IH by (intros x Hx; apply Hl; by right).
  destruct (decide (P1 a)), (decide (P2 a)); tauto || done.
Qed.

Section FirstOccurrences.
Context {A : Type} (key : A → str).

Lemma is_first_app_l (l k : list str) (i : nat) :
  i < length l → is_first (l ++ k) i = is_first l i.
Proof.
  intros Hi. unfold is_first.
  rewrite lookup_app_l by done. by rewrite take_app_le by lia.
Qed.

Lemma is_first_length (l : list str) (k : str) :
  is_first (l ++ [k]) (length l) = negb (bool_decide (k ∈ l)).
Proof.
  unfold is_first. by rewrite list_lookup_middle, take_app_length.
Qed.

Lemma first_positions_lt (l : list str) (i : nat) :
  i ∈ first_positions l → i < length l.
Proof.
  unfold first_positions. rewrite list_elem_of_filter, elem_of_seq. lia.
Qed.

Lemma first_positions_snoc (l : list str) (k : str) :
  first_positions (l ++ [k])
  = first_positions l ++ (if bool_decide (k ∈ l) then [] else [length l]).
Proof.
  unfold first_positions. rewrite length_app. cbn [length].
  replace (length l + 1) with (S (length l)) by lia.
  rewrite seq_S, filter_app. cbn [Nat.add]. f_equal.
  - apply filter_ext_elem. intros i Hi.
    apply elem_of_seq in Hi. by rewrite is_first_app_l by lia.
  - rewrite filter_cons, filter_nil, is_first_length.
    destruct (bool_decide (k ∈ l)); by case_decide.
Qed.

Lemma at_positions_app_l (l k : list A) (ps : list nat) :
  (∀ i, i ∈ ps → i < length l) →
  at_positions (l ++ k) ps = at_positions l ps.
Proof.
  intros H. unfold at_positions. apply list_omap_ext.
  induction ps as [|i ps IH]; constructor.
  - rewrite lookup_app_l; [done|]. apply H. left.
  - apply IH. intros j Hj. apply H. by right.
Qed.

(** The first occurrences of a list with one more element. *)
Lemma first_occurrences_snoc (l : list A) (x : A) :
  first_occurrences key (l ++ [x])
  = first_occurrences key l ++
    (if bool_decide (key x ∈ key <$> l) then [] else [x]).
Proof.
  unfold first_occurrences. rewrite fmap_app. cbn [fmap list_fmap].
  rewrite first_positions_snoc. unfold at_positions at 1.
  rewrite omap_app. f_equal.
  - apply at_positions_app_l. intros i Hi.
    apply first_positions_lt in Hi. by rewrite length_fmap in Hi.
  - destruct (bool_decide (key x ∈ key <$> l)); [done|].
    cbn. by rewrite length_fmap, list_lookup_middle.
Qed.

Lemma first_occurrences_nil : first_occurrences key [] = [].
Proof. reflexivity. Qed.

(** A later occurrence of a key is not a first position. *)
Lemma later_not_first (keys : list str) (i j : nat) (k : str) :
  i < j → keys !! i = Some k → keys !! j = Some k →
  j ∉ first_positions keys.
Proof.
  intros Hij Hi Hj Hin. unfold first_positions in Hin.
  apply list_elem_of_filter in Hin as [Hf _]. unfold is_first in Hf.
  rewrite Hj in Hf. apply negb_true_iff, bool_decide_eq_false in Hf.
  apply Hf, elem_of_take. eauto.
Qed.

(** Every key that occurs has a first position, at or before any of its
    occurrences. *)
Lemma first_position_exists (keys : list str) (i : nat) (k : str) :
  keys !! i = Some k →
  ∃ p, p ≤ i ∧ keys !! p = Some k ∧ p ∈ first_positions keys.
Proof.
  induction i as [i IH] using lt_wf_ind. intros Hi.
  destruct (decide (k ∈ take i keys)) as [Hin|Hnin].
  - apply elem_of_take in Hin as (j & Hj & Hlt).
    destruct (IH j Hlt Hj) as (p & Hp & Hk & Hf).
    exists p. repeat split; [lia|done|done].
  - exists i. repeat split; [lia|done|].
    unfold first_positions. apply list_elem_of_filter. split.
    + unfold is_first. rewrite Hi. by rewrite bool_decide_eq_false_2.
    + apply elem_of_seq. apply lookup_lt_Some in Hi. lia.
Qed.

Lemma at_positions_lookup (l : list A) (ps : list nat) (p : nat) (x : A) :
  p ∈ ps → l !! p = Some x → x ∈ at_positions l ps.
Proof.
  intros Hp Hx. unfold at_positions. apply list_elem_of_omap. eauto.
Qed.

Lemma first_occurrences_nonempty (l : list A) :
  l ≠ [] → first_occurrences key l ≠ [].
Proof.
  destruct l as [|x l]; [done|]. intros _ E.
  destruct (first_position_exists (key <$> (x :: l)) 0 (key x))
    as (p & Hp & Hk & Hf); [done|].
  apply list_lookup_fmap_Some in Hk as (y & _ & Hy).
  pose proof (at_positions_lookup _ _ _ _ Hf Hy) as Hin.
  unfold first_occurrences in E. rewrite E in Hin.
  by apply elem_of_nil in Hin.
Qed.

Lemma first_occurrences_elem (l : list A) (x : A) :
  x ∈ first_occurrences key l → x ∈ l.
Proof.
  unfold first_occurrences, at_positions. rewrite list_elem_of_omap.
  intros (i & _ & Hi). by apply list_elem_of_lookup_2 in Hi.
Qed.

(** The first occurrences have pairwise different keys. *)
Lemma first_occurrences_NoDup (l : list A) :
  NoDup (key <$> first_occurrences key l).
Proof.
  induction l as [|x l IH] using rev_ind; [constructor|].
  rewrite first_occurrences_snoc.
  destruct (bool_decide (key x ∈ key <$> l)) eqn:Hin.
  - by rewrite app_nil_r.
  - apply bool_decide_eq_false in Hin. rewrite fmap_app.
    apply NoDup_app. split; [done|]. split; [|apply NoDup_singleton].
    intros k Hk Hx. apply list_elem_of_singleton in Hx as ->.
    apply Hin. apply list_elem_of_fmap in Hk as (y & -> & Hy).
    apply list_elem_of_fmap_2. by apply first_occurrences_elem.
Qed.

End FirstOccurrences.

(* ===================================================================== *)
(** ** Same-sheet deduplication *)
(* ===================================================================== *)

Lemma same_canonical_signature (r1 r2 : Route) :
  same_canonical r1 r2 → get_route_signature r1 = get_route_signature r2.
Proof.
  intros (Ho & Hd & Hv). unfold get_route_signature. cbv zeta.
  unfold canonical_via in Hv. by rewrite Ho, Hd, Hv.
Qed.

(** The loop over the spans is the loop over all their quotes. *)
Lemma foldl_process_span (sheet_data : sheet) (sheet_name : option str)
    (bs : list span) (st : sheet_state) :
  foldl (process_span sheet_data sheet_name) st bs
  = foldl (add_quote sheet_name) st
      (concat (map (span_quotes sheet_data sheet_name) bs)).
Proof.
  revert st. induction bs as [|b bs IH]; intros st; [done|].
  cbn [map concat foldl]. rewrite foldl_app. apply IH.
Qed.

(** What the loop has kept and seen after any number of quotes. *)
Lemma add_quote_loop (sheet_name : option str) (qs : list QuoteBlock) :
  all_quotes (foldl (add_quote sheet_name) (SheetState [] ∅ false) qs)
  = first_occurrences signature qs ∧
  ∀ k, k ∈ seen_routes (foldl (add_quote sheet_name)
                           (SheetState [] ∅ false) qs)
       ↔ k ∈ signature <$> qs.
Proof.
  induction qs as [|q qs [IHa IHs]] using rev_ind.
  - split; [done|]. intros k. cbn. by rewrite elem_of_empty, elem_of_nil.
  - rewrite foldl_snoc, first_occurrences_snoc, fmap_app.
    change (signature <$> [q]) with [signature q].
    set (st := foldl (add_quote sheet_name) (SheetState [] ∅ false) qs) in *.
    unfold add_quote. cbv zeta. fold (signature q).
    destruct (bool_decide (signature q ∈ seen_routes st)) eqn:Hseen.
    + apply bool_decide_eq_true in Hseen. cbn [all_quotes seen_routes].
      rewrite bool_decide_eq_true_2 by by apply IHs.
      split; [by rewrite app_nil_r|].
      intros k. rewrite elem_of_app, IHs, list_elem_of_singleton.
      split; [tauto|]. intros [H | ->]; [done|]. by apply IHs.
    + apply bool_decide_eq_false in Hseen. cbn [all_quotes seen_routes].
      rewrite bool_decide_eq_false_2 by by rewrite <- IHs.
      split; [by rewrite IHa|].
      intros k.
      rewrite elem_of_app, elem_of_union, IHs, elem_of_singleton,
        list_elem_of_singleton. tauto.
Qed.

Lemma table_quotes_nil (sheet_name : option str) :
  table_quotes [] sheet_name = [].
Proof. reflexivity. Qed.

Lemma parse_sheet_loop (sheet_data : sheet) (sheet_name : option str)
    (dates : option (str * str)) :
  sheet_data ≠ [] →
  parse_sheet sheet_data sheet_name dates
  = map (stamp dates)
      (all_quotes (foldl (add_quote sheet_name) (SheetState [] ∅ false)
                         (table_quotes sheet_data sheet_name)) ++
       sheet_name_quote sheet_name
         (foldl (add_quote sheet_name) (SheetState [] ∅ false)
                (table_quotes sheet_data sheet_name))).
Proof.
  intros Hne. unfold parse_sheet, table_quotes.
  rewrite foldl_process_span. by destruct sheet_data.
Qed.

(** The quotes that [parse_sheet] keeps from the tables. *)
Lemma parse_sheet_tables (sheet_data : sheet) (sheet_name : option str)
    (dates : option (str * str)) :
  table_quotes sheet_data sheet_name ≠ [] →
  parse_sheet sheet_data sheet_name dates
  = map (stamp dates)
        (first_occurrences signature (table_quotes sheet_data sheet_name)).
Proof.
  intros Hne. rewrite parse_sheet_loop.
  2:{ intros ->. by rewrite table_quotes_nil in Hne. }
  destruct (add_quote_loop sheet_name (table_quotes sheet_data sheet_name))
    as [Ha _].
  unfold sheet_name_quote. rewrite Ha.
  rewrite bool_decide_eq_false_2; [|by apply first_occurrences_nonempty].
  destruct sheet_name; cbn [andb]; by rewrite app_nil_r.
Qed.

(** C4.  When two quotes of the tables of a sheet have routes whose
    origin, destination and via have the same canonical forms, their merge
    signatures are equal; [parse_sheet] returns exactly the first
    occurrences of the signatures, each as it was built (only the dates of
    the file are written on it); the later of the two quotes is not among
    them, and the first quote with that signature is. *)
Theorem C4_first_occurrence_wins (sheet_data : sheet)
    (sheet_name : option str) (dates : option (str * str))
    (i j : nat) (qi qj : QuoteBlock) :
  table_quotes sheet_data sheet_name !! i = Some qi →
  table_quotes sheet_data sheet_name !! j = Some qj →
  i < j →
  same_canonical (route qi) (route qj) →
  signature qi = signature qj ∧
  parse_sheet sheet_data sheet_name dates
  = map (stamp dates)
        (at_positions (table_quotes sheet_data sheet_name)
           (first_positions
              (signature <$> table_quotes sheet_data sheet_name))) ∧
  (j ∉ first_positions (signature <$> table_quotes sheet_data sheet_name)) ∧
  (∃ p qp, p ≤ i ∧
           p ∈ first_positions
                 (signature <$> table_quotes sheet_data sheet_name) ∧
           table_quotes sheet_data sheet_name !! p = Some qp ∧
           signature qp = signature qi).
Proof.
  intros Hi Hj Hij Hc.
  assert (Hs : signature qi = signature qj)
    by apply same_canonical_signature, Hc.
  split; [done|]. split; [|split].
  - apply parse_sheet_tables. intros E. by rewrite E in Hi.
  - apply (later_not_first _ i j (signature qi)); [done| |].
    + by rewrite list_lookup_fmap, Hi.
    + by rewrite list_lookup_fmap, Hj, Hs.
  - destruct (first_position_exists
                (signature <$> table_quotes sheet_data sheet_name) i
                (signature qi)) as (p & Hp & Hk & Hf).
    { by rewrite list_lookup_fmap, Hi. }
    apply list_lookup_fmap_Some in Hk as (qp & Hsig & Hqp).
    exists p, qp. done.
Qed.

Lemma C4_first_occurrence_wins_witness :
  1 ∉ first_positions
        (signature <$> table_quotes two_spellings_sheet (Some order1)).
Proof.
  eassert (H0 : table_quotes two_spellings_sheet (Some order1) !! 0 = Some _)
    by (vm_compute; reflexivity).
  eassert (H1 : table_quotes two_spellings_sheet (Some order1) !! 1 = Some _)
    by (vm_compute; reflexivity).
  refine (proj1 (proj2 (proj2
           (C4_first_occurrence_wins two_spellings_sheet (Some order1) None
              0 1 _ _ H0 H1 _ _)))).
  - lia.
  - vm_compute. repeat split.
Defined.

(** No two quotes returned for a sheet have the same merge signature; in
    particular [parse_sheet] never returns two quotes with the same origin,
    destination and via. *)
Lemma stamp_signature (dates : option (str * str)) (q : QuoteBlock) :
  signature (stamp dates q) = signature q.
Proof.
  unfold stamp. destruct dates as [[sd ed]|]; [|done].
  by destruct (truthy sd && truthy ed).
Qed.

Lemma map_stamp_signature (dates : option (str * str)) (qs : list QuoteBlock) :
  signature <$> map (stamp dates) qs = signature <$> qs.
Proof.
  induction qs as [|q qs IH]; [done|].
  cbn [map fmap list_fmap] in *. by rewrite stamp_signature, IH.
Qed.

Lemma parse_sheet_distinct_signatures (sheet_data : sheet)
    (sheet_name : option str) (dates : option (str * str)) :
  NoDup (signature <$> parse_sheet sheet_data sheet_name dates).
Proof.
  destruct (decide (table_quotes sheet_data sheet_name = [])) as [E|Hne].
  - destruct (decide (sheet_data = [])) as [->|Hs]; [constructor|].
    rewrite parse_sheet_loop by done. rewrite E. cbn [foldl all_quotes app].
    rewrite map_stamp_signature. unfold sheet_name_quote.
    destruct sheet_name as [n|]; [|constructor].
    destruct (bool_decide _ && _ && _); [|constructor].
    destruct (opt_truthy _ && opt_truthy _); [|constructor].
    apply NoDup_singleton.
  - rewrite parse_sheet_tables by done. rewrite map_stamp_signature.
    apply first_occurrences_NoDup.
Qed.

(* ===================================================================== *)
(** ** Route identifiers of a run *)
(* ===================================================================== *)

Lemma foldl_step_fmap (g : option goods_info) (qs : list QuoteBlock)
    (st : runner) :
  foldl step st ((fun q => (g, q)) <$> qs)
  = foldl (_process_quote_block g) st qs.
Proof.
  revert st. induction qs as [|q qs IH]; intros st; [done|].
  cbn [fmap list_fmap foldl]. apply IH.
Qed.

Lemma foldl_sheets_stream (dates : option (str * str))
    (sheets : list sheet_input) (st : runner) :
  foldl (_process_sheet dates) st sheets
  = foldl step st (concat (sheet_stream dates <$> sheets)).
Proof.
  revert st. induction sheets as [|s sheets IH]; intros st; [done|].
  cbn [fmap list_fmap concat foldl]. rewrite foldl_app, IH.
  f_equal. unfold sheet_stream. by rewrite foldl_step_fmap.
Qed.

(** A file is processed quote by quote, from an empty key table. *)
Lemma _process_file_stream (st : runner) (f : file_input) :
  _process_file st f = foldl step (start_file st) (file_stream f).
Proof. unfold _process_file, file_stream. apply foldl_sheets_stream. Qed.

Ltac split_consistent :=
  unfold consistent; split; [|split; [|split]].

Lemma consistent_init : consistent init.
Proof.
  split_consistent; cbn; try done.
  intros a Ha. by apply elem_of_nil in Ha.
Qed.

Lemma consistent_start_file (st : runner) :
  consistent st → consistent (start_file st).
Proof.
  intros (H1 & H2 & H3 & H4). split_consistent; cbn; try done.
Qed.

(** What one quote does to the runner. *)
Lemma step_spec (st : runner) (gq : option goods_info * QuoteBlock) :
  consistent st →
  consistent (step st gq) ∧
  routes (step st gq)
  = routes st ++
    (if bool_decide (is_Some (route_key_to_id st !! raw_key gq)) then []
     else [record_of (route_id st) (route_dict (route (snd gq)) (fst gq))]) ∧
  (∀ k, is_Some (route_key_to_id (step st gq) !! k) ↔
        is_Some (route_key_to_id st !! k) ∨ k = raw_key gq).
Proof.
  intros (H1 & H2 & H3 & H4). destruct gq as [g q].
  unfold step, _process_quote_block, raw_key. cbn [fst snd]. cbv zeta.
  destruct (route_key_to_id st !! get_unique_key (route q)) as [id|] eqn:Hk.
  - rewrite bool_decide_eq_true_2 by done. cbn [_add_route_agent fst routes
      route_agents route_id route_key_to_id]. rewrite app_nil_r.
    split; [|split; [done|]].
    + split_consistent; cbn [routes route_agents route_id route_key_to_id];
        try done.
      intros a Ha. apply elem_of_app in Ha as [Ha|Ha]; [by apply H3|].
      apply list_elem_of_singleton in Ha as ->. cbn. by apply (H4 _ _ Hk).
    + intros k. split; [tauto|]. intros [H | ->]; [done|]. by rewrite Hk.
  - rewrite bool_decide_eq_false_2 by (intros [? ?]; congruence).
    unfold _add_route. rewrite H2. cbn [Nat.eqb].
    cbn [_add_route_agent remember fst routes route_agents route_id
         route_key_to_id agent_route_id].
    split; [|split; [done|]].
    + split_consistent; cbn [routes route_agents route_id route_key_to_id];
        rewrite ?fmap_app, ?length_app; cbn [length].
      * rewrite H1. cbn [fmap list_fmap rr_id record_of].
        replace (length (routes st) + 1) with (S (length (routes st))) by lia.
        by rewrite seq_S.
      * lia.
      * intros a Ha. apply elem_of_app in Ha as [Ha|Ha].
        -- apply H3 in Ha. lia.
        -- apply list_elem_of_singleton in Ha as ->. cbn. lia.
      * intros k id Hid. apply lookup_insert_Some in Hid as [[_ <-]|[_ Hid]];
          [lia|]. apply H4 in Hid. lia.
    + intros k. rewrite lookup_insert_is_Some. split.
      * intros [H | [_ H]]; auto.
      * intros [H | ->]; [|by left].
        destruct (decide (get_unique_key (route q) = k)); [by left|by right].
Qed.

(** The routes added while the quotes of a file are processed. *)
Lemma foldl_step_routes (st0 : runner)
    (l : list (option goods_info * QuoteBlock)) :
  consistent st0 → route_key_to_id st0 = ∅ →
  consistent (foldl step st0 l) ∧
  routes (foldl step st0 l)
  = routes st0 ++ imap (new_record (route_id st0)) (first_occurrences raw_key l) ∧
  (∀ k, is_Some (route_key_to_id (foldl step st0 l) !! k) ↔
        k ∈ raw_key <$> l).
Proof.
  intros Hc0 Hm0. induction l as [|x l (IHc & IHr & IHk)] using rev_ind.
  - cbn [foldl]. split; [done|]. split.
    + by rewrite first_occurrences_nil, app_nil_r.
    + intros k. rewrite Hm0, lookup_empty. split; [by intros [? ?]|].
      intros H. by apply elem_of_nil in H.
  - rewrite foldl_snoc.
    destruct (step_spec (foldl step st0 l) x IHc) as (Sc & Sr & Sk).
    split; [done|]. split.
    + rewrite Sr, IHr, first_occurrences_snoc, imap_app, <- app_assoc.
      f_equal. f_equal.
      destruct (decide (raw_key x ∈ raw_key <$> l)) as [Hin|Hnin].
      * rewrite bool_decide_eq_true_2 by by apply IHk.
        by rewrite bool_decide_eq_true_2.
      * rewrite bool_decide_eq_false_2 by by rewrite IHk.
        rewrite bool_decide_eq_false_2 by done.
        cbn [imap]. unfold new_record. f_equal. f_equal.
        destruct IHc as (_ & -> & _). destruct Hc0 as (_ & -> & _).
        rewrite IHr, length_app, length_imap. lia.
    + intros k. rewrite Sk, IHk, fmap_app, elem_of_app.
      change (raw_key <$> [x]) with [raw_key x].
      by rewrite list_elem_of_singleton.
Qed.

Lemma run_snoc (files : list file_input) (f : file_input) :
  run (files ++ [f]) = _process_file (run files) f.
Proof. unfold run. apply foldl_snoc. Qed.

Lemma imap_new_record_app (first_id : nat)
    (l1 l2 : list (option goods_info * QuoteBlock)) :
  imap (new_record first_id) (l1 ++ l2)
  = imap (new_record first_id) l1 ++
    imap (new_record (first_id + length l1)) l2.
Proof.
  rewrite imap_app. f_equal. apply imap_ext. intros i x _.
  unfold new_record. f_equal. lia.
Qed.

(** The routes of a run: the first occurrences of the raw keys of each
    file, file after file, numbered from 1. *)
Lemma run_routes (files : list file_input) :
  consistent (run files) ∧
  routes (run files)
  = imap (new_record 1)
      (concat ((fun f => first_occurrences raw_key (file_stream f)) <$> files)).
Proof.
  induction files as [|f files [IHc IHr]] using rev_ind.
  - split; [apply consistent_init|done].
  - rewrite run_snoc, _process_file_stream.
    destruct (foldl_step_routes (start_file (run files)) (file_stream f))
      as (Hc & Hr & _); [by apply consistent_start_file|done|].
    split; [done|].
    rewrite Hr. cbn [start_file routes route_id].
    rewrite fmap_app, concat_app. cbn [fmap list_fmap concat].
    rewrite app_nil_r, imap_new_record_app, <- IHr. f_equal.
    destruct IHc as (_ & -> & _).
    by rewrite IHr, length_imap.
Qed.


(* ===================================================================== *)
(** ** Table boundaries: headers that end in a colon *)
(* ===================================================================== *)

Lemma span_starts_app (a b : list span) :
  span_starts (a ++ b) = span_starts a ++ span_starts b.
Proof. unfold span_starts. apply fmap_app. Qed.

Lemma scan_row_starts (sheet_data : sheet) (st : scan_state) (row_idx : nat)
    (r : row) :
  state_starts (scan_row sheet_data st row_idx r)
  = span_starts (boundaries st) ++
    (if row_opens sheet_data row_idx r
     then match current st with
          | Some (current_start, _) => [current_start; row_idx]
          | None => [row_idx]
          end
     else match current st with
          | Some (current_start, _) => [current_start]
          | None => []
          end).
Proof.
  unfold scan_row, row_opens. destruct (scanned_cell r) as [first_cell|]; [|done].
  destruct (is_valid_title sheet_data row_idx first_cell); [|done].
  unfold state_starts. cbn [boundaries current].
  destruct (current st) as [[current_start current_route_text]|]; [|done].
  rewrite span_starts_app. cbn. by rewrite <- app_assoc.
Qed.

Lemma scan_row_state_starts (sheet_data : sheet) (st : scan_state)
    (row_idx : nat) (r : row) :
  state_starts (scan_row sheet_data st row_idx r)
  = state_starts st ++ (if row_opens sheet_data row_idx r then [row_idx] else []).
Proof.
  rewrite scan_row_starts. unfold state_starts.
  destruct (row_opens sheet_data row_idx r),
    (current st) as [[current_start current_route_text]|];
    cbn; by rewrite <- ?app_assoc, ?app_nil_r.
Qed.

Lemma scan_rows_starts (sheet_data : sheet) (rows : list row) :
  ∀ st row_idx,
    state_starts (scan_rows sheet_data st row_idx rows)
    = state_starts st ++ opening_rows sheet_data row_idx rows.
Proof.
  induction rows as [|r rows IH]; intros st row_idx.
  - cbn. by rewrite app_nil_r.
  - cbn [scan_rows opening_rows].
    by rewrite IH, scan_row_state_starts, <- app_assoc.
Qed.

(** The spans of the scan start at the rows that the scan takes as
    headers. *)
Lemma scan_boundaries_starts (sheet_data : sheet) :
  span_starts (scan_boundaries sheet_data) = opening_rows sheet_data 0 sheet_data.
Proof.
  pose proof (scan_rows_starts sheet_data sheet_data (ScanState [] None) 0) as H.
  unfold scan_boundaries. cbv zeta. unfold state_starts in H at 1.
  destruct (current (scan_rows sheet_data (ScanState [] None) 0 sheet_data))
    as [[current_start current_route_text]|].
  - rewrite span_starts_app. exact H.
  - by rewrite app_nil_r in H.
Qed.

Lemma elem_of_opening_rows (sheet_data : sheet) (rows : list row) :
  ∀ row_idx i,
    i ∈ opening_rows sheet_data row_idx rows ↔
    ∃ r, row_idx ≤ i ∧ rows !! (i - row_idx) = Some r ∧
         row_opens sheet_data i r = true.
Proof.
  induction rows as [|r rows IH]; intros row_idx i.
  - cbn. rewrite elem_of_nil. split; [done|]. by intros (r & _ & Hr & _).
  - cbn [opening_rows]. rewrite elem_of_app, IH. split.
    + intros [Hi | (r' & Hle & Hr & Ho)].
      * destruct (row_opens sheet_data row_idx r) eqn:Ho;
          [|by apply elem_of_nil in Hi].
        apply list_elem_of_singleton in Hi as ->. exists r.
        by rewrite Nat.sub_diag.
      * exists r'. split; [lia|]. split; [|done].
        replace (i - row_idx) with (S (i - S row_idx)) by lia. done.
    + intros (r' & Hle & Hr & Ho).
      destruct (decide (i = row_idx)) as [->|Hne].
      * left. rewrite Nat.sub_diag in Hr. injection Hr as ->.
        rewrite Ho. by apply list_elem_of_singleton.
      * right. exists r'. split; [lia|]. split; [|done].
        replace (i - row_idx) with (S (i - S row_idx)) in Hr by lia. done.
Qed.

(** A row starts a span of the scan exactly when the scan takes it as a
    header. *)
Lemma scan_boundaries_start (sheet_data : sheet) (row_idx : nat) (r : row) :
  sheet_data !! row_idx = Some r →
  row_idx ∈ span_starts (scan_boundaries sheet_data) ↔
  row_opens sheet_data row_idx r = true.
Proof.
  intros Hr. rewrite scan_boundaries_starts, elem_of_opening_rows.
  rewrite Nat.sub_0_r. split.
  - intros (r' & _ & Hr' & Ho). congruence.
  - intros Ho. exists r. split; [lia|done].
Qed.

(** The spans of the second strategy start at row 0. *)
Lemma first_row_boundary_starts (sheet_data : sheet) (row_idx : nat) :
  row_idx ∈ span_starts (first_row_boundary sheet_data) → row_idx = 0.
Proof.
  unfold first_row_boundary.
  destruct sheet_data as [|[|c r0] rows]; try (by intros H; apply elem_of_nil in H).
  cbv zeta. destruct (truthy _ && _); [|by intros H; apply elem_of_nil in H].
  destruct (re_search _ _); [|by intros H; apply elem_of_nil in H].
  cbn. by intros H%list_elem_of_singleton.
Qed.

Lemma _find_table_boundaries_start (sheet_data : sheet) (row_idx : nat) :
  0 < row_idx →
  row_idx ∈ span_starts (_find_table_boundaries sheet_data) ↔
  row_idx ∈ span_starts (scan_boundaries sheet_data).
Proof.
  intros Hpos. unfold _find_table_boundaries.
  destruct (scan_boundaries sheet_data) as [|b bs]; [|done].
  split.
  - intros H%first_row_boundary_starts. lia.
  - intros H. by apply elem_of_nil in H.
Qed.

(** C6 (counterexample).  The cell 货交深圳-香港： contains a colon, the
    part before the colon is shorter than 30 characters and matches the
    route pattern with both ends valid, and the row after it lists no
    agent; the cell opens a span all the same, by the handover rule. *)
Lemma C6_handover_header_opens_span :
  has_colon (u "货交深圳-香港：") = true ∧
  before_first (char_in colons) (u "货交深圳-香港：")
  = colon_route_part (u "货交深圳-香港：") ∧
  rule2_route (u "货交深圳-香港：") = true ∧
  next_row_is_agent handover_sheet 0 = false ∧
  span_starts (scan_boundaries handover_sheet) = [0] ∧
  span_starts (_find_table_boundaries handover_sheet) = [0].
Proof. vm_compute. done. Qed.

(** C6 (amended).  During the scan, a first cell of at most 80 characters
    that does not begin with the handover marker 货交, contains a colon,
    and whose text without its trailing colons is shorter than 30
    characters and matches the route pattern with both ends valid, opens a
    new span if and only if the row after it looks like an agent row: its
    first cell, trimmed and lowered, contains an agent keyword or is "/",
    "-" or blank.  For a row other than the first this is also when the
    row starts a span of [_find_table_boundaries]. *)
Theorem C6_colon_header_iff_agent_row (sheet_data : sheet) (row_idx : nat)
    (c : str) (rest : row) :
  sheet_data !! row_idx = Some (c :: rest) →
  c ≠ [] →
  length (strip c) ≤ 80 →
  startswith (strip c) handover = false →
  has_colon (strip c) = true →
  rule2_route (strip c) = true →
  (row_idx ∈ span_starts (scan_boundaries sheet_data) ↔
   next_row_is_agent sheet_data row_idx = true) ∧
  (0 < row_idx →
   row_idx ∈ span_starts (_find_table_boundaries sheet_data) ↔
   next_row_is_agent sheet_data row_idx = true).
Proof.
  intros Hr Hc Hlen Hh Hcolon Hroute.
  assert (Hopen : row_opens sheet_data row_idx (c :: rest)
                  = next_row_is_agent sheet_data row_idx).
  { unfold row_opens, scanned_cell. rewrite (truthy_ne _ Hc). cbv zeta.
    apply Nat.ltb_ge in Hlen. rewrite Hlen.
    unfold is_valid_title, rule1_applies. by rewrite Hh, Hcolon, Hroute. }
  split.
  - by rewrite (scan_boundaries_start _ _ _ Hr), Hopen.
  - intros Hpos.
    by rewrite (_find_table_boundaries_start _ _ Hpos),
         (scan_boundaries_start _ _ _ Hr), Hopen.
Qed.

Lemma C6_colon_header_iff_agent_row_witness :
  0 ∈ span_starts (scan_boundaries colon_sheet).
Proof.
  refine (proj2 (proj1 (C6_colon_header_iff_agent_row colon_sheet 0
                          (u "深圳-泰国：") [] _ _ _ _ _ _)) _).
  - vm_compute. reflexivity.
  - vm_compute. discriminate.
  - vm_compute. lia.
  - vm_compute. reflexivity.
  - vm_compute. reflexivity.
  - vm_compute. reflexivity.
  - vm_compute. reflexivity.
Defined.

(* ===================================================================== *)
(** ** The columns of one table *)
(* ===================================================================== *)

Section SameKey.
Context {A : Type} (key : A → str).

(** Of elements that all have the same key, the first one is the only
    first occurrence. *)
Lemma first_occurrences_same_key (l : list A) (k : str) :
  (∀ x, x ∈ l → key x = k) → first_occurrences key l = take 1 l.
Proof.
  induction l as [|x l IH] using rev_ind; intros Hk; [done|].
  rewrite first_occurrences_snoc.
  destruct l as [|y l].
  - rewrite first_occurrences_nil. cbn [fmap list_fmap app].
    by rewrite bool_decide_eq_false_2 by apply not_elem_of_nil.
  - rewrite IH by (intros z Hz; apply Hk, elem_of_app; by left).
    rewrite bool_decide_eq_true_2.
    + by rewrite app_nil_r.
    + rewrite (Hk x) by (apply elem_of_app; right; by left).
      rewrite <- (Hk y) by (apply elem_of_app; left; by left).
      cbn [fmap list_fmap]. by left.
Qed.

End SameKey.

Lemma blanks_exclude_empty (x : str) :
  existsb (str_eqb x) blanks = false → x ≠ [].
Proof.
  intros H ->. vm_compute in H. discriminate.
Qed.

(** A cell returned by [_get_cell] is not empty and is trimmed, and the
    cell it comes from is not empty. *)
Lemma _get_cell_Some (table_data : sheet) (row_idx col_idx : nat) (a : str) :
  _get_cell table_data row_idx col_idx = Some a →
  a ≠ [] ∧ strip a = a ∧
  ∃ r cell, table_data !! row_idx = Some r ∧ r !! col_idx = Some cell ∧
            cell ≠ [].
Proof.
  unfold _get_cell. destruct (table_data !! row_idx) as [r|]; [|done].
  destruct (r !! col_idx) as [cell|] eqn:Hcell; [|done].
  destruct (existsb (str_eqb (lower (strip cell))) blanks) eqn:Hb; [done|].
  intros [= <-]. apply blanks_exclude_empty in Hb.
  assert (Hs : strip cell ≠ []).
  { intros E. apply Hb. by rewrite E. }
  split; [done|]. split.
  - destruct (strip_clean cell). by apply strip_fixed.
  - exists r, cell. split; [done|]. split; [done|]. intros ->. by apply Hs.
Qed.

(** The quote of a column whose agent cell is not blank. *)
Lemma _extract_column_quote_Some (table_data : sheet) (col_idx : nat)
    (st : structure) (base_route : Route) (sheet_name : option str)
    (ar : nat) (a : str) :
  agent_row st = Some ar →
  _get_cell table_data ar col_idx = Some a →
  _extract_column_quote table_data col_idx st base_route sheet_name
  = Some (mkQuote (column_route base_route sheet_name)
                  (named_agent (Some a))).
Proof.
  intros Har Hc. destruct (_get_cell_Some _ _ _ _ Hc) as (Hne & Hs & _).
  unfold _extract_column_quote. cbv zeta. rewrite Har, Hc.
  rewrite (truthy_ne _ Hne), Hs. cbn [opt_truthy negb].
  by rewrite (truthy_ne _ Hne).
Qed.

(** A table with four columns and an agent in column 1 is not a
    single-quote table. *)
Lemma four_columns_not_single (table_data : sheet) (st : structure)
    (ar : nat) (a : str) :
  num_cols st = 4 → agent_row st = Some ar →
  _get_cell table_data ar 1 = Some a →
  is_single_column table_data st = false.
Proof.
  intros Hn Har Hc. unfold is_single_column. rewrite Hn, Har. cbn [Nat.leb orb].
  destruct (_get_cell_Some _ _ _ _ Hc) as (_ & _ & r & cell & Hr & Hcell & Hne).
  unfold has_multi_agents. rewrite Hr. cbn [default from_option id].
  destruct r as [|c0 [|c1 r]]; try done.
  cbn in Hcell. injection Hcell as ->.
  cbn [length drop existsb]. by rewrite (truthy_ne _ Hne).
Qed.

(** C2 (counterexample).  In a sheet with one table, one header and agents
    in columns 1, 2 and 3, the table yields three quotes, one per agent,
    and [parse_sheet] returns one record, not three. *)
Lemma C2_three_columns_one_record :
  length (_find_table_boundaries three_agents_sheet) = 1 ∧
  agent_names (table_quotes three_agents_sheet (Some order1)) = agents_abc ∧
  agent_names (parse_sheet three_agents_sheet (Some order1) None)
    = take 1 agents_abc.
Proof. vm_compute. done. Qed.

(** C2 (amended).  For every sheet with one table whose route header is
    resolved and whose agent row has non-blank cells in columns 1, 2 and 3
    (of four columns), the table yields three quotes, one per column, that
    share one route and carry the three cells as agent names; of these
    [parse_sheet] emits exactly one record, that of column 1: the other two
    have the same merge signature and are dropped by the same-sheet
    deduplication. *)
Theorem C2_three_columns_first_kept (sheet_data : sheet)
    (sheet_name : option str) (dates : option (str * str)) (b : span)
    (base_route : Route) (st : structure) (ar : nat) (a1 a2 a3 : str) :
  _find_table_boundaries sheet_data = [b] →
  2 ≤ length (span_rows sheet_data b) →
  resolve_base_route (snd b) sheet_name = Some base_route →
  _identify_structure (span_rows sheet_data b) = Some st →
  num_cols st = 4 →
  agent_row st = Some ar →
  _get_cell (span_rows sheet_data b) ar 1 = Some a1 →
  _get_cell (span_rows sheet_data b) ar 2 = Some a2 →
  _get_cell (span_rows sheet_data b) ar 3 = Some a3 →
  table_quotes sheet_data sheet_name
  = [mkQuote (column_route base_route sheet_name) (named_agent (Some a1));
     mkQuote (column_route base_route sheet_name) (named_agent (Some a2));
     mkQuote (column_route base_route sheet_name) (named_agent (Some a3))] ∧
  parse_sheet sheet_data sheet_name dates
  = [stamp dates (mkQuote (column_route base_route sheet_name)
                          (named_agent (Some a1)))].
Proof.
  intros Hb Hlen Hroute Hst Hn Har H1 H2 H3.
  assert (Hq : table_quotes sheet_data sheet_name
               = [mkQuote (column_route base_route sheet_name)
                          (named_agent (Some a1));
                  mkQuote (column_route base_route sheet_name)
                          (named_agent (Some a2));
                  mkQuote (column_route base_route sheet_name)
                          (named_agent (Some a3))]).
  { unfold table_quotes. rewrite Hb. cbn [map concat]. rewrite app_nil_r.
    unfold span_quotes, _parse_single_table.
    apply Nat.ltb_ge in Hlen. rewrite Hlen, Hroute, Hst.
    rewrite (four_columns_not_single _ _ _ _ Hn Har H1), Hn.
    cbn [Nat.sub seq omap list_omap].
    rewrite (_extract_column_quote_Some _ _ _ _ _ _ _ Har H1),
      (_extract_column_quote_Some _ _ _ _ _ _ _ Har H2),
      (_extract_column_quote_Some _ _ _ _ _ _ _ Har H3).
    reflexivity. }
  split; [exact Hq|].
  rewrite parse_sheet_tables by by rewrite Hq.
  rewrite Hq.
  rewrite (first_occurrences_same_key signature _
             (get_route_signature (column_route base_route sheet_name))).
  - reflexivity.
  - intros x Hx. repeat (apply elem_of_cons in Hx as [-> | Hx]; [done|]).
    by apply elem_of_nil in Hx.
Qed.

Lemma C2_three_columns_first_kept_witness :
  ∃ q, parse_sheet three_agents_sheet (Some order1) None = [q].
Proof.
  assert (Hb : _find_table_boundaries three_agents_sheet = [three_agents_span])
    by (vm_compute; reflexivity).
  eassert (Hr : resolve_base_route (snd three_agents_span) (Some order1)
                = Some _)
    by (vm_compute; reflexivity).
  eassert (Hs : _identify_structure
                  (span_rows three_agents_sheet three_agents_span) = Some _)
    by (vm_compute; reflexivity).
  eassert (H1 : _get_cell (span_rows three_agents_sheet three_agents_span) 1 1
                = Some _)
    by (vm_compute; reflexivity).
  eassert (H2 : _get_cell (span_rows three_agents_sheet three_agents_span) 1 2
                = Some _)
    by (vm_compute; reflexivity).
  eassert (H3 : _get_cell (span_rows three_agents_sheet three_agents_span) 1 3
                = Some _)
    by (vm_compute; reflexivity).
  destruct (C2_three_columns_first_kept three_agents_sheet (Some order1) None
              three_agents_span _ _ 1 _ _ _ Hb ltac:(vm_compute; lia) Hr Hs
              eq_refl eq_refl H1 H2 H3) as (_ & Hp).
  eexists. exact Hp.
Defined.

(* ===================================================================== *)
(** ** Cleaning of place names: lengths and shapes *)
(* ===================================================================== *)

Section StripBy.
Context (p : N → bool).

Lemma lstrip_by_length (s : str) : length (lstrip_by p s) ≤ length s.
Proof.
  induction s as [|c s IH]; [done|]. cbn [lstrip_by].
  destruct (p c); cbn [length]; lia.
Qed.

Lemma rstrip_by_length (s : str) : length (rstrip_by p s) ≤ length s.
Proof.
  induction s as [|c s IH]; [done|]. cbn [rstrip_by].
  destruct (rstrip_by p s); [destruct (p c)|]; cbn [length] in *; lia.
Qed.

Lemma strip_by_length (s : str) : length (strip_by p s) ≤ length s.
Proof.
  unfold strip_by. etrans; [apply rstrip_by_length|apply lstrip_by_length].
Qed.

Lemma lstrip_by_starts_off (s : str) : starts_off p (lstrip_by p s) = true.
Proof.
  induction s as [|c s IH]; [done|]. cbn [lstrip_by].
  destruct (p c) eqn:Hc; [done|]. cbn. by rewrite Hc.
Qed.

Lemma ends_off_cons (c : N) (s : str) :
  s ≠ [] → ends_off p (c :: s) = ends_off p s.
Proof.
  destruct s; [done|]. intros _. unfold ends_off. by rewrite last_cons_cons.
Qed.

Lemma rstrip_by_ends_off (s : str) : ends_off p (rstrip_by p s) = true.
Proof.
  induction s as [|c s IH]; [done|]. cbn [rstrip_by].
  destruct (rstrip_by p s) as [|c' r] eqn:Hr.
  - destruct (p c) eqn:Hc; [done|]. unfold ends_off. cbn. by rewrite Hc.
  - by rewrite ends_off_cons.
Qed.

Lemma rstrip_by_starts_off (s : str) :
  starts_off p s = true → starts_off p (rstrip_by p s) = true.
Proof.
  destruct s as [|c s]; [done|]. cbn [rstrip_by]. intros H.
  destruct (rstrip_by p s); [by destruct (p c)|done].
Qed.

Lemma strip_by_off (s : str) :
  starts_off p (strip_by p s) = true ∧ ends_off p (strip_by p s) = true.
Proof.
  unfold strip_by. split.
  - apply rstrip_by_starts_off, lstrip_by_starts_off.
  - apply rstrip_by_ends_off.
Qed.

Lemma lstrip_by_id (s : str) : starts_off p s = true → lstrip_by p s = s.
Proof. destruct s as [|c s]; [done|]. cbn. by destruct (p c). Qed.

Lemma rstrip_by_id (s : str) : ends_off p s = true → rstrip_by p s = s.
Proof.
  induction s as [|c s IH]; [done|]. intros H.
  destruct s as [|c' s].
  - unfold ends_off in H. cbn in H. cbn. by destruct (p c).
  - rewrite ends_off_cons in H by done.
    cbn [rstrip_by] in *. by rewrite (IH H).
Qed.

Lemma strip_by_id (s : str) :
  starts_off p s = true → ends_off p s = true → strip_by p s = s.
Proof.
  intros H1 H2. unfold strip_by. by rewrite lstrip_by_id, rstrip_by_id.
Qed.

End StripBy.

Section FreeOf.
Context (q : N → bool).

Lemma free_of_cons (c : N) (s : str) :
  free_of q (c :: s) = negb (q c) && free_of q s.
Proof. reflexivity. Qed.

Lemma free_of_app (a b : str) :
  free_of q (a ++ b) = free_of q a && free_of q b.
Proof. unfold free_of. apply forallb_app. Qed.

Lemma free_of_rev (s : str) : free_of q (rev s) = free_of q s.
Proof.
  induction s as [|c s IH]; [done|]. cbn [rev].
  rewrite free_of_app, IH, !free_of_cons. cbn [free_of forallb].
  rewrite andb_true_r. apply andb_comm.
Qed.

Lemma free_of_lstrip (p : N → bool) (s : str) :
  free_of q s = true → free_of q (lstrip_by p s) = true.
Proof.
  induction s as [|c s IH]; [done|]. cbn [lstrip_by]. intros H.
  destruct (p c); [|done]. rewrite free_of_cons in H.
  apply andb_true_iff in H as [_ H]. by apply IH.
Qed.

Lemma free_of_rstrip (p : N → bool) (s : str) :
  free_of q s = true → free_of q (rstrip_by p s) = true.
Proof.
  induction s as [|c s IH]; [done|]. cbn [rstrip_by]. intros H.
  rewrite free_of_cons in H. apply andb_true_iff in H as [Hc H].
  specialize (IH H).
  destruct (rstrip_by p s) as [|c' r].
  - destruct (p c); [done|]. by rewrite free_of_cons, Hc.
  - by rewrite free_of_cons, Hc, IH.
Qed.

Lemma free_of_strip_by (p : N → bool) (s : str) :
  free_of q s = true → free_of q (strip_by p s) = true.
Proof. intros H. unfold strip_by. by apply free_of_rstrip, free_of_lstrip. Qed.

Lemma free_of_drop (n : nat) (s : str) :
  free_of q s = true → free_of q (drop n s) = true.
Proof.
  revert n. induction s as [|c s IH]; intros [|n] H; try done.
  rewrite free_of_cons in H. apply andb_true_iff in H as [_ H].
  by apply IH.
Qed.

Lemma free_of_take (n : nat) (s : str) :
  free_of q s = true → free_of q (take n s) = true.
Proof.
  revert n. induction s as [|c s IH]; intros [|n] H; try done.
  rewrite free_of_cons in H. apply andb_true_iff in H as [Hc H].
  cbn [take]. by rewrite free_of_cons, Hc, IH.
Qed.

End FreeOf.

Lemma before_first_free (p : N → bool) (s : str) :
  free_of p (before_first p s) = true.
Proof.
  induction s as [|c s IH]; [done|]. cbn [before_first].
  destruct (p c) eqn:Hc; [done|]. by rewrite free_of_cons, Hc, IH.
Qed.

Lemma before_first_length (p : N → bool) (s : str) :
  length (before_first p s) ≤ length s.
Proof.
  induction s as [|c s IH]; [done|]. cbn [before_first].
  destruct (p c); cbn [length]; lia.
Qed.

(** *** The pieces of a split *)

Lemma split_go_cons0 (sep : str) (c : N) (s cur : str) :
  split_go sep 0 (c :: s) cur
  = if startswith (c :: s) sep
    then rev cur :: split_go sep (length sep - 1) s []
    else split_go sep 0 s (c :: cur).
Proof. reflexivity. Qed.

Lemma split_go_consS (sep : str) (k : nat) (c : N) (s cur : str) :
  split_go sep (S k) (c :: s) cur = split_go sep k s cur.
Proof. reflexivity. Qed.

(** Every piece is made of characters of the text, and is not longer. *)
Lemma split_go_pieces (q : N → bool) (sep : str) :
  ∀ s skip cur piece,
    piece ∈ split_go sep skip s cur →
    length piece ≤ length cur + length s ∧
    (free_of q s = true → free_of q cur = true → free_of q piece = true).
Proof.
  induction s as [|c s IH]; intros skip cur piece Hin.
  - cbn in Hin. apply list_elem_of_singleton in Hin as ->.
    rewrite length_rev. split; [cbn; lia|]. intros _ H. by rewrite free_of_rev.
  - destruct skip as [|k].
    + rewrite split_go_cons0 in Hin.
      destruct (startswith (c :: s) sep).
      * apply elem_of_cons in Hin as [->|Hin].
        -- rewrite length_rev. split; [lia|]. intros _ H. by rewrite free_of_rev.
        -- apply IH in Hin as [Hl Hf]. split; [cbn [length] in *; lia|].
           intros Hs _. rewrite free_of_cons in Hs.
           apply andb_true_iff in Hs as [_ Hs]. by apply Hf.
      * apply IH in Hin as [Hl Hf]. split; [cbn [length] in *; lia|].
        intros Hs Hc. rewrite free_of_cons in Hs.
        apply andb_true_iff in Hs as [Hc' Hs]. apply Hf; [done|].
        by rewrite free_of_cons, Hc', Hc.
    + rewrite split_go_consS in Hin. apply IH in Hin as [Hl Hf].
      split; [cbn [length] in *; lia|].
      intros Hs Hc. rewrite free_of_cons in Hs.
      apply andb_true_iff in Hs as [_ Hs]. by apply Hf.
Qed.

Lemma split_piece (q : N → bool) (s sep : str) (i : nat) :
  length (default [] (split s sep !! i)) ≤ length s ∧
  (free_of q s = true → free_of q (default [] (split s sep !! i)) = true).
Proof.
  destruct (split s sep !! i) as [piece|] eqn:Hi.
  - apply list_elem_of_lookup_2 in Hi. unfold split in Hi.
    destruct (split_go_pieces q sep s 0 [] piece Hi) as [Hl Hf].
    split; [cbn in *; lia|]. intros H. by apply Hf.
  - split; [cbn; lia|done].
Qed.

Lemma str_in_length (sub s : str) : str_in sub s = true → length sub ≤ length s.
Proof.
  induction s as [|c s IH].
  - change (str_in sub []) with (startswith [] sub || false).
    rewrite orb_false_r. intros H. by apply startswith_length in H.
  - rewrite str_in_cons. intros [H|H]%orb_true_iff.
    + by apply startswith_length in H.
    + apply IH in H. cbn [length]. lia.
Qed.

(** *** [clean_location_text] *)

Lemma strip_prefixes_shape (q : N → bool) (ps : list str) (text : str) :
  length (strip_prefixes ps text) ≤ length text ∧
  (free_of q text = true → free_of q (strip_prefixes ps text) = true).
Proof.
  revert text. induction ps as [|prefix ps IH]; intros text; [done|].
  cbn [strip_prefixes].
  destruct (IH (if startswith text prefix then drop (length prefix) text
                else text)) as [Hl Hf].
  destruct (startswith text prefix).
  - split; [rewrite length_drop in Hl; lia|].
    intros H. by apply Hf, free_of_drop.
  - done.
Qed.

Lemma cut_business_word_shape (q : N → bool) (ws : list str) (text : str) :
  length (cut_business_word ws text) ≤ length text ∧
  (free_of q text = true → free_of q (cut_business_word ws text) = true).
Proof.
  induction ws as [|word ws IH]; [done|]. cbn [cut_business_word].
  destruct (str_in word text); [|done].
  destruct (split_piece q text word 0) as [Hl Hf]. split.
  - etrans; [apply strip_by_length|done].
  - intros H. by apply free_of_strip_by, Hf.
Qed.

(** The text returned by [clean_location_text] is not longer than the
    text given and contains no cut character. *)
Lemma clean_location_text_cut (text : str) :
  length (clean_location_text text) ≤ length text ∧
  free_of (char_in cut_chars) (clean_location_text text) = true.
Proof.
  unfold clean_location_text. destruct (truthy text); cbn [negb];
    [|split; [cbn; lia|done]].
  cbv zeta.
  set (t1 := strip_prefixes prefixes text).
  set (t2 := before_first (char_in cut_chars) t1).
  set (t3 := cut_business_word business_words t2).
  destruct (strip_prefixes_shape (char_in cut_chars) prefixes text) as [L1 _].
  pose proof (before_first_length (char_in cut_chars) t1) as L2.
  destruct (cut_business_word_shape (char_in cut_chars) business_words t2)
    as [L3 F3].
  pose proof (strip_by_length is_space t3) as L4.
  split; [unfold strip; subst t1 t2 t3; lia|].
  apply free_of_strip_by, F3, before_first_free.
Qed.

(** X1.  The text returned by [clean_location_text] is never longer than
    the text given, has no blank at either end, and contains none of the
    characters ：:,， at which the text is cut. *)
Theorem clean_location_text_shape (text : str) :
  length (clean_location_text text) ≤ length text ∧
  strip (clean_location_text text) = clean_location_text text ∧
  free_of (char_in cut_chars) (clean_location_text text) = true.
Proof.
  destruct (clean_location_text_cut text) as [L F].
  split; [exact L|]. split; [|exact F].
  unfold clean_location_text. destruct (truthy text); cbn [negb]; [|done].
  cbv zeta.
  generalize (cut_business_word business_words
                (before_first (char_in cut_chars)
                   (strip_prefixes prefixes text))).
  intros t3. destruct (strip_clean t3). by apply strip_fixed.
Qed.

(** *** [_deep_clean_location] *)

Lemma keyword_pass_shape (q : N → bool) (kws : list str) (cleaned : str) :
  length (keyword_pass kws cleaned) ≤ length cleaned ∧
  (free_of q cleaned = true → free_of q (keyword_pass kws cleaned) = true).
Proof.
  induction kws as [|keyword kws IH]; [done|]. cbn [keyword_pass].
  destruct (str_in keyword cleaned); [|done]. cbv zeta.
  destruct (split_piece q cleaned keyword 0) as [L0 F0].
  destruct (split_piece q cleaned keyword 1) as [L1 F1].
  pose proof (strip_by_length is_space
                (default [] (split cleaned keyword !! 0))) as S0.
  pose proof (strip_by_length is_space
                (default [] (split cleaned keyword !! 1))) as S1.
  destruct (truthy (strip (default [] (split cleaned keyword !! 0)))).
  { split; [unfold strip; lia|]. intros H. by apply free_of_strip_by, F0. }
  destruct (Nat.ltb 1 (length (split cleaned keyword)) &&
            truthy (strip (default [] (split cleaned keyword !! 1)))).
  { split; [unfold strip; lia|]. intros H. by apply free_of_strip_by, F1. }
  done.
Qed.

Lemma until_stable_shape (q : N → bool) (step : str → str) :
  (∀ y, length (step y) ≤ length y ∧
        (free_of q y = true → free_of q (step y) = true)) →
  ∀ n y, length (until_stable n step y) ≤ length y ∧
         (free_of q y = true → free_of q (until_stable n step y) = true).
Proof.
  intros Hstep. induction n as [|n IH]; intros y; [done|].
  cbn [until_stable]. cbv zeta. destruct (Hstep y) as [L F].
  destruct (str_eqb (step y) y); [done|].
  destruct (IH (step y)) as [L' F']. split; [lia|]. intros H. by apply F', F.
Qed.

Lemma deep_clean_rounds_shape (location : str) :
  length (deep_clean_rounds location) ≤ length location ∧
  starts_off (char_in edge_chars) (deep_clean_rounds location) = true ∧
  ends_off (char_in edge_chars) (deep_clean_rounds location) = true ∧
  free_of (char_in cut_chars) (deep_clean_rounds location) = true.
Proof.
  unfold deep_clean_rounds. cbv zeta.
  destruct (clean_location_text_cut location) as (L1 & F1).
  destruct (until_stable_shape (char_in cut_chars)
              (keyword_pass business_keywords)
              (keyword_pass_shape (char_in cut_chars) business_keywords)
              3 (clean_location_text location)) as [L2 F2].
  set (c := until_stable 3 (keyword_pass business_keywords)
              (clean_location_text location)) in *.
  pose proof (strip_by_length (char_in edge_chars) c) as L3.
  destruct (strip_by_off (char_in edge_chars) c) as [S E].
  unfold strip_chars. split; [lia|]. split; [done|]. split; [done|].
  by apply free_of_strip_by, F2.
Qed.

Lemma core_locations_tidy : forallb tidy core_locations = true.
Proof. vm_compute. reflexivity. Qed.

Lemma core_location_Some (location wl : str) :
  core_location location = Some wl →
  length wl ≤ length location ∧ tidy wl = true.
Proof.
  unfold core_location. intros H. apply find_some in H as [Hin Hs].
  split; [by apply str_in_length|].
  pose proof core_locations_tidy as Ht.
  rewrite forallb_forall in Ht. by apply Ht.
Qed.

(** X2.  The text returned by [_deep_clean_location] is never longer than
    the text given; it has none of the edge characters (punctuation,
    brackets, space, tab, line feed) at either end, so stripping them
    again changes nothing; and it contains none of the characters ：:,，. *)
Theorem _deep_clean_location_shape (location : str) :
  length (_deep_clean_location location) ≤ length location ∧
  strip_chars (_deep_clean_location location) edge_chars
  = _deep_clean_location location ∧
  free_of (char_in cut_chars) (_deep_clean_location location) = true.
Proof.
  assert (H : length (_deep_clean_location location) ≤ length location ∧
              starts_off (char_in edge_chars) (_deep_clean_location location)
              = true ∧
              ends_off (char_in edge_chars) (_deep_clean_location location)
              = true ∧
              free_of (char_in cut_chars) (_deep_clean_location location)
              = true).
  { unfold _deep_clean_location.
    destruct (negb (truthy location)); [by (split; [cbn; lia|])|].
    cbv zeta. pose proof (deep_clean_rounds_shape location) as Hr.
    destruct (negb (truthy (deep_clean_rounds location)) ||
              Nat.ltb (length (deep_clean_rounds location)) 2); [|done].
    destruct (core_location location) as [wl|] eqn:Hc; [|done].
    apply core_location_Some in Hc as [Hl Ht]. unfold tidy in Ht.
    apply andb_true_iff in Ht as [[Hs He]%andb_true_iff Hf]. done. }
  destruct H as (Hl & Hs & He & Hf). split; [done|]. split; [|done].
  by apply strip_by_id.
Qed.

(** *** [_clean_location_suffix] *)

Lemma drop_suffix_length (suffixes : list str) (cleaned : str) :
  length (drop_suffix suffixes cleaned) ≤ length cleaned.
Proof.
  induction suffixes as [|suffix suffixes IH]; [done|]. cbn [drop_suffix].
  destruct (endswith cleaned suffix); [|done].
  etrans; [apply strip_by_length|]. rewrite length_take. lia.
Qed.

Lemma until_stable_length (step : str → str) :
  (∀ y, length (step y) ≤ length y) →
  ∀ n y, length (until_stable n step y) ≤ length y.
Proof.
  intros Hstep. induction n as [|n IH]; intros y; [done|].
  cbn [until_stable]. cbv zeta.
  destruct (str_eqb (step y) y); [apply Hstep|].
  etrans; [apply IH|apply Hstep].
Qed.

(** X3.  [_clean_location_suffix] never lengthens a text, never returns
    an empty text for a text that is not empty, and never brings a text of
    two characters or more below two characters. *)
Theorem _clean_location_suffix_bounds (location : str) :
  length (_clean_location_suffix location) ≤ length location ∧
  (location ≠ [] → _clean_location_suffix location ≠ []) ∧
  (2 ≤ length location → 2 ≤ length (_clean_location_suffix location)).
Proof.
  unfold _clean_location_suffix.
  pose proof (until_stable_length (drop_suffix business_suffixes)
                (drop_suffix_length business_suffixes) 3 location) as L.
  fold (suffix_rounds location) in L.
  destruct (negb (truthy location)); [done|]. cbv zeta.
  destruct (Nat.ltb (length (suffix_rounds location)) 2) eqn:Hlt; [done|].
  apply Nat.ltb_ge in Hlt. split; [done|]. split; [|done].
  intros _ E. rewrite E in Hlt. cbn in Hlt. lia.
Qed.

(* ===================================================================== *)
(** ** Normalization: lengths and repeated passes *)
(* ===================================================================== *)

Lemma normalize_location_length (x : str) :
  length (normalize_location x) ≤ length x.
Proof.
  destruct (decide (x = [])) as [->|Hx]; [done|].
  unfold normalize_location. rewrite (truthy_ne _ Hx). cbn [negb].
  etrans; [apply apply_rules_le, location_normalization_map_ok|].
  apply strip_by_length.
Qed.

(** X4.  [normalize_location] never lengthens a text, and the text it
    returns has no blank at either end. *)
Theorem normalize_location_shape (x : str) :
  length (normalize_location x) ≤ length x ∧
  strip (normalize_location x) = normalize_location x.
Proof.
  split; [apply normalize_location_length|].
  destruct (decide (x = [])) as [->|Hx]; [done|].
  destruct (normalize_location_clean x Hx). by apply strip_fixed.
Qed.

Lemma iter_S (f : str → str) (n : nat) (y : str) :
  Nat.iter (S n) f y = f (Nat.iter n f y).
Proof. reflexivity. Qed.

Lemma iter_fixed (f : str → str) (n : nat) (y : str) :
  f y = y → Nat.iter n f y = y.
Proof.
  intros H. induction n as [|n IH]; [done|]. by rewrite iter_S, IH.
Qed.

Lemma iter_shift (f : str → str) (n : nat) (y : str) :
  f (Nat.iter n f y) = Nat.iter n f (f y).
Proof.
  induction n as [|n IH]; [done|]. by rewrite !iter_S, IH.
Qed.

(** From a normalized text, as many passes as it has characters reach a
    text that a further pass leaves unchanged. *)
Lemma normalize_location_settles (m : nat) :
  ∀ x, length (normalize_location x) ≤ m →
       normalize_location (Nat.iter m normalize_location (normalize_location x))
       = Nat.iter m normalize_location (normalize_location x).
Proof.
  induction m as [|m IH]; intros x Hlen.
  - change (Nat.iter 0 normalize_location (normalize_location x))
      with (normalize_location x).
    destruct (normalize_location x); [done|cbn in Hlen; lia].
  - destruct (decide (length (normalize_location x)
                      ≤ length (normalize_location (normalize_location x))))
      as [Hge|Hlt].
    + assert (Hfix : normalize_location (normalize_location x)
                     = normalize_location x).
      { rewrite normalize_location_twice in *.
        by apply apply_rules_same_length;
          [apply location_normalization_map_ok|]. }
      by rewrite (iter_fixed _ _ _ Hfix).
    + rewrite iter_S, iter_shift. apply IH. lia.
Qed.

(** X5.  For every text x, after length(x) + 1 passes of
    [normalize_location] a further pass changes nothing: repeated
    normalization always reaches a fixed point, within that many passes. *)
Theorem normalize_location_reaches_fixed_point (x : str) :
  normalize_location (Nat.iter (S (length x)) normalize_location x)
  = Nat.iter (S (length x)) normalize_location x.
Proof.
  rewrite iter_S, iter_shift.
  apply normalize_location_settles. apply normalize_location_length.
Qed.


(* ===================================================================== *)
(** ** Route extraction: what a result can contain *)
(* ===================================================================== *)

Lemma is_valid_location_truthy (s : str) :
  is_valid_location s = true → truthy s = true.
Proof. unfold is_valid_location. by destruct (truthy s). Qed.

Lemma first_some_Some {A B} (f : A → option B) (l : list A) (y : B) :
  first_some f l = Some y → ∃ x, x ∈ l ∧ f x = Some y.
Proof.
  induction l as [|x l IH]; [done|]. cbn [first_some].
  destruct (f x) as [z|] eqn:Hx.
  - intros [= ->]. exists x. split; [by left|done].
  - intros H. destruct (IH H) as (x' & Hin & Hf). exists x'.
    split; [by right|done].
Qed.

Lemma valid_parts_valid (text sep p : str) :
  p ∈ valid_parts text sep → is_valid_location p = true.
Proof.
  unfold valid_parts. cbv zeta. rewrite list_elem_of_filter.
  intros [H _]. by apply andb_true_iff in H as [_ H].
Qed.

(** The places of a separator split are valid. *)
Lemma _manual_split_route_valid (text : str) (rp : route_parts) :
  _manual_split_route text = Some rp →
  is_valid_location (rp_origin rp) = true ∧
  is_valid_location (rp_destination rp) = true ∧
  (∀ v, rp_via rp = Some v → is_valid_location v = true) ∧
  rp_trade_remark rp = None.
Proof.
  unfold _manual_split_route. intros H.
  apply first_some_Some in H as (sep & _ & H).
  pose proof (valid_parts_valid text sep) as Hv.
  unfold split_on in H.
  destruct (str_in sep text); [|done].
  destruct (Nat.leb 2 (length (split text sep))); [|done].
  destruct (valid_parts text sep) as [|o [|d rest]]; try done.
  injection H as <-. cbn [rp_origin rp_destination rp_via rp_trade_remark].
  split; [apply Hv; by left|]. split; [apply Hv; right; by left|].
  split; [|done]. intros v Hhead. apply Hv. right. right.
  destruct rest as [|v' rest]; [done|]. injection Hhead as ->. by left.
Qed.

(** The places of any extracted route are valid; a via may also be the
    empty text. *)
Lemma _extract_route_parts_valid (text : str) (rp : route_parts) :
  _extract_route_parts text = Some rp →
  is_valid_location (rp_origin rp) = true ∧
  is_valid_location (rp_destination rp) = true ∧
  (∀ v, rp_via rp = Some v → v = [] ∨ is_valid_location v = true).
Proof.
  assert (Hm : _manual_split_route text = Some rp →
               is_valid_location (rp_origin rp) = true ∧
               is_valid_location (rp_destination rp) = true ∧
               (∀ v, rp_via rp = Some v → v = [] ∨ is_valid_location v = true)).
  { intros H. destruct (_manual_split_route_valid _ _ H) as (Ho & Hd & Hv & _).
    split; [exact Ho|]. split; [exact Hd|]. intros v E. right. by apply Hv. }
  unfold _extract_route_parts.
  destruct (re_search RouteExtractor.route_pattern text) as [m|]; [|exact Hm].
  cbv zeta.
  generalize (trade_remark_after text m). intros tr.
  destruct (m_group m 5) as [t|]; cbn [option_map].
  - generalize (_deep_clean_location (default [] (m_group m 1))). intros o.
    generalize (_deep_clean_location (default [] (m_group m 3))). intros w.
    generalize (_deep_clean_location t). intros d.
    destruct (is_valid_location o) eqn:Ho; cbn [andb]; [|exact Hm].
    destruct (truthy o); cbn [andb]; [|exact Hm].
    destruct (is_valid_location d) eqn:Hd; cbn [andb]; [|exact Hm].
    destruct (truthy d); [|exact Hm].
    clear Hm. intros [= <-]. cbn [rp_origin rp_destination rp_via].
    split; [exact Ho|]. split; [exact Hd|]. intros v.
    destruct (truthy w) eqn:Hw; cbn [andb].
    + destruct (is_valid_location w) eqn:Hvw; cbn [negb]; [|discriminate].
      intros [= <-]. right. exact Hvw.
    + intros [= <-]. left. destruct w; [reflexivity|discriminate].
  - generalize (_deep_clean_location (default [] (m_group m 1))). intros o.
    generalize (_deep_clean_location (default [] (m_group m 3))). intros w.
    destruct (is_valid_location o) eqn:Ho; cbn [andb]; [|exact Hm].
    destruct (truthy o); cbn [andb]; [|exact Hm].
    destruct (is_valid_location w) eqn:Hd; cbn [andb]; [|exact Hm].
    destruct (truthy w); [|exact Hm].
    clear Hm. intros [= <-]. cbn [rp_origin rp_destination rp_via].
    split; [exact Ho|]. split; [exact Hd|]. intros v. discriminate.
Qed.

(** The result of [extract_route] when route parts were found. *)
Lemma extract_route_with_parts (text : str) (fallback_start : option str)
    (rp : route_parts) :
  truthy text = true →
  _extract_route_parts text = Some rp →
  origin (extract_route text fallback_start) = Some (rp_origin rp) ∧
  destination (extract_route text fallback_start) = Some (rp_destination rp) ∧
  via (extract_route text fallback_start) = rp_via rp ∧
  trade_remark (extract_route text fallback_start) = rp_trade_remark rp.
Proof.
  intros Ht Hp. destruct (_extract_route_parts_valid _ _ Hp) as (Ho & _ & _).
  apply is_valid_location_truthy in Ho.
  unfold extract_route. rewrite Ht, Hp. cbn [negb]. cbv zeta.
  cbn [option_map opt_truthy mbind option_bind]. rewrite Ho.
  cbn [negb andb]. done.
Qed.

(** The result of [extract_route] when no route parts were found. *)
Lemma extract_route_without_parts (text : str) (fallback_start : option str) :
  _extract_route_parts text = None ∨ truthy text = false →
  destination (extract_route text fallback_start) = None ∧
  via (extract_route text fallback_start) = None ∧
  trade_remark (extract_route text fallback_start) = None ∧
  (∀ o, origin (extract_route text fallback_start) = Some o →
        is_valid_location o = true ∧
        ∃ fs, fallback_start = Some fs ∧ o = _deep_clean_location fs).
Proof.
  intros H. unfold extract_route.
  destruct (truthy text) eqn:Ht; cbn [negb]; [|done].
  destruct H as [Hp|?]; [|done]. rewrite Hp. cbv zeta.
  cbn [option_map opt_truthy mbind option_bind negb andb].
  split; [done|]. split; [done|]. split; [done|].
  destruct fallback_start as [fs|]; cbn [opt_truthy origin]; [|done].
  destruct (truthy fs); [|done]. cbn [default from_option id].
  destruct (is_valid_location (_deep_clean_location fs)) eqn:Hv; [|done].
  intros o [= <-]. split; [done|]. by exists fs.
Qed.

(** X6.  Every origin and destination returned by [extract_route] passes
    the reference test [is_valid_location], and a via that is returned is
    either the empty text or passes it. *)
Theorem extract_route_places_valid (text : str) (fallback_start : option str) :
  (∀ o, origin (extract_route text fallback_start) = Some o →
        is_valid_location o = true) ∧
  (∀ d, destination (extract_route text fallback_start) = Some d →
        is_valid_location d = true) ∧
  (∀ v, via (extract_route text fallback_start) = Some v →
        v = [] ∨ is_valid_location v = true).
Proof.
  destruct (truthy text) eqn:Ht.
  - destruct (_extract_route_parts text) as [rp|] eqn:Hp.
    + destruct (extract_route_with_parts text fallback_start rp Ht Hp)
        as (-> & -> & -> & _).
      destruct (_extract_route_parts_valid _ _ Hp) as (Ho & Hd & Hv).
      split; [by intros o [= <-]|]. split; [by intros d [= <-]|]. done.
    + destruct (extract_route_without_parts text fallback_start (or_introl Hp))
        as (-> & -> & _ & Ho).
      split; [intros o E; by apply Ho|]. done.
  - destruct (extract_route_without_parts text fallback_start (or_intror Ht))
      as (-> & -> & _ & Ho).
    split; [intros o E; by apply Ho|]. done.
Qed.

(** X7.  [extract_route] never returns a destination without an origin:
    a destination comes with a non-empty origin, and when there is no
    destination there is no via and no trade remark either, the origin
    being then none or the cleaned fallback name. *)
Theorem extract_route_destination_needs_origin (text : str)
    (fallback_start : option str) :
  (∀ d, destination (extract_route text fallback_start) = Some d →
        d ≠ [] ∧
        ∃ o, origin (extract_route text fallback_start) = Some o ∧ o ≠ []) ∧
  (destination (extract_route text fallback_start) = None →
   via (extract_route text fallback_start) = None ∧
   trade_remark (extract_route text fallback_start) = None ∧
   ∀ o, origin (extract_route text fallback_start) = Some o →
        ∃ fs, fallback_start = Some fs ∧ o = _deep_clean_location fs).
Proof.
  assert (Hne : ∀ s, is_valid_location s = true → s ≠ []).
  { intros s H%is_valid_location_truthy ->. done. }
  destruct (truthy text) eqn:Ht.
  - destruct (_extract_route_parts text) as [rp|] eqn:Hp.
    + destruct (extract_route_with_parts text fallback_start rp Ht Hp)
        as (-> & -> & _ & _).
      destruct (_extract_route_parts_valid _ _ Hp) as (Ho & Hd & _).
      split; [|done]. intros d [= <-]. split; [by apply Hne|].
      exists (rp_origin rp). split; [done|by apply Hne].
    + destruct (extract_route_without_parts text fallback_start (or_introl Hp))
        as (-> & -> & -> & Ho).
      split; [done|]. intros _. split; [done|]. split; [done|].
      intros o E. by destruct (Ho o E).
  - destruct (extract_route_without_parts text fallback_start (or_intror Ht))
      as (-> & -> & -> & Ho).
    split; [done|]. intros _. split; [done|]. split; [done|].
    intros o E. by destruct (Ho o E).
Qed.

(* ===================================================================== *)
(** ** The raw key of a route *)
(* ===================================================================== *)

Lemma split_at_inj (p : N → bool) (c : N) (a a' b b' : str) :
  p c = true → free_of p a = true → free_of p a' = true →
  a ++ c :: b = a' ++ c :: b' → a = a' ∧ b = b'.
Proof.
  intros Hc. revert a'. induction a as [|x a IH]; intros [|x' a'] Ha Ha' E.
  - by injection E.
  - injection E as <- _. cbn in Ha'. rewrite Hc in Ha'. discriminate.
  - injection E as -> _. cbn in Ha. rewrite Hc in Ha. discriminate.
  - injection E as -> E. cbn in Ha, Ha'.
    apply andb_true_iff in Ha as [_ Ha]. apply andb_true_iff in Ha' as [_ Ha'].
    destruct (IH a' Ha Ha' E) as [-> ->]. done.
Qed.

Lemma get_unique_key_unfold (r : Route) :
  get_unique_key r
  = fmt (r_origin r) ++ 124%N ::
    fmt (r_destination r) ++ 124%N ::
    fmt (r_via r) ++ 124%N :: fmt (r_sheet_name r).
Proof. reflexivity. Qed.

(** X8.  For routes whose origin, destination and via renderings contain
    no bar, the raw key determines the four renderings it is made of: two
    such routes have the same key exactly when they have the same origin,
    destination, via and sheet-name renderings. *)
Theorem get_unique_key_injective (r1 r2 : Route) :
  bar_free r1 = true → bar_free r2 = true →
  get_unique_key r1 = get_unique_key r2 ↔
  fmt (r_origin r1) = fmt (r_origin r2) ∧
  fmt (r_destination r1) = fmt (r_destination r2) ∧
  fmt (r_via r1) = fmt (r_via r2) ∧
  fmt (r_sheet_name r1) = fmt (r_sheet_name r2).
Proof.
  unfold bar_free. intros [[Ho1 Hd1]%andb_true_iff Hv1]%andb_true_iff.
  intros [[Ho2 Hd2]%andb_true_iff Hv2]%andb_true_iff.
  rewrite !get_unique_key_unfold. split.
  - intros E.
    apply (split_at_inj (char_in bar)) in E as [Eo E]; [|done..].
    apply (split_at_inj (char_in bar)) in E as [Ed E]; [|done..].
    apply (split_at_inj (char_in bar)) in E as [Ev E]; [|done..].
    done.
  - intros (-> & -> & -> & ->). done.
Qed.

Lemma get_unique_key_injective_witness :
  get_unique_key (route_of shenzhen hongkong (Some order1))
  ≠ get_unique_key (route_of hongkong shenzhen (Some order1)).
Proof.
  intros E.
  apply (get_unique_key_injective
           (route_of shenzhen hongkong (Some order1))
           (route_of hongkong shenzhen (Some order1))) in E;
    [|vm_compute; reflexivity..].
  destruct E as [E _]. vm_compute in E. discriminate.
Defined.

(* ===================================================================== *)
(** ** Table spans: geometry and headers *)
(* ===================================================================== *)

Lemma tiles_snoc (bs : list span) (n e : nat) (t : str) :
  tiles bs n → n ≤ e → tiles (bs ++ [(n, e, t)]) (S e).
Proof.
  intros H Hle. induction bs as [|b bs IH]; [cbn; done|].
  destruct H as (H1 & H2 & H3). cbn [app tiles]. split; [done|]. split.
  - destruct bs; [done|done].
  - by apply IH.
Qed.

Lemma tiles_extend (bs : list span) (s e e' n : nat) (t : str) :
  tiles (bs ++ [(s, e, t)]) n → s ≤ e' → tiles (bs ++ [(s, e', t)]) (S e').
Proof.
  intros H Hle. induction bs as [|b bs IH]; [cbn; done|].
  destruct H as (H1 & H2 & H3). cbn [app tiles]. split; [done|]. split.
  - destruct bs; done.
  - by apply IH.
Qed.

Lemma tiles_elem (bs : list span) (n : nat) :
  tiles bs n → ∀ b, b ∈ bs → fst (fst b) ≤ snd (fst b) ∧ snd (fst b) < n.
Proof.
  induction bs as [|b0 bs IH]; intros H b Hb; [by apply elem_of_nil in Hb|].
  destruct H as (H1 & H2 & H3).
  assert (Hhead : snd (fst b0) < n).
  { destruct bs as [|b1 bs']; [lia|].
    assert (Hin : b1 ∈ b1 :: bs') by (apply elem_of_cons; by left).
    destruct (IH H3 b1 Hin) as [? ?]. lia. }
  apply elem_of_cons in Hb as [->|Hb]; [done|]. by apply IH.
Qed.

Lemma scanned_cell_Some (r : row) (first_cell : str) :
  scanned_cell r = Some first_cell →
  ∃ c rest, r = c :: rest ∧ c ≠ [] ∧ first_cell = strip c.
Proof.
  unfold scanned_cell. destruct r as [|c rest]; [discriminate|].
  destruct c as [|c0 c']; [discriminate|]. cbn [truthy]. cbv zeta.
  destruct (Nat.ltb 80 _); [discriminate|]. intros [= <-].
  exists (c0 :: c'), rest. done.
Qed.

Lemma scan_inv_next (sheet_data : sheet) (st : scan_state) (row_idx : nat) :
  scan_inv sheet_data st row_idx → scan_inv sheet_data st (S row_idx).
Proof.
  intros (Ht & Hc & Hn & Hh). unfold scan_inv, closed_at in *.
  destruct (current st) as [[cs t]|] eqn:Hcur.
  - specialize (Hc cs t eq_refl).
    replace (S row_idx - 1) with row_idx by lia.
    split; [|split; [|split]].
    + apply (tiles_extend _ _ _ _ _ _ Ht). lia.
    + intros cs' t' [= <- <-]. lia.
    + discriminate.
    + intros b [Hb|Hb]%elem_of_app.
      * apply Hh, elem_of_app. by left.
      * apply list_elem_of_singleton in Hb as ->.
        destruct (Hh (cs, row_idx - 1, t)) as (c & rest & H1 & H2 & H3).
        { apply elem_of_app. right. by apply list_elem_of_singleton. }
        by exists c, rest.
  - rewrite (Hn eq_refl) in *. split; [done|]. split; [discriminate|].
    split; [done|]. intros b Hb. by apply elem_of_nil in Hb.
Qed.

Lemma scan_row_inv (sheet_data : sheet) (st : scan_state) (row_idx : nat)
    (r : row) :
  sheet_data !! row_idx = Some r →
  scan_inv sheet_data st row_idx →
  scan_inv sheet_data (scan_row sheet_data st row_idx r) (S row_idx).
Proof.
  intros Hr Hinv. unfold scan_row.
  destruct (scanned_cell r) as [first_cell|] eqn:Hsc;
    [|by apply scan_inv_next].
  destruct (is_valid_title sheet_data row_idx first_cell);
    [|by apply scan_inv_next].
  apply scanned_cell_Some in Hsc as (c & rest & -> & Hc & ->).
  destruct Hinv as (Ht & Hcur & Hn & Hh).
  assert (Hnew : headed sheet_data (row_idx, row_idx, strip c)).
  { by exists c, rest. }
  unfold scan_inv, closed_at in *. cbn [current boundaries].
  replace (S row_idx - 1) with row_idx by lia.
  split; [|split; [|split]].
  - destruct (current st) as [[cs t]|].
    + by apply tiles_snoc.
    + rewrite (Hn eq_refl). cbn. done.
  - intros cs' t' [= <- _]. lia.
  - discriminate.
  - intros b [Hb|Hb]%elem_of_app.
    + apply Hh. by destruct (current st) as [[cs t]|].
    + by apply list_elem_of_singleton in Hb as ->.
Qed.

Lemma scan_rows_inv (sheet_data : sheet) (rows : list row) :
  ∀ st row_idx,
    (∀ k r, rows !! k = Some r → sheet_data !! (row_idx + k) = Some r) →
    scan_inv sheet_data st row_idx →
    scan_inv sheet_data (scan_rows sheet_data st row_idx rows)
             (row_idx + length rows).
Proof.
  induction rows as [|r rows IH]; intros st row_idx Hrows Hinv.
  - cbn [scan_rows length]. by rewrite Nat.add_0_r.
  - cbn [scan_rows length]. rewrite Nat.add_succ_r, <- Nat.add_succ_l.
    apply IH.
    + intros k r' Hk. rewrite Nat.add_succ_l, <- Nat.add_succ_r.
      by apply Hrows.
    + apply scan_row_inv; [|done]. rewrite <- (Nat.add_0_r row_idx).
      by apply Hrows.
Qed.

Lemma scan_boundaries_inv (sheet_data : sheet) :
  tiles (scan_boundaries sheet_data) (length sheet_data) ∧
  ∀ b, b ∈ scan_boundaries sheet_data → headed sheet_data b.
Proof.
  destruct (scan_rows_inv sheet_data sheet_data (ScanState [] None) 0)
    as (Ht & _ & _ & Hh).
  - intros k r Hk. exact Hk.
  - split; [cbn; done|]. split; [discriminate|]. split; [done|].
    intros b Hb. by apply elem_of_nil in Hb.
  - split; [exact Ht|exact Hh].
Qed.

Lemma first_row_boundary_inv (sheet_data : sheet) :
  tiles (first_row_boundary sheet_data) (length sheet_data) ∧
  ∀ b, b ∈ first_row_boundary sheet_data → headed sheet_data b.
Proof.
  assert (Hnil : tiles [] (length sheet_data) ∧
                 ∀ b, b ∈ [] → headed sheet_data b).
  { split; [done|]. intros b Hb. by apply elem_of_nil in Hb. }
  unfold first_row_boundary.
  destruct sheet_data as [|[|c r] rows]; [exact Hnil..|]. cbv zeta.
  destruct (truthy (before_bar (strip c)) &&
            Nat.ltb (length (before_bar (strip c))) 100) eqn:E;
    [|exact Hnil].
  destruct (re_search HorizontalTableParser.route_pattern _); [|exact Hnil].
  split.
  - cbn [tiles fst snd length]. lia.
  - intros b Hb. apply list_elem_of_singleton in Hb as ->.
    exists c, r. split; [done|]. split; [|done].
    intros ->. vm_compute in E. discriminate.
Qed.

(** X9.  The spans returned by [_find_table_boundaries] are in order and
    do not overlap: every span has at least one row and lies within the
    sheet, each span ends on the row before the next one starts, and the
    last span ends on the last row of the sheet.  Every span starts on a
    row whose first cell is not empty, and the text of the span is that
    cell, trimmed. *)
Theorem _find_table_boundaries_tiles (sheet_data : sheet) :
  tiles (_find_table_boundaries sheet_data) (length sheet_data) ∧
  (∀ s e t, (s, e, t) ∈ _find_table_boundaries sheet_data →
            s ≤ e ∧ e < length sheet_data ∧
            ∃ c rest, sheet_data !! s = Some (c :: rest) ∧ c ≠ [] ∧
                      t = strip c).
Proof.
  assert (H : tiles (_find_table_boundaries sheet_data) (length sheet_data) ∧
              ∀ b, b ∈ _find_table_boundaries sheet_data →
                   headed sheet_data b).
  { unfold _find_table_boundaries.
    pose proof (scan_boundaries_inv sheet_data) as Hs.
    destruct (scan_boundaries sheet_data) as [|b bs]; [|exact Hs].
    apply first_row_boundary_inv. }
  destruct H as [Ht Hh]. split; [exact Ht|]. intros s e t Hb.
  destruct (tiles_elem _ _ Ht _ Hb) as [H1 H2].
  destruct (Hh _ Hb) as (c & rest & H3 & H4 & H5).
  split; [exact H1|]. split; [exact H2|]. by exists c, rest.
Qed.

(* ===================================================================== *)
(** ** Cells and the structure of a table *)
(* ===================================================================== *)

(** X10.  A cell returned by [_get_cell] is the trimmed text of a cell of
    the table: it is never empty, has no blank at either end, and is
    neither "nan" nor "none" in any letter case. *)
Theorem _get_cell_trimmed (table_data : sheet) (row_idx col_idx : nat)
    (a : str) :
  _get_cell table_data row_idx col_idx = Some a →
  a ≠ [] ∧ strip a = a ∧ lower a ≠ u "nan" ∧ lower a ≠ u "none" ∧
  ∃ r cell, table_data !! row_idx = Some r ∧ r !! col_idx = Some cell ∧
            a = strip cell.
Proof.
  intros H. destruct (_get_cell_Some _ _ _ _ H) as (Hne & Hs & _).
  split; [exact Hne|]. split; [exact Hs|].
  unfold _get_cell in H.
  destruct (table_data !! row_idx) as [r|]; [|discriminate].
  destruct (r !! col_idx) as [cell|] eqn:Hcell; [|discriminate].
  destruct (existsb (str_eqb (lower (strip cell))) blanks) eqn:Hb;
    [discriminate|].
  injection H as <-.
  assert (Hnot : ∀ x, In x blanks → lower (strip cell) ≠ x).
  { intros x Hx E.
    assert (existsb (str_eqb (lower (strip cell))) blanks = true) as Ht.
    { apply existsb_exists. exists x. split; [exact Hx|].
      unfold str_eqb. by apply bool_decide_eq_true. }
    rewrite Ht in Hb. discriminate. }
  split; [apply Hnot; left; reflexivity|].
  split; [apply Hnot; right; left; reflexivity|].
  by exists r, cell.
Qed.

Lemma _get_cell_trimmed_witness :
  ∃ a, _get_cell three_agents_sheet 1 1 = Some a ∧ a ≠ [] ∧ strip a = a.
Proof.
  exists (u "甲公司").
  destruct (_get_cell_trimmed three_agents_sheet 1 1 (u "甲公司"))
    as (H1 & H2 & _); [vm_compute; reflexivity|].
  split; [vm_compute; reflexivity|]. split; [exact H1|exact H2].
Defined.

Lemma find_agent_row_Some (table_data : sheet) (rows : list row) :
  ∀ start i,
    find_agent_row table_data start rows = Some i →
    start ≤ i ∧
    (∃ r, rows !! (i - start) = Some r ∧ is_agent_row table_data i r = true) ∧
    ∀ j r, start ≤ j → j < i → rows !! (j - start) = Some r →
           is_agent_row table_data j r = false.
Proof.
  induction rows as [|r0 rows IH]; intros start i; [discriminate|].
  cbn [find_agent_row].
  destruct (is_agent_row table_data start r0) eqn:Ha.
  - intros [= <-]. split; [lia|]. split.
    + exists r0. by rewrite Nat.sub_diag.
    + intros j r Hj1 Hj2. lia.
  - intros H. destruct (IH _ _ H) as (Hle & (r & Hr & Hag) & Hbefore).
    split; [lia|]. split.
    + exists r. split; [|exact Hag].
      replace (i - start) with (S (i - S start)) by lia. exact Hr.
    + intros j r' Hj1 Hj2 Hr'.
      destruct (decide (j = start)) as [->|Hne].
      * rewrite Nat.sub_diag in Hr'. injection Hr' as <-. exact Ha.
      * apply (Hbefore j r'); [lia|lia|].
        replace (j - start) with (S (j - S start)) in Hr' by lia. exact Hr'.
Qed.

Lemma find_agent_row_None (table_data : sheet) (rows : list row) :
  ∀ start,
    find_agent_row table_data start rows = None →
    ∀ j r, start ≤ j → rows !! (j - start) = Some r →
           is_agent_row table_data j r = false.
Proof.
  induction rows as [|r0 rows IH]; intros start H j r Hj Hr; [done|].
  cbn [find_agent_row] in H.
  destruct (is_agent_row table_data start r0) eqn:Ha; [discriminate|].
  destruct (decide (j = start)) as [->|Hne].
  - rewrite Nat.sub_diag in Hr. injection Hr as <-. exact Ha.
  - apply (IH _ H j r); [lia|].
    replace (j - start) with (S (j - S start)) in Hr by lia. exact Hr.
Qed.

Lemma max_length_bound (rows : list row) (r : row) :
  r ∈ rows → length r ≤ foldr Nat.max 0 (map length rows).
Proof.
  induction rows as [|r0 rows IH]; intros Hr; [by apply elem_of_nil in Hr|].
  cbn [map foldr]. apply elem_of_cons in Hr as [->|Hr]; [lia|].
  specialize (IH Hr). lia.
Qed.

Lemma max_length_reached (rows : list row) :
  rows ≠ [] →
  ∃ r, r ∈ rows ∧ length r = foldr Nat.max 0 (map length rows).
Proof.
  induction rows as [|r0 rows IH]; intros Hne; [done|].
  cbn [map foldr]. destruct rows as [|r1 rows'].
  - exists r0. split; [apply elem_of_cons; by left|]. cbn. lia.
  - destruct IH as (r & Hr & Hlen); [done|].
    destruct (Nat.max_spec (length r0)
                (foldr Nat.max 0 (map length (r1 :: rows')))) as [[_ E]|[_ E]].
    + exists r. split; [apply elem_of_cons; by right|]. lia.
    + exists r0. split; [apply elem_of_cons; by left|]. lia.
Qed.

(** X11.  For a table with a row that is not empty, [_identify_structure]
    returns as number of columns the length of a longest row, and as agent
    row the first row that passes the agent-row test: no agent row is
    reported exactly when no row passes the test. *)
Theorem _identify_structure_first_agent_row (table_data : sheet) :
  (∃ r, r ∈ table_data ∧ r ≠ []) →
  ∃ st, _identify_structure table_data = Some st ∧
        (∀ r, r ∈ table_data → length r ≤ num_cols st) ∧
        (∃ r, r ∈ table_data ∧ length r = num_cols st) ∧
        match agent_row st with
        | Some i =>
            (∃ r, table_data !! i = Some r ∧
                  is_agent_row table_data i r = true) ∧
            ∀ j r, j < i → table_data !! j = Some r →
                   is_agent_row table_data j r = false
        | None =>
            ∀ j r, table_data !! j = Some r →
                   is_agent_row table_data j r = false
        end.
Proof.
  intros (r0 & Hr0 & _).
  assert (Hne : table_data ≠ []).
  { intros ->. by apply elem_of_nil in Hr0. }
  exists (Structure (foldr Nat.max 0 (map length table_data))
                    (find_agent_row table_data 0 table_data)).
  split; [by destruct table_data|]. cbn [num_cols agent_row].
  split; [intros r Hr; by apply max_length_bound|].
  split; [by apply max_length_reached|].
  destruct (find_agent_row table_data 0 table_data) as [i|] eqn:Hf.
  - destruct (find_agent_row_Some _ _ _ _ Hf) as (_ & (r & Hr & Ha) & Hb).
    rewrite Nat.sub_0_r in Hr. split; [by exists r|].
    intros j r' Hj Hr'. apply (Hb j r'); [lia|done|].
    by rewrite Nat.sub_0_r.
  - intros j r Hr. apply (find_agent_row_None _ _ _ Hf j r); [lia|].
    by rewrite Nat.sub_0_r.
Qed.

Lemma _identify_structure_first_agent_row_witness :
  ∃ st, _identify_structure three_agents_sheet = Some st ∧ num_cols st = 4 ∧
        agent_row st = Some 1.
Proof.
  destruct (_identify_structure_first_agent_row three_agents_sheet)
    as (st & Hst & _).
  - exists (default [] (head three_agents_sheet)).
    split; [vm_compute; apply elem_of_cons; by left|vm_compute; discriminate].
  - exists st. split; [exact Hst|].
    vm_compute in Hst. injection Hst as <-. split; reflexivity.
Defined.

(* ===================================================================== *)
(** ** The route of a span and the quotes of a table *)
(* ===================================================================== *)

Lemma extract_route_destination_Some (text : str) (fallback_start : option str)
    (d : str) :
  destination (extract_route text fallback_start) = Some d →
  truthy d = true ∧
  ∃ o, origin (extract_route text fallback_start) = Some o ∧ truthy o = true.
Proof.
  intros H. destruct (truthy text) eqn:Ht.
  - destruct (_extract_route_parts text) as [rp|] eqn:Hp.
    + destruct (extract_route_with_parts text fallback_start rp Ht Hp)
        as (Eo & Ed & _).
      rewrite Ed in H. injection H as <-.
      destruct (_extract_route_parts_valid _ _ Hp) as (Ho & Hd & _).
      split; [by apply is_valid_location_truthy|].
      exists (rp_origin rp). split; [exact Eo|].
      by apply is_valid_location_truthy.
    + destruct (extract_route_without_parts text fallback_start (or_introl Hp))
        as (Ed & _).
      rewrite Ed in H. discriminate.
  - destruct (extract_route_without_parts text fallback_start (or_intror Ht))
      as (Ed & _).
    rewrite Ed in H. discriminate.
Qed.

Lemma _clean_location_suffix_truthy (location : str) :
  truthy location = true → truthy (_clean_location_suffix location) = true.
Proof.
  intros H. unfold _clean_location_suffix. rewrite H. cbn [negb]. cbv zeta.
  destruct (Nat.ltb (length (suffix_rounds location)) 2) eqn:E; [exact H|].
  apply Nat.ltb_ge in E.
  destruct (suffix_rounds location); [cbn in E; lia|reflexivity].
Qed.

Lemma _extract_route_from_text_meta (text : str) (sheet_name : option str) :
  r_sheet_name (_extract_route_from_text text sheet_name) = sheet_name ∧
  r_start_date (_extract_route_from_text text sheet_name) = None ∧
  r_end_date (_extract_route_from_text text sheet_name) = None.
Proof.
  unfold _extract_route_from_text. cbv zeta.
  destruct (negb (truthy text));
    cbn [r_sheet_name r_start_date r_end_date];
    (split; [exact eq_refl|split; exact eq_refl]).
Qed.

Lemma _extract_route_from_text_ends (text : str) (sheet_name : option str) :
  opt_truthy (r_destination (_extract_route_from_text text sheet_name)) = true →
  opt_truthy (r_origin (_extract_route_from_text text sheet_name)) = true.
Proof.
  unfold _extract_route_from_text. cbv zeta.
  destruct (negb (truthy text)); cbn [r_destination r_origin];
    [discriminate|].
  generalize (extract_route_destination_Some
                (strip (rstrip_chars (before_bar text) colons)) sheet_name).
  generalize (extract_route (strip (rstrip_chars (before_bar text) colons))
                            sheet_name).
  intros ri Hri. destruct (destination ri) as [d|]; cbn [opt_truthy].
  - destruct (Hri d eq_refl) as (Hd & o & Ho & Hot). rewrite Ho.
    intros _. exact Hot.
  - discriminate.
Qed.

Lemma resolve_base_route_unfold (route_text : str) (sheet_name : option str) :
  resolve_base_route route_text sheet_name
  = if negb (opt_truthy
               (r_destination (_extract_route_from_text route_text sheet_name)))
       && opt_truthy sheet_name
       && opt_truthy
            (r_origin
               (_extract_route_from_text (default [] sheet_name) sheet_name))
       && opt_truthy
            (r_destination
               (_extract_route_from_text (default [] sheet_name) sheet_name))
    then Some (_extract_route_from_text (default [] sheet_name) sheet_name)
    else if opt_truthy
              (r_origin (_extract_route_from_text route_text sheet_name))
    then Some (_extract_route_from_text route_text sheet_name)
    else None.
Proof.
  unfold resolve_base_route. cbv zeta.
  generalize (_extract_route_from_text_ends route_text sheet_name).
  generalize (_extract_route_from_text route_text sheet_name).
  generalize (_extract_route_from_text (default [] sheet_name) sheet_name).
  intros sheet_route base_route Hends.
  destruct (opt_truthy (r_destination base_route)).
  - rewrite (Hends eq_refl). cbn [negb orb andb]. exact eq_refl.
  - clear Hends. destruct (opt_truthy (r_origin base_route));
      destruct (opt_truthy sheet_name);
      destruct (opt_truthy (r_origin sheet_route));
      destruct (opt_truthy (r_destination sheet_route));
      exact eq_refl.
Qed.

Lemma resolve_base_route_Some (route_text : str) (sheet_name : option str)
    (base_route : Route) :
  resolve_base_route route_text sheet_name = Some base_route →
  opt_truthy (r_origin base_route) = true ∧
  r_sheet_name base_route = sheet_name ∧
  r_start_date base_route = None ∧ r_end_date base_route = None.
Proof.
  rewrite resolve_base_route_unfold.
  pose proof (_extract_route_from_text_meta route_text sheet_name) as Mb.
  pose proof (_extract_route_from_text_meta (default [] sheet_name) sheet_name)
    as Ms.
  revert Mb Ms.
  generalize (_extract_route_from_text route_text sheet_name).
  generalize (_extract_route_from_text (default [] sheet_name) sheet_name).
  intros S B Mb Ms.
  destruct (negb (opt_truthy (r_destination B)) && opt_truthy sheet_name).
  - destruct (opt_truthy (r_origin S)) eqn:Ho; cbn [andb].
    + destruct (opt_truthy (r_destination S)).
      * intros [= <-]. split; [exact Ho|exact Ms].
      * destruct (opt_truthy (r_origin B)) eqn:Hb; [|discriminate].
        intros [= <-]. split; [exact Hb|exact Mb].
    + destruct (opt_truthy (r_origin B)) eqn:Hb; [|discriminate].
      intros [= <-]. split; [exact Hb|exact Mb].
  - cbn [andb]. destruct (opt_truthy (r_origin B)) eqn:Hb; [|discriminate].
    intros [= <-]. split; [exact Hb|exact Mb].
Qed.

(** X12.  The route of a span is decided by two tests only: when the
    header gives no destination and the sheet name gives both an origin and
    a destination, the route read from the sheet name is taken; otherwise
    the route read from the header is taken if it has an origin, and the
    span is given up if it has none. *)
Theorem resolve_base_route_cases (route_text : str) (sheet_name : option str) :
  let base_route := _extract_route_from_text route_text sheet_name in
  let sheet_route :=
    _extract_route_from_text (default [] sheet_name) sheet_name in
  resolve_base_route route_text sheet_name
  = (if negb (opt_truthy (r_destination base_route)) &&
        opt_truthy sheet_name &&
        opt_truthy (r_origin sheet_route) &&
        opt_truthy (r_destination sheet_route)
     then Some sheet_route
     else if opt_truthy (r_origin base_route) then Some base_route
     else None) ∧
  (opt_truthy (r_destination base_route) = true →
   opt_truthy (r_origin base_route) = true) ∧
  ∀ r, resolve_base_route route_text sheet_name = Some r →
       opt_truthy (r_origin r) = true ∧ r_sheet_name r = sheet_name.
Proof.
  cbv zeta. split; [apply resolve_base_route_unfold|].
  split; [apply _extract_route_from_text_ends|].
  intros r Hr. destruct (resolve_base_route_Some _ _ _ Hr) as (Ho & Hs & _).
  split; [exact Ho|exact Hs].
Qed.

Lemma column_route_id (base_route : Route) (sheet_name : option str) :
  r_sheet_name base_route = sheet_name →
  r_start_date base_route = None → r_end_date base_route = None →
  column_route base_route sheet_name = base_route.
Proof.
  destruct base_route. cbn [r_sheet_name r_start_date r_end_date].
  intros -> -> ->. exact eq_refl.
Qed.

Lemma single_agent_named (table_data : sheet) (st : structure)
    (sheet_name : option str) :
  opt_truthy (a_name (single_agent table_data st sheet_name)) = true.
Proof.
  unfold single_agent. cbv zeta.
  match goal with |- context [if opt_truthy ?n then _ else _] =>
    generalize n end.
  intros name. destruct (opt_truthy name) eqn:E;
    [cbn [named_agent a_name]; exact E|].
  destruct sheet_name as [n|]; [|exact eq_refl].
  destruct n as [|c n]; [exact eq_refl|exact eq_refl].
Qed.

Lemma _extract_column_quote_inv (table_data : sheet) (col_idx : nat)
    (st : structure) (base_route : Route) (sheet_name : option str)
    (q : QuoteBlock) :
  _extract_column_quote table_data col_idx st base_route sheet_name = Some q →
  route q = column_route base_route sheet_name ∧
  opt_truthy (a_name (agent q)) = true ∧
  ∃ ar a, agent_row st = Some ar ∧
          _get_cell table_data ar col_idx = Some a ∧
          a_name (agent q) = Some a.
Proof.
  unfold _extract_column_quote. cbv zeta.
  destruct (agent_row st) as [ar|]; [|discriminate].
  destruct (_get_cell table_data ar col_idx) as [a|] eqn:Hc; [|discriminate].
  destruct (_get_cell_Some _ _ _ _ Hc) as (Hne & Hs & _).
  rewrite (truthy_ne _ Hne), Hs. cbn [opt_truthy negb].
  rewrite (truthy_ne _ Hne). cbn [negb].
  intros [= <-]. cbn [route agent named_agent a_name opt_truthy].
  split; [exact eq_refl|]. split; [by apply truthy_ne|].
  exists ar, a. done.
Qed.

Lemma _parse_single_table_elem (table_data : sheet) (route_text : str)
    (sheet_name : option str) (q : QuoteBlock) :
  q ∈ _parse_single_table table_data route_text sheet_name →
  2 ≤ length table_data ∧
  resolve_base_route route_text sheet_name = Some (route q) ∧
  opt_truthy (a_name (agent q)) = true.
Proof.
  unfold _parse_single_table.
  destruct (Nat.ltb (length table_data) 2) eqn:Hl;
    [intros H; by apply elem_of_nil in H|].
  apply Nat.ltb_ge in Hl.
  destruct (resolve_base_route route_text sheet_name) as [B|] eqn:HB;
    [|intros H; by apply elem_of_nil in H].
  destruct (resolve_base_route_Some _ _ _ HB) as (Ho & Hs & Hsd & Hed).
  destruct (_identify_structure table_data) as [st|];
    [|intros H; by apply elem_of_nil in H].
  destruct (is_single_column table_data st).
  - cbv zeta.
    destruct (opt_truthy (r_origin B) && opt_truthy (r_destination B));
      [|intros H; by apply elem_of_nil in H].
    intros ->%list_elem_of_singleton. cbn [route agent].
    split; [exact Hl|]. split; [exact eq_refl|]. apply single_agent_named.
  - intros (col & _ & Hq)%list_elem_of_omap.
    apply _extract_column_quote_inv in Hq as (Hr & Hn & _).
    split; [exact Hl|]. split; [|exact Hn].
    rewrite Hr, (column_route_id B sheet_name Hs Hsd Hed). exact eq_refl.
Qed.

Lemma length_omap_le {A B} (f : A → option B) (l : list A) :
  length (omap f l) ≤ length l.
Proof.
  induction l as [|x l IH]; [done|]. cbn [omap list_omap].
  destruct (f x); cbn [length]; lia.
Qed.

(** X13.  All the quotes that [_parse_single_table] returns for a table
    carry one and the same route, the route of the span: it has an origin
    and the sheet name, and the agent of every quote has a name.  A table
    of fewer than two rows gives no quote, and a table gives at most one
    quote for each column after the first, or one quote in all when the
    table is read as a single column. *)
Theorem _parse_single_table_quotes (table_data : sheet) (route_text : str)
    (sheet_name : option str) (q : QuoteBlock) :
  q ∈ _parse_single_table table_data route_text sheet_name →
  resolve_base_route route_text sheet_name = Some (route q) ∧
  opt_truthy (r_origin (route q)) = true ∧
  r_sheet_name (route q) = sheet_name ∧
  opt_truthy (a_name (agent q)) = true ∧
  2 ≤ length table_data ∧
  (∀ q', q' ∈ _parse_single_table table_data route_text sheet_name →
         route q' = route q) ∧
  ∃ st, _identify_structure table_data = Some st ∧
        length (_parse_single_table table_data route_text sheet_name)
        ≤ Nat.max 1 (num_cols st - 1).
Proof.
  intros Hq. destruct (_parse_single_table_elem _ _ _ _ Hq) as (Hl & Hr & Hn).
  destruct (resolve_base_route_Some _ _ _ Hr) as (Ho & Hs & _).
  split; [exact Hr|]. split; [exact Ho|]. split; [exact Hs|].
  split; [exact Hn|]. split; [exact Hl|]. split.
  - intros q' Hq'.
    destruct (_parse_single_table_elem _ _ _ _ Hq') as (_ & Hr' & _).
    rewrite Hr in Hr'. by injection Hr'.
  - revert Hq. unfold _parse_single_table.
    destruct (Nat.ltb (length table_data) 2);
      [intros H; by apply elem_of_nil in H|].
    rewrite Hr.
    destruct (_identify_structure table_data) as [st|];
      [|intros H; by apply elem_of_nil in H].
    intros _. exists st. split; [exact eq_refl|].
    destruct (is_single_column table_data st).
    + cbv zeta. destruct (_ && _); cbn [length]; lia.
    + etrans; [apply length_omap_le|]. rewrite length_seq. lia.
Qed.

Lemma _parse_single_table_quotes_witness :
  ∃ q, q ∈ _parse_single_table three_agents_sheet (u "深圳-香港")
             (Some order1) ∧
       r_sheet_name (route q) = Some order1 ∧
       opt_truthy (a_name (agent q)) = true.
Proof.
  exists (mkQuote
            (mkRoute (Some shenzhen) (Some hongkong) None None None None
                     None None None None (Some (u "深圳-香港")) (Some order1))
            (named_agent (Some (u "甲公司")))).
  assert (Hq : mkQuote
            (mkRoute (Some shenzhen) (Some hongkong) None None None None
                     None None None None (Some (u "深圳-香港")) (Some order1))
            (named_agent (Some (u "甲公司")))
          ∈ _parse_single_table three_agents_sheet (u "深圳-香港")
              (Some order1)).
  { vm_compute. apply elem_of_cons. left. reflexivity. }
  destruct (_parse_single_table_quotes three_agents_sheet (u "深圳-香港")
              (Some order1) _ Hq) as (_ & _ & Hs & Hn & _).
  split; [exact Hq|]. split; [exact Hs|exact Hn].
Defined.

(* ===================================================================== *)
(** ** The quotes of a sheet *)
(* ===================================================================== *)

Lemma elem_of_concat_map {A B} (f : A → list B) (l : list A) (y : B) :
  y ∈ concat (map f l) ↔ ∃ x, x ∈ l ∧ y ∈ f x.
Proof.
  rewrite list_elem_of_In, in_concat. split.
  - intros (ys & [x [<- Hx]]%in_map_iff & Hy).
    exists x. by rewrite !list_elem_of_In.
  - intros (x & Hx & Hy). exists (f x). rewrite <- !list_elem_of_In.
    split; [|done]. apply list_elem_of_In, in_map_iff. exists x.
    by rewrite <- list_elem_of_In.
Qed.

Lemma first_occurrences_app_same_key {A} (key : A → str) (l1 l2 : list A)
    (k : str) :
  (∀ x, x ∈ l2 → key x = k) →
  length (first_occurrences key (l1 ++ l2))
  ≤ S (length (first_occurrences key l1)).
Proof.
  induction l2 as [|x l2 IH] using rev_ind; intros Hk.
  - rewrite app_nil_r. lia.
  - rewrite app_assoc, first_occurrences_snoc, length_app.
    assert (IH' : length (first_occurrences key (l1 ++ l2))
                  ≤ S (length (first_occurrences key l1))).
    { apply IH. intros y Hy. apply Hk, elem_of_app. by left. }
    destruct (bool_decide (key x ∈ key <$> l1 ++ l2)) eqn:E;
      [cbn [length]; lia|].
    apply bool_decide_eq_false in E.
    destruct l2 as [|y l2]; [rewrite app_nil_r; cbn [length]; lia|].
    exfalso. apply E. rewrite fmap_app. apply elem_of_app. right.
    rewrite fmap_cons. apply elem_of_cons. left.
    rewrite (Hk x), (Hk y); [done|..].
    + apply elem_of_app. left. apply elem_of_cons. by left.
    + apply elem_of_app. right. by apply list_elem_of_singleton.
Qed.

Lemma first_occurrences_concat_le {A} (key : A → str) (ls : list (list A)) :
  (∀ l x y, l ∈ ls → x ∈ l → y ∈ l → key x = key y) →
  length (first_occurrences key (concat ls)) ≤ length ls.
Proof.
  induction ls as [|l ls IH] using rev_ind; intros Hk.
  - cbn [concat]. by rewrite first_occurrences_nil.
  - rewrite concat_app, length_app. cbn [concat length].
    rewrite app_nil_r.
    assert (IH' : length (first_occurrences key (concat ls)) ≤ length ls).
    { apply IH. intros l' x y Hl'. apply Hk, elem_of_app. by left. }
    destruct l as [|x0 l]; [rewrite app_nil_r; lia|].
    etrans; [apply (first_occurrences_app_same_key key _ _ (key x0))|lia].
    intros x Hx. apply (Hk (x0 :: l)); [|done|].
    + apply elem_of_app. right. by apply list_elem_of_singleton.
    + apply elem_of_cons. by left.
Qed.

Lemma span_quotes_same_route (sheet_data : sheet) (sheet_name : option str)
    (b : span) (q1 q2 : QuoteBlock) :
  q1 ∈ span_quotes sheet_data sheet_name b →
  q2 ∈ span_quotes sheet_data sheet_name b →
  route q1 = route q2.
Proof.
  unfold span_quotes. intros H1 H2.
  destruct (_parse_single_table_elem _ _ _ _ H1) as (_ & R1 & _).
  destruct (_parse_single_table_elem _ _ _ _ H2) as (_ & R2 & _).
  rewrite R1 in R2. by injection R2.
Qed.

Lemma sheet_name_quote_length (sheet_name : option str) (st : sheet_state) :
  length (sheet_name_quote sheet_name st) ≤ 1.
Proof.
  unfold sheet_name_quote. destruct sheet_name as [n|]; [|cbn; lia].
  destruct (_ && _ && _); [|cbn; lia]. cbv zeta.
  destruct (_ && _); cbn [length]; lia.
Qed.

(** X14.  [parse_sheet] returns at most one quote for each table of the
    sheet, and at most one quote when the sheet has no table: the agents
    of the further columns of a table are merged away with their route. *)
Theorem parse_sheet_one_quote_per_table (sheet_data : sheet)
    (sheet_name : option str) (dates : option (str * str)) :
  length (parse_sheet sheet_data sheet_name dates)
  ≤ Nat.max 1 (length (_find_table_boundaries sheet_data)) ∧
  NoDup (signature <$> parse_sheet sheet_data sheet_name dates).
Proof.
  split; [|apply parse_sheet_distinct_signatures].
  destruct (decide (sheet_data = [])) as [->|Hs]; [cbn; lia|].
  destruct (decide (table_quotes sheet_data sheet_name = [])) as [E|Hne].
  - rewrite parse_sheet_loop by done. rewrite E. cbn [foldl all_quotes app].
    rewrite length_map.
    pose proof (sheet_name_quote_length sheet_name (SheetState [] ∅ false)).
    lia.
  - rewrite parse_sheet_tables by done. rewrite length_map.
    unfold table_quotes.
    etrans; [apply first_occurrences_concat_le|rewrite length_map; lia].
    intros l x y [b [<- _]]%list_elem_of_In%in_map_iff Hx Hy.
    unfold signature. f_equal. exact (span_quotes_same_route sheet_data sheet_name b x y Hx Hy).
Qed.

Lemma stamp_fields (dates : option (str * str)) (q : QuoteBlock) :
  r_origin (route (stamp dates q)) = r_origin (route q) ∧
  r_destination (route (stamp dates q)) = r_destination (route q) ∧
  r_via (route (stamp dates q)) = r_via (route q) ∧
  r_sheet_name (route (stamp dates q)) = r_sheet_name (route q) ∧
  agent (stamp dates q) = agent q ∧
  (r_start_date (route (stamp dates q)), r_end_date (route (stamp dates q)))
  = match dates with
    | Some (start_date, end_date) =>
        if truthy start_date && truthy end_date
        then (Some start_date, Some end_date)
        else (r_start_date (route q), r_end_date (route q))
    | None => (r_start_date (route q), r_end_date (route q))
    end.
Proof.
  unfold stamp. destruct dates as [[sd ed]|]; [|done].
  by destruct (truthy sd && truthy ed).
Qed.

Lemma sheet_name_quote_elem (sheet_name : option str) (st : sheet_state)
    (q : QuoteBlock) :
  q ∈ sheet_name_quote sheet_name st →
  opt_truthy (r_origin (route q)) = true ∧
  opt_truthy (r_destination (route q)) = true ∧
  r_sheet_name (route q) = sheet_name ∧
  r_start_date (route q) = None ∧ r_end_date (route q) = None ∧
  opt_truthy (a_name (agent q)) = true.
Proof.
  unfold sheet_name_quote. destruct sheet_name as [n|];
    [|intros H; by apply elem_of_nil in H].
  destruct (bool_decide (all_quotes st = []) && negb (has_content_route st));
    cbn [andb]; [|intros H; by apply elem_of_nil in H].
  destruct (truthy n) eqn:Hn; [|intros H; by apply elem_of_nil in H].
  cbv zeta.
  pose proof (_extract_route_from_text_meta n (Some n)) as M. revert M.
  generalize (_extract_route_from_text n (Some n)). intros R (M1 & M2 & M3).
  destruct (opt_truthy (r_origin R)) eqn:Ho; cbn [andb];
    [|intros H; by apply elem_of_nil in H].
  destruct (opt_truthy (r_destination R)) eqn:Hd;
    [|intros H; by apply elem_of_nil in H].
  intros ->%list_elem_of_singleton. cbn [route agent named_agent a_name].
  split; [exact Ho|]. split; [exact Hd|]. split; [exact M1|].
  split; [exact M2|]. split; [exact M3|].
  destruct n; [discriminate|exact eq_refl].
Qed.

Lemma table_quotes_elem (sheet_data : sheet) (sheet_name : option str)
    (q : QuoteBlock) :
  q ∈ table_quotes sheet_data sheet_name →
  opt_truthy (r_origin (route q)) = true ∧
  r_sheet_name (route q) = sheet_name ∧
  r_start_date (route q) = None ∧ r_end_date (route q) = None ∧
  opt_truthy (a_name (agent q)) = true.
Proof.
  unfold table_quotes. intros (b & _ & Hq)%elem_of_concat_map.
  unfold span_quotes in Hq.
  destruct (_parse_single_table_elem _ _ _ _ Hq) as (_ & Hr & Hn).
  destruct (resolve_base_route_Some _ _ _ Hr) as (Ho & Hs & Hsd & Hed).
  done.
Qed.

Lemma parse_sheet_elem (sheet_data : sheet) (sheet_name : option str)
    (dates : option (str * str)) (q : QuoteBlock) :
  q ∈ parse_sheet sheet_data sheet_name dates →
  ∃ q0, q = stamp dates q0 ∧
        (q0 ∈ table_quotes sheet_data sheet_name ∨
         ∃ st, q0 ∈ sheet_name_quote sheet_name st).
Proof.
  destruct (decide (sheet_data = [])) as [->|Hs];
    [intros H; by apply elem_of_nil in H|].
  rewrite parse_sheet_loop by done.
  intros [q0 [<- Hq0]]%list_elem_of_In%in_map_iff.
  apply list_elem_of_In, elem_of_app in Hq0 as [Hq0|Hq0].
  - exists q0. split; [done|]. left.
    destruct (add_quote_loop sheet_name (table_quotes sheet_data sheet_name))
      as [E _].
    rewrite E in Hq0. by apply first_occurrences_elem in Hq0.
  - exists q0. split; [done|]. right. by eexists.
Qed.

(** X15.  Every quote returned by [parse_sheet] has an origin, carries the
    name of the sheet, has an agent with a name, and has the two dates of
    the file when both were read from its name and no date otherwise. *)
Theorem parse_sheet_quotes (sheet_data : sheet) (sheet_name : option str)
    (dates : option (str * str)) (q : QuoteBlock) :
  q ∈ parse_sheet sheet_data sheet_name dates →
  opt_truthy (r_origin (route q)) = true ∧
  r_sheet_name (route q) = sheet_name ∧
  opt_truthy (a_name (agent q)) = true ∧
  (r_start_date (route q), r_end_date (route q))
  = match dates with
    | Some (start_date, end_date) =>
        if truthy start_date && truthy end_date
        then (Some start_date, Some end_date)
        else (None, None)
    | None => (None, None)
    end.
Proof.
  intros (q0 & -> & Hq0)%parse_sheet_elem.
  destruct (stamp_fields dates q0) as (-> & _ & _ & -> & -> & ->).
  assert (H : opt_truthy (r_origin (route q0)) = true ∧
              r_sheet_name (route q0) = sheet_name ∧
              r_start_date (route q0) = None ∧
              r_end_date (route q0) = None ∧
              opt_truthy (a_name (agent q0)) = true).
  { destruct Hq0 as [Hq0|[st Hq0]].
    - by apply (table_quotes_elem sheet_data).
    - apply sheet_name_quote_elem in Hq0 as (? & _ & ? & ? & ? & ?). done. }
  destruct H as (Ho & Hs & -> & -> & Hn).
  split; [exact Ho|]. split; [exact Hs|]. split; [exact Hn|].
  destruct dates as [[sd ed]|]; [|done]. by destruct (truthy sd && truthy ed).
Qed.

Lemma parse_sheet_quotes_witness :
  ∃ q, q ∈ parse_sheet three_agents_sheet (Some order1) None ∧
       r_sheet_name (route q) = Some order1 ∧
       opt_truthy (a_name (agent q)) = true.
Proof.
  exists (mkQuote
            (mkRoute (Some shenzhen) (Some hongkong) None None None None
                     None None None None (Some (u "深圳-香港")) (Some order1))
            (named_agent (Some (u "甲公司")))).
  assert (Hq : mkQuote
            (mkRoute (Some shenzhen) (Some hongkong) None None None None
                     None None None None (Some (u "深圳-香港")) (Some order1))
            (named_agent (Some (u "甲公司")))
          ∈ parse_sheet three_agents_sheet (Some order1) None).
  { vm_compute. apply elem_of_cons. left. reflexivity. }
  destruct (parse_sheet_quotes three_agents_sheet (Some order1) None _ Hq)
    as (_ & Hs & Hn & _).
  split; [exact Hq|]. split; [exact Hs|exact Hn].
Defined.

(** X16.  The quote made from the name of the sheet is returned exactly
    when the tables of the sheet give no quote at all and the name gives
    both an origin and a destination; otherwise the sheet gives the first
    quote of each merge signature among the quotes of its tables.  The
    flag [has_content_route] never changes the result. *)
Theorem parse_sheet_sheet_name_fallback (sheet_data : sheet)
    (sheet_name : option str) (dates : option (str * str)) :
  sheet_data ≠ [] →
  parse_sheet sheet_data sheet_name dates
  = map (stamp dates)
      (match table_quotes sheet_data sheet_name with
       | [] =>
           match sheet_name with
           | Some n =>
               let sheet_route := _extract_route_from_text n sheet_name in
               if truthy n && opt_truthy (r_origin sheet_route) &&
                  opt_truthy (r_destination sheet_route)
               then [mkQuote sheet_route
                             (named_agent (Some (n ++ sheet_suffix)))]
               else []
           | None => []
           end
       | q :: qs => first_occurrences signature (q :: qs)
       end).
Proof.
  intros Hs.
  destruct (table_quotes sheet_data sheet_name) as [|q0 qs] eqn:E.
  - rewrite parse_sheet_loop by done. rewrite E. cbn [foldl all_quotes app].
    f_equal. unfold sheet_name_quote. destruct sheet_name as [n|]; [|done].
    cbn [all_quotes has_content_route negb]. cbv zeta.
    rewrite bool_decide_eq_true_2 by done. cbn [andb].
    generalize (_extract_route_from_text n (Some n)). intros R.
    by destruct (truthy n).
  - rewrite parse_sheet_tables by (rewrite E; done). by rewrite E.
Qed.

Lemma parse_sheet_sheet_name_fallback_witness :
  parse_sheet [[u "运费"]] (Some (u "深圳-香港")) None
  = [mkQuote (_extract_route_from_text (u "深圳-香港") (Some (u "深圳-香港")))
             (named_agent (Some (u "深圳-香港" ++ sheet_suffix)))].
Proof.
  rewrite (parse_sheet_sheet_name_fallback [[u "运费"]]
             (Some (u "深圳-香港")) None); [|discriminate].
  vm_compute. reflexivity.
Defined.

(* ===================================================================== *)
(** ** Agent records of a run *)
(* ===================================================================== *)

Lemma first_occurrences_key_elem {A} (key : A → str) (l : list A) (k : str) :
  k ∈ key <$> l → ∃ y, y ∈ first_occurrences key l ∧ key y = k.
Proof.
  induction l as [|x l IH] using rev_ind; intros Hk;
    [by apply elem_of_nil in Hk|].
  rewrite first_occurrences_snoc.
  rewrite fmap_app in Hk. apply elem_of_app in Hk as [Hk|Hk].
  - destruct (IH Hk) as (y & Hy & E). exists y. split; [|done].
    apply elem_of_app. by left.
  - apply list_elem_of_singleton in Hk as ->.
    destruct (decide (key x ∈ key <$> l)) as [Hin|Hnin].
    + destruct (IH Hin) as (y & Hy & E). exists y. split; [|done].
      apply elem_of_app. by left.
    + rewrite bool_decide_eq_false_2 by done. exists x. split; [|done].
      apply elem_of_app. right. by apply list_elem_of_singleton.
Qed.

Lemma key_index_lookup (l : list (option goods_info * QuoteBlock)) (k : str) :
  k ∈ raw_key <$> l →
  ∃ g0, first_occurrences raw_key l !! key_index l k = Some g0 ∧
        raw_key g0 = k ∧ g0 ∈ l.
Proof.
  intros (y & Hy & E)%first_occurrences_key_elem.
  destruct (list_find_elem_of (fun gq => raw_key gq = k) _ y Hy E)
    as [[i g0] Hf].
  unfold key_index. rewrite Hf. cbn [fmap option_fmap option_map default fst].
  apply list_find_Some in Hf as (Hl & Hk & _).
  exists g0. split; [exact Hl|]. split; [exact Hk|].
  apply (first_occurrences_elem raw_key). by apply list_elem_of_lookup_2 in Hl.
Qed.

Lemma key_index_snoc_old (l : list (option goods_info * QuoteBlock))
    (x : option goods_info * QuoteBlock) (k : str) :
  k ∈ raw_key <$> l → key_index (l ++ [x]) k = key_index l k.
Proof.
  intros (y & Hy & E)%first_occurrences_key_elem.
  destruct (list_find_elem_of (fun gq => raw_key gq = k) _ y Hy E)
    as [[i g0] Hf].
  unfold key_index. rewrite first_occurrences_snoc.
  by rewrite (list_find_app_l _ _ _ _ _ Hf), Hf.
Qed.

Lemma key_index_snoc_new (l : list (option goods_info * QuoteBlock))
    (x : option goods_info * QuoteBlock) :
  raw_key x ∉ raw_key <$> l →
  key_index (l ++ [x]) (raw_key x) = length (first_occurrences raw_key l).
Proof.
  intros Hnin. unfold key_index. rewrite first_occurrences_snoc.
  rewrite bool_decide_eq_false_2 by done.
  rewrite list_find_app_r.
  - cbn. rewrite decide_True by done. cbn. lia.
  - apply list_find_None, Forall_forall. intros y Hy E. apply Hnin.
    rewrite <- E. apply list_elem_of_fmap_2.
    by apply (first_occurrences_elem raw_key).
Qed.

(** What one quote does to the agent records and to the key table. *)
Lemma step_agent (st : runner) (gq : option goods_info * QuoteBlock) :
  consistent st →
  route_agents (step st gq)
  = route_agents st ++
    [AgentRecord (agent_route_id st)
                 (default (route_id st) (route_key_to_id st !! raw_key gq))
                 (agent (snd gq))] ∧
  agent_route_id (step st gq) = S (agent_route_id st) ∧
  route_key_to_id (step st gq)
  = match route_key_to_id st !! raw_key gq with
    | Some _ => route_key_to_id st
    | None => <[raw_key gq := route_id st]> (route_key_to_id st)
    end.
Proof.
  intros (H1 & H2 & H3 & H4). destruct gq as [g q].
  unfold step, _process_quote_block, raw_key. cbn [fst snd]. cbv zeta.
  destruct (route_key_to_id st !! get_unique_key (route q)) as [rid|] eqn:Hk.
  - cbn [_add_route_agent fst routes route_agents route_id route_key_to_id
         agent_route_id default from_option id]. done.
  - unfold _add_route. rewrite H2. cbn [Nat.eqb].
    cbn [_add_route_agent remember fst routes route_agents route_id
         route_key_to_id agent_route_id default from_option id]. done.
Qed.

(** The agent records added while the quotes of a file are processed. *)
Lemma foldl_step_agents (st0 : runner)
    (l : list (option goods_info * QuoteBlock)) :
  consistent st0 → route_key_to_id st0 = ∅ →
  route_agents (foldl step st0 l)
  = route_agents st0 ++
    imap (new_agent_record (agent_route_id st0) (route_id st0) l) l ∧
  agent_route_id (foldl step st0 l) = agent_route_id st0 + length l ∧
  (∀ k, k ∈ raw_key <$> l →
        route_key_to_id (foldl step st0 l) !! k
        = Some (route_id st0 + key_index l k)).
Proof.
  intros Hc0 Hm0. induction l as [|x l (IHa & IHn & IHk)] using rev_ind.
  - cbn [foldl imap length]. rewrite app_nil_r, Nat.add_0_r.
    split; [done|]. split; [done|]. intros k Hk. by apply elem_of_nil in Hk.
  - destruct (foldl_step_routes st0 l Hc0 Hm0) as (Hc & Hr & Hdom).
    assert (Hrid : route_id (foldl step st0 l)
                   = route_id st0 + length (first_occurrences raw_key l)).
    { destruct Hc as (_ & -> & _). destruct Hc0 as (_ & -> & _).
      rewrite Hr, length_app, length_imap. lia. }
    rewrite foldl_snoc.
    destruct (step_agent (foldl step st0 l) x Hc) as (Sa & Sn & Sk).
    assert (Hrid' : default (route_id (foldl step st0 l))
                      (route_key_to_id (foldl step st0 l) !! raw_key x)
                    = route_id st0 + key_index (l ++ [x]) (raw_key x)).
    { destruct (decide (raw_key x ∈ raw_key <$> l)) as [Hin|Hnin].
      - rewrite (IHk _ Hin). cbn [default from_option id].
        by rewrite key_index_snoc_old.
      - assert (route_key_to_id (foldl step st0 l) !! raw_key x = None) as ->.
        { apply eq_None_not_Some. by rewrite Hdom. }
        cbn [default from_option id]. by rewrite Hrid, key_index_snoc_new. }
    split; [|split].
    + rewrite Sa, IHa, imap_app, <- app_assoc. f_equal. f_equal.
      * apply imap_ext. intros i g Hg. unfold new_agent_record.
        rewrite key_index_snoc_old; [done|].
        apply list_elem_of_fmap_2. by apply list_elem_of_lookup_2 in Hg.
      * cbn [imap]. unfold new_agent_record.
        rewrite Nat.add_0_r, IHn, Hrid'. done.
    + rewrite Sn, IHn, length_app. cbn [length]. lia.
    + intros k Hk. rewrite Sk.
      destruct (decide (raw_key x ∈ raw_key <$> l)) as [Hin|Hnin].
      * rewrite (IHk _ Hin).
        assert (Hk' : k ∈ raw_key <$> l).
        { rewrite fmap_app in Hk. apply elem_of_app in Hk as [Hk|Hk]; [done|].
          by apply list_elem_of_singleton in Hk as ->. }
        by rewrite (IHk _ Hk'), key_index_snoc_old.
      * assert (route_key_to_id (foldl step st0 l) !! raw_key x = None) as ->.
        { apply eq_None_not_Some. by rewrite Hdom. }
        destruct (decide (k = raw_key x)) as [->|Hne].
        -- rewrite lookup_insert_eq, Hrid, key_index_snoc_new; done.
        -- rewrite lookup_insert_ne by done.
           assert (Hk' : k ∈ raw_key <$> l).
           { rewrite fmap_app in Hk.
             apply elem_of_app in Hk as [Hk|Hk]; [done|].
             by apply list_elem_of_singleton in Hk. }
           by rewrite (IHk _ Hk'), key_index_snoc_old.
Qed.

Lemma fmap_ar_id_imap (first_id first_route_id : nat)
    (l0 l : list (option goods_info * QuoteBlock)) :
  ar_id <$> imap (new_agent_record first_id first_route_id l0) l
  = seq first_id (length l).
Proof.
  rewrite fmap_imap.
  rewrite (imap_ext _ (fun j _ => id (first_id + j))) by done.
  by rewrite imap_seq, list_fmap_id.
Qed.

Lemma fmap_ar_agent_imap (first_id first_route_id : nat)
    (l0 l : list (option goods_info * QuoteBlock)) :
  ar_agent <$> imap (new_agent_record first_id first_route_id l0) l
  = (fun gq => agent (snd gq)) <$> l.
Proof.
  rewrite fmap_imap.
  rewrite (imap_ext _ (const (fun gq => agent (snd gq)))) by done.
  apply imap_const.
Qed.

(** The agent records of a run: one for each quote of each file, in
    order, numbered from 1. *)
Lemma run_agents (files : list file_input) :
  agent_route_id (run files) = S (length (route_agents (run files))) ∧
  ar_id <$> route_agents (run files)
  = seq 1 (length (route_agents (run files))) ∧
  ar_agent <$> route_agents (run files)
  = (fun gq => agent (snd gq)) <$> concat (file_stream <$> files).
Proof.
  induction files as [|f files (IHn & IHi & IHa)] using rev_ind;
    [done|].
  rewrite run_snoc, _process_file_stream.
  destruct (run_routes files) as [Hc _].
  destruct (foldl_step_agents (start_file (run files)) (file_stream f))
    as (Ha & Hn & _); [by apply consistent_start_file|done|].
  cbn [start_file route_agents agent_route_id route_id] in Ha, Hn.
  rewrite Ha, Hn. rewrite !fmap_app, length_app, length_imap.
  split; [rewrite IHn; lia|]. split.
  - rewrite fmap_ar_id_imap, IHi, IHn. by rewrite seq_app.
  - rewrite fmap_ar_agent_imap, IHa, concat_app. cbn [fmap list_fmap concat].
    by rewrite app_nil_r, fmap_app.
Qed.

(** X17.  A run makes exactly one agent record for every quote that the
    parser returns, in the order of the quotes, file after file, and
    numbers the records 1, 2, ... in that order: no quote is dropped and
    no number is skipped or reused. *)
Theorem run_agent_records (files : list file_input) :
  ar_id <$> route_agents (run files)
  = seq 1 (length (concat (file_stream <$> files))) ∧
  ar_agent <$> route_agents (run files)
  = (fun gq => agent (snd gq)) <$> concat (file_stream <$> files) ∧
  agent_route_id (run files) = S (length (concat (file_stream <$> files))).
Proof.
  destruct (run_agents files) as (Hn & Hi & Ha).
  assert (Hlen : length (route_agents (run files))
                 = length (concat (file_stream <$> files))).
  { rewrite <- (length_fmap ar_agent), Ha. by rewrite length_fmap. }
  rewrite <- Hlen. done.
Qed.

(** X18.  While a file is processed, the agent record of a quote carries
    the identifier of the route record that was made for the first quote
    of the file with the same raw key: two quotes of a file are attached
    to the same route exactly when their raw keys are equal. *)
Theorem agent_route_follows_raw_key (files : list file_input)
    (l : list (option goods_info * QuoteBlock)) :
  route_agents (foldl step (start_file (run files)) l)
  = route_agents (run files) ++
    imap (new_agent_record (S (length (route_agents (run files))))
                           (S (length (routes (run files)))) l) l ∧
  (∀ gq, gq ∈ l →
     ∃ g0, g0 ∈ l ∧ raw_key g0 = raw_key gq ∧
           first_occurrences raw_key l !! key_index l (raw_key gq) = Some g0 ∧
           routes (foldl step (start_file (run files)) l)
             !! (length (routes (run files)) + key_index l (raw_key gq))
           = Some (new_record (S (length (routes (run files))))
                              (key_index l (raw_key gq)) g0)) ∧
  (∀ g1 g2, g1 ∈ l → g2 ∈ l →
     key_index l (raw_key g1) = key_index l (raw_key g2) ↔
     raw_key g1 = raw_key g2).
Proof.
  destruct (run_routes files) as [Hc _].
  destruct (run_agents files) as (Hn & _ & _).
  pose proof (consistent_start_file _ Hc) as Hc'.
  destruct (foldl_step_agents (start_file (run files)) l Hc' eq_refl)
    as (Ha & _ & _).
  destruct (foldl_step_routes (start_file (run files)) l Hc' eq_refl)
    as (_ & Hr & _).
  cbn [start_file route_agents agent_route_id route_id routes] in Ha, Hr.
  destruct Hc as (_ & Hrid & _). rewrite Hrid in Ha, Hr. rewrite Hn in Ha.
  split; [exact Ha|]. split.
  - intros gq Hgq.
    destruct (key_index_lookup l (raw_key gq)) as (g0 & Hl & Hk & Hin);
      [by apply list_elem_of_fmap_2|].
    exists g0. split; [exact Hin|]. split; [exact Hk|]. split; [exact Hl|].
    rewrite Hr, lookup_app_r by lia.
    replace (length (routes (run files)) + key_index l (raw_key gq)
             - length (routes (run files)))
      with (key_index l (raw_key gq)) by lia.
    by rewrite list_lookup_imap, Hl.
  - intros g1 g2 H1 H2. split; [|by intros ->].
    destruct (key_index_lookup l (raw_key g1)) as (a & Hla & Hka & _);
      [by apply list_elem_of_fmap_2|].
    destruct (key_index_lookup l (raw_key g2)) as (b & Hlb & Hkb & _);
      [by apply list_elem_of_fmap_2|].
    intros E. rewrite E in Hla. rewrite Hla in Hlb. injection Hlb as ->.
    by rewrite <- Hka, <- Hkb.
Qed.

(* ===================================================================== *)
(** ** Texts kept with a route, and the rows that start a table *)
(* ===================================================================== *)

Lemma trade_remark_after_bounds (text : str) (m : rmatch_result) (r : str) :
  trade_remark_after text m = Some r → r ≠ [] ∧ length r ≤ 100.
Proof.
  unfold trade_remark_after.
  destruct (Nat.ltb (m_end m) (length text)); [|discriminate]. cbv zeta.
  destruct (truthy (strip (drop (m_end m) text))); [|discriminate].
  match goal with |- context [truthy ?t] => generalize t end.
  intros [|c remaining]; [discriminate|]. cbn [truthy]. intros [= <-].
  split; [discriminate|].
  change (length (take 100 (c :: remaining)) ≤ 100).
  rewrite length_take. lia.
Qed.

Lemma _extract_route_parts_remark (text : str) (rp : route_parts) (r : str) :
  _extract_route_parts text = Some rp → rp_trade_remark rp = Some r →
  r ≠ [] ∧ length r ≤ 100.
Proof.
  assert (Hm : _manual_split_route text = Some rp →
               rp_trade_remark rp = Some r → r ≠ [] ∧ length r ≤ 100).
  { intros H E. destruct (_manual_split_route_valid _ _ H) as (_ & _ & _ & N).
    rewrite N in E. discriminate. }
  unfold _extract_route_parts.
  destruct (re_search RouteExtractor.route_pattern text) as [m|]; [|exact Hm].
  cbv zeta.
  generalize (trade_remark_after_bounds text m r).
  generalize (trade_remark_after text m). intros tr Htr.
  match goal with |- context [if ?c then _ else _] => destruct c end;
    [|exact Hm].
  intros [= <-]. cbn [rp_trade_remark]. exact Htr.
Qed.

Lemma extract_route_remark (text : str) (fallback_start : option str)
    (r : str) :
  trade_remark (extract_route text fallback_start) = Some r →
  r ≠ [] ∧ length r ≤ 100.
Proof.
  intros H. destruct (truthy text) eqn:Ht.
  - destruct (_extract_route_parts text) as [rp|] eqn:Hp.
    + destruct (extract_route_with_parts text fallback_start rp Ht Hp)
        as (_ & _ & _ & Er).
      rewrite Er in H. by apply (_extract_route_parts_remark text rp).
    + destruct (extract_route_without_parts text fallback_start (or_introl Hp))
        as (_ & _ & Er & _).
      rewrite Er in H. discriminate.
  - destruct (extract_route_without_parts text fallback_start (or_intror Ht))
      as (_ & _ & Er & _).
    rewrite Er in H. discriminate.
Qed.

(** X19.  The two free texts kept with a route are bounded: a trade
    remark, when there is one, is not empty and has at most 100
    characters, and the raw text is the first 100 characters of the header,
    kept exactly when the header is not empty. *)
Theorem _extract_route_from_text_bounded (text : str)
    (sheet_name : option str) :
  (∀ r, r_trade_remark (_extract_route_from_text text sheet_name) = Some r →
        r ≠ [] ∧ length r ≤ 100) ∧
  r_raw (_extract_route_from_text text sheet_name)
  = (if truthy text then Some (take 100 text) else None) ∧
  (∀ w, r_raw (_extract_route_from_text text sheet_name) = Some w →
        w ≠ [] ∧ length w ≤ 100).
Proof.
  unfold _extract_route_from_text. cbv zeta.
  destruct text as [|c text]; cbn [truthy negb r_trade_remark r_raw].
  - split; [discriminate|]. split; [exact eq_refl|discriminate].
  - split; [|split; [exact eq_refl|]].
    + intros r. apply extract_route_remark.
    + intros w [= <-]. split; [discriminate|].
      change (length (take 100 (c :: text)) ≤ 100).
      rewrite length_take. lia.
Qed.

Lemma row_opens_iff (sheet_data : sheet) (row_idx : nat) (r : row) :
  row_opens sheet_data row_idx r = true ↔
  ∃ c rest, r = c :: rest ∧ c ≠ [] ∧ length (strip c) ≤ 80 ∧
            is_valid_title sheet_data row_idx (strip c) = true.
Proof.
  unfold row_opens, scanned_cell. split.
  - destruct r as [|c rest]; [discriminate|].
    destruct c as [|c0 c']; [discriminate|]. cbn [truthy]. cbv zeta.
    destruct (Nat.ltb 80 (length (strip (c0 :: c')))) eqn:E; [discriminate|].
    apply Nat.ltb_ge in E. intros H. exists (c0 :: c'), rest. done.
  - intros (c & rest & -> & Hc & Hl & Ht).
    rewrite (truthy_ne _ Hc). cbv zeta.
    apply Nat.ltb_ge in Hl. rewrite Hl. exact Ht.
Qed.

(** X20.  After the first row, a row starts a table exactly when its first
    cell is not empty, has at most 80 characters once trimmed, and passes
    the title test: empty and long first cells never start a table. *)
Theorem table_starts_after_first_row (sheet_data : sheet) (row_idx : nat)
    (r : row) :
  0 < row_idx → sheet_data !! row_idx = Some r →
  row_idx ∈ span_starts (_find_table_boundaries sheet_data) ↔
  ∃ c rest, r = c :: rest ∧ c ≠ [] ∧ length (strip c) ≤ 80 ∧
            is_valid_title sheet_data row_idx (strip c) = true.
Proof.
  intros Hpos Hr.
  rewrite (_find_table_boundaries_start sheet_data row_idx Hpos).
  rewrite (scan_boundaries_start sheet_data row_idx r Hr).
  apply row_opens_iff.
Qed.

Lemma table_starts_after_first_row_witness :
  2 ∈ span_starts (_find_table_boundaries two_spellings_sheet).
Proof.
  apply (proj2 (table_starts_after_first_row two_spellings_sheet 2
                  [u "深圳-马来"] (Nat.lt_0_succ 1) eq_refl)).
  exists (u "深圳-马来"), []. split; [reflexivity|].
  split; [vm_compute; discriminate|]. split; [vm_compute; lia|].
  vm_compute. reflexivity.
Defined.
